(** * Vaultlight backend: a shallow embedding of [backend/server.js]

    The development follows the layout of the server: JavaScript strings and
    buffers, the POSIX flavour of Node's [path] module, key loading, the
    object store on disk, the album catalog, and the three HTTP handlers
    ([POST /upload], [GET /album/:permalink], [GET /uploads/:filename]). *)

From Stdlib Require Import NArith Bool DecimalString.
From Stdlib.Strings Require Import Ascii String Byte.
From stdpp Require Import base tactics option list gmap strings.

(* ===================================================================== *)
(** * Part I: definitions *)
(* ===================================================================== *)

(** ** JavaScript strings

    A string is a sequence of code units.  Every string the server inspects
    (multer's [originalname], MIME types, SQL text columns, environment
    variables) is modelled as a [string] of 8-bit characters. *)

Module JS.

Definition dquote : ascii := "034"%char.
Definition backslash : ascii := "092"%char.
Definition newline : ascii := "010"%char.
Definition creturn : ascii := "013"%char.
Definition slash : ascii := "/"%char.
Definition dot : ascii := "."%char.

Fixpoint str_map (f : ascii → ascii) (s : string) : string :=
  match s with
  | EmptyString => EmptyString
  | String c s' => String (f c) (str_map f s')
  end.

Fixpoint str_forallb (p : ascii → bool) (s : string) : bool :=
  match s with
  | EmptyString => true
  | String c s' => p c && str_forallb p s'
  end.

Fixpoint str_existsb (p : ascii → bool) (s : string) : bool :=
  match s with
  | EmptyString => false
  | String c s' => p c || str_existsb p s'
  end.

Fixpoint str_app (s t : string) : string :=
  match s with
  | EmptyString => t
  | String c s' => String c (str_app s' t)
  end.

(** [s.startsWith(p)] *)
Fixpoint startsWith (s p : string) {struct p} : bool :=
  match p, s with
  | EmptyString, _ => true
  | String _ _, EmptyString => false
  | String a p', String b s' => if Ascii.eqb a b then startsWith s' p' else false
  end.

Definition char_between (lo hi c : ascii) : bool :=
  (N.leb (N_of_ascii lo) (N_of_ascii c)) && (N.leb (N_of_ascii c) (N_of_ascii hi)).

(** [String.prototype.toLowerCase] on 8-bit code units: the ASCII capitals
    and the Latin-1 capitals U+00C0..U+00DE (U+00D7 is the multiplication
    sign and has no lower-case form). *)
Definition lower_char (c : ascii) : ascii :=
  if char_between "A"%char "Z"%char c then ascii_of_N (N_of_ascii c + 32)
  else if char_between "192"%char "222"%char c && negb (Ascii.eqb c "215"%char)
       then ascii_of_N (N_of_ascii c + 32)
       else c.

Definition toLowerCase (s : string) : string := str_map lower_char s.

(** Truthiness of a value that is either [null]/[undefined] or a string. *)
Definition truthy (v : option string) : bool :=
  match v with
  | None => false
  | Some EmptyString => false
  | Some (String _ _) => true
  end.

Fixpoint concat_sep (sep : string) (l : list string) : string :=
  match l with
  | [] => EmptyString
  | [x] => x
  | x :: rest => str_app x (str_app sep (concat_sep sep rest))
  end.

End JS.

Notation "s ^^ t" := (JS.str_app s t) (at level 60, right associativity).

(** ** [sanitizeFilename] (server.js, line 429) *)

(** The character class of the regular expression in [filename.replace]:
    double quote, backslash, line feed and carriage return. *)
Definition header_unsafe (c : ascii) : bool :=
  Ascii.eqb c JS.dquote || Ascii.eqb c JS.backslash
  || Ascii.eqb c JS.newline || Ascii.eqb c JS.creturn.

Definition sanitizeFilename (filename : string) : string :=
  JS.str_map (fun c => if header_unsafe c then "_"%char else c) filename.

(** The value given to [Content-Disposition] in the download route. *)
Definition contentDisposition (original_name : string) : string :=
  "inline; filename=" ^^ String JS.dquote (sanitizeFilename original_name ^^ String JS.dquote EmptyString).

(** ** Buffers

    A [Buffer] is a list of bytes.  Only the two encodings the server uses
    are modelled: [hex] (both directions) and the XOR of two bytes, which is
    what the counter mode inside AES-GCM applies to the data. *)

#[global] Instance byte_eq_dec : EqDecision byte := Byte.byte_eq_dec.

Module Buf.

Definition of_N_wrap (n : N) : byte :=
  match Byte.of_N (n mod 256) with
  | Some b => b
  | None => x00
  end.

Definition xor (a b : byte) : byte :=
  let '(a0, (a1, (a2, (a3, (a4, (a5, (a6, a7))))))) := Byte.to_bits a in
  let '(b0, (b1, (b2, (b3, (b4, (b5, (b6, b7))))))) := Byte.to_bits b in
  Byte.of_bits (xorb a0 b0, (xorb a1 b1, (xorb a2 b2, (xorb a3 b3,
               (xorb a4 b4, (xorb a5 b5, (xorb a6 b6, xorb a7 b7))))))).

Definition hex_digit (n : N) : ascii :=
  match n with
  | 0 => "0" | 1 => "1" | 2 => "2" | 3 => "3" | 4 => "4" | 5 => "5"
  | 6 => "6" | 7 => "7" | 8 => "8" | 9 => "9" | 10 => "a" | 11 => "b"
  | 12 => "c" | 13 => "d" | 14 => "e" | _ => "f"
  end%N%char.

Definition hex_hi (b : byte) : ascii := hex_digit (Byte.to_N b / 16).
Definition hex_lo (b : byte) : ascii := hex_digit (Byte.to_N b mod 16).

(** [buf.toString('hex')]: two lower-case digits per byte. *)
Fixpoint toHex (l : list byte) : string :=
  match l with
  | [] => EmptyString
  | b :: l' => String (hex_hi b) (String (hex_lo b) (toHex l'))
  end.

Definition hexval (c : ascii) : option N :=
  let n := N_of_ascii c in
  if JS.char_between "0"%char "9"%char c then Some (n - 48)%N
  else if JS.char_between "a"%char "f"%char c then Some (n - 87)%N
  else if JS.char_between "A"%char "F"%char c then Some (n - 55)%N
  else None.

Definition is_hex (c : ascii) : bool :=
  match hexval c with Some _ => true | None => false end.

(** [Buffer.from(s, 'hex')]: pairs of digits are decoded from the left;
    decoding stops at the first pair that is not two hexadecimal digits,
    and a trailing single digit is dropped. *)
Fixpoint fromHex (s : string) : list byte :=
  match s with
  | String a (String b rest) =>
      match hexval a, hexval b with
      | Some h, Some l => of_N_wrap (16 * h + l) :: fromHex rest
      | _, _ => []
      end
  | _ => []
  end.

End Buf.

(** ** The random source

    [crypto.randomBytes] and [uuidv4] draw from the system generator.  The
    generator is an unbounded sequence of bytes with a read position. *)

Record Rng := { rng_gen : nat → byte; rng_pos : nat }.

Definition randomBytes (n : nat) (g : Rng) : list byte * Rng :=
  (map (rng_gen g) (seq (rng_pos g) n),
   {| rng_gen := rng_gen g; rng_pos := rng_pos g + n |}).

Module Uuid.

(** [rnds[6] = (rnds[6] & 0x0f) | 0x40] *)
Definition version_byte (b : byte) : byte :=
  Buf.of_N_wrap (N.lor (N.land (Byte.to_N b) 15) 64).

(** [rnds[8] = (rnds[8] & 0x3f) | 0x80] *)
Definition variant_byte (b : byte) : byte :=
  Buf.of_N_wrap (N.lor (N.land (Byte.to_N b) 63) 128).

Definition dash : string := String "-"%char EmptyString.

(** The 8-4-4-4-12 rendering of sixteen bytes. *)
Definition stringify (r : list byte) : string :=
  Buf.toHex (take 4 r) ^^ dash ^^
  Buf.toHex (take 2 (drop 4 r)) ^^ dash ^^
  Buf.toHex (take 2 (drop 6 r)) ^^ dash ^^
  Buf.toHex (take 2 (drop 8 r)) ^^ dash ^^
  Buf.toHex (drop 10 r).

Definition v4_of_bytes (rnds : list byte) : string :=
  stringify (alter variant_byte 8 (alter version_byte 6 rnds)).

Definition uuidv4 (g : Rng) : string * Rng :=
  let '(rnds, g') := randomBytes 16 g in (v4_of_bytes rnds, g').

(** The character classes of the pattern used by [validateUuid]; the
    pattern carries the [i] flag, so letters match in either case. *)
Inductive CharClass := CHex | CDash | CVersion | CVariant.

Definition class_matches (k : CharClass) (c : ascii) : bool :=
  match k with
  | CHex => Buf.is_hex c
  | CDash => Ascii.eqb c "-"%char
  | CVersion => JS.char_between "1"%char "5"%char c
  | CVariant =>
      Ascii.eqb c "8"%char || Ascii.eqb c "9"%char
      || Ascii.eqb c "a"%char || Ascii.eqb c "b"%char
      || Ascii.eqb c "A"%char || Ascii.eqb c "B"%char
  end.

Fixpoint matches (pat : list CharClass) (s : string) : bool :=
  match pat, s with
  | [], EmptyString => true
  | k :: pat', String c s' => class_matches k c && matches pat' s'
  | _, _ => false
  end.

Definition pattern : list CharClass :=
  replicate 8 CHex ++ [CDash] ++ replicate 4 CHex ++ [CDash] ++
  [CVersion] ++ replicate 3 CHex ++ [CDash] ++
  [CVariant] ++ replicate 3 CHex ++ [CDash] ++ replicate 12 CHex.

End Uuid.

(** [validateUuid] (server.js, line 290) *)
Definition validateUuid (value : string) : bool :=
  Uuid.matches Uuid.pattern value.

(** ** Node's [path] module, POSIX flavour

    Paths are strings; the functions work on the segments between slashes
    the way [normalizeString], [resolve], [relative], [join] and [extname]
    of [lib/path.js] do. *)

Module Path.

Definition sep : string := String JS.slash EmptyString.
Definition dotdot : string := String JS.dot (String JS.dot EmptyString).
Definition onedot : string := String JS.dot EmptyString.

(** [s.split('/')] *)
Fixpoint split (s : string) : list string :=
  match s with
  | EmptyString => [EmptyString]
  | String c s' =>
      if Ascii.eqb c JS.slash then EmptyString :: split s'
      else match split s' with
           | seg :: rest => String c seg :: rest
           | [] => [String c EmptyString]
           end
  end.

Definition is_empty (s : string) : bool :=
  match s with EmptyString => true | _ => false end.

Definition isAbsolute (p : string) : bool :=
  match p with
  | String c _ => Ascii.eqb c JS.slash
  | EmptyString => false
  end.

Fixpoint endsWithSlash (p : string) : bool :=
  match p with
  | EmptyString => false
  | String c EmptyString => Ascii.eqb c JS.slash
  | String _ p' => endsWithSlash p'
  end.

(** The segment walk of [normalizeString]: empty and [.] segments are
    skipped; [..] removes the previous segment when there is one that is
    not itself [..], and is kept only when [allowAboveRoot].  [acc] is the
    result so far, last segment first. *)
Fixpoint normalize_go (allowAboveRoot : bool) (acc segs : list string) : list string :=
  match segs with
  | [] => rev acc
  | seg :: rest =>
      if is_empty seg || String.eqb seg onedot then normalize_go allowAboveRoot acc rest
      else if String.eqb seg dotdot then
        match acc with
        | top :: acc' =>
            if String.eqb top dotdot
            then normalize_go allowAboveRoot
                   (if allowAboveRoot then dotdot :: acc else acc) rest
            else normalize_go allowAboveRoot acc' rest
        | [] => normalize_go allowAboveRoot
                   (if allowAboveRoot then [dotdot] else []) rest
        end
      else normalize_go allowAboveRoot (seg :: acc) rest
  end.

Definition normalize_segments (allowAboveRoot : bool) (p : string) : list string :=
  normalize_go allowAboveRoot [] (split p).

Definition normalizeString (p : string) (allowAboveRoot : bool) : string :=
  JS.concat_sep sep (normalize_segments allowAboveRoot p).

(** [path.normalize] *)
Definition normalize (p : string) : string :=
  if is_empty p then onedot
  else
    let n := normalizeString p (negb (isAbsolute p)) in
    if is_empty n then
      if isAbsolute p then sep
      else if endsWithSlash p then onedot ^^ sep else onedot
    else
      let n := if endsWithSlash p then n ^^ sep else n in
      if isAbsolute p then sep ^^ n else n.

(** [path.join]: the non-empty arguments are glued with a slash and the
    result is normalized. *)
Definition join (args : list string) : string :=
  match List.filter (fun a => negb (is_empty a)) args with
  | [] => onedot
  | parts => normalize (JS.concat_sep sep parts)
  end.

(** The right-to-left loop of [path.resolve]; [args] is given last
    argument first and ends with the working directory. *)
Fixpoint resolve_go (args : list string) (resolvedPath : string) : string * bool :=
  match args with
  | [] => (resolvedPath, false)
  | p :: rest =>
      if is_empty p then resolve_go rest resolvedPath
      else
        let r := p ^^ sep ^^ resolvedPath in
        if isAbsolute p then (r, true) else resolve_go rest r
  end.

Definition resolve (cwd : string) (args : list string) : string :=
  let '(r, resolvedAbsolute) := resolve_go (rev (cwd :: args)) EmptyString in
  let n := normalizeString r (negb resolvedAbsolute) in
  if resolvedAbsolute then sep ^^ n
  else if is_empty n then onedot else n.

(** The segments of a resolved path. *)
Definition segments (p : string) : list string :=
  List.filter (fun s => negb (is_empty s)) (split p).

Fixpoint strip_common (from to : list string) : list string * list string :=
  match from, to with
  | f :: from', t :: to' =>
      if String.eqb f t then strip_common from' to' else (from, to)
  | _, _ => (from, to)
  end.

(** [path.relative]: both ends are resolved, the common leading segments
    are dropped, and every remaining segment of [from] becomes [..]. *)
Definition relative (cwd from to : string) : string :=
  if String.eqb from to then EmptyString
  else
    let from := resolve cwd [from] in
    let to := resolve cwd [to] in
    if String.eqb from to then EmptyString
    else
      let '(up, down) := strip_common (segments from) (segments to) in
      JS.concat_sep sep (replicate (length up) dotdot ++ down).

(** Index of the last dot of a segment and the text from that dot on. *)
Fixpoint last_dot (s : string) : option (nat * string) :=
  match s with
  | EmptyString => None
  | String c s' =>
      match last_dot s' with
      | Some (i, ext) => Some (S i, ext)
      | None => if Ascii.eqb c JS.dot then Some (0, s) else None
      end
  end.

Definition basename_segment (p : string) : option string :=
  last (segments p).

(** [path.extname]: the extension of the last non-empty segment, from its
    last dot; empty when there is no dot, when the only dot is the first
    character, and for the segment [..]. *)
Definition extname (p : string) : string :=
  match basename_segment p with
  | None => EmptyString
  | Some base =>
      match last_dot base with
      | None => EmptyString
      | Some (0, _) => EmptyString
      | Some (S _, ext) => if String.eqb base dotdot then EmptyString else ext
      end
  end.

End Path.

(** ** Errors, the platform and the process environment *)

Inductive Err :=
  | Error (message : string)               (* [new Error(message)] *)
  | FsError (code : string) (path : string) (* an [errno] failure of [fs] *)
  | SqliteError (message : string)
  | MulterError (message : string).

Inductive Result (A : Type) :=
  | Ok (a : A)
  | Throw (e : Err).
Arguments Ok {A} a.
Arguments Throw {A} e.

(** What the server takes from outside its own source: the base64 decoder of
    [Buffer.from], the AES primitives of [crypto], the FFmpeg binary and the
    permission checks of the file system.  AES-GCM is counter mode, so its
    cipher text is the plain text XORed with a key stream determined by key
    and IV; the authentication tag is sixteen bytes computed from key, IV
    and cipher text.  A run of FFmpeg on an input either ends well, with
    the output it has written ([ffmpeg_run]), or fails; a run that fails may
    have created its output file already, and [ffmpeg_leftover] is what it
    leaves there ([None] when it fails before it opens the output). *)
Class Platform := {
  base64_decode : string → list byte;
  base64_decode_empty : base64_decode EmptyString = [];
  gcm_keystream : list byte → list byte → nat → byte;
  gcm_tag : list byte → list byte → list byte → list byte;
  gcm_tag_length : ∀ key iv ct, length (gcm_tag key iv ct) = 16;
  cbc_decrypt : list byte → list byte → list byte → option (list byte);
  ffmpeg_run : list byte → option (list byte);
  ffmpeg_leftover : list byte → option (list byte);
  unlink_denied : string → bool;
}.

(** The constants computed at the top of the module. *)
Record Env := {
  app_dir : list string;       (* the segments of [__dirname] *)
  cwd : string;                (* [process.cwd()] *)
  tmpdir : string;             (* [os.tmpdir()] *)
  encryptionKey : list byte;
  ffmpegStatic : bool;         (* whether [ffmpeg-static] resolved a binary *)
}.

Definition abs_of (segs : list string) : string :=
  Path.sep ^^ JS.concat_sep Path.sep segs.

Definition __dirname (env : Env) : string := abs_of (app_dir env).

Definition uploadsDir (env : Env) : string :=
  Path.join [__dirname env; "uploads"].

(** ** [loadEncryptionKey] (server.js, line 259) *)

Definition is_hex64 (s : string) : bool :=
  Nat.eqb (String.length s) 64 && JS.str_forallb Buf.is_hex s.

Definition loadEncryptionKey `{Platform} (rawKey : option string) : Result (list byte) :=
  if negb (JS.truthy rawKey) then Throw (Error "ENCRYPTION_KEY is required")
  else
    let raw := default EmptyString rawKey in
    if is_hex64 raw then Ok (Buf.fromHex raw)
    else
      let decoded := base64_decode raw in
      if Nat.eqb (length decoded) 32 then Ok decoded
      else Throw (Error "ENCRYPTION_KEY must be a 32-byte key in hex or base64 form").

(** Start-up: the key is loaded while the module is evaluated, before
    [app.listen]; an exception there ends the process. *)
Inductive Startup :=
  | Listening (key : list byte)
  | Crashed (e : Err).

Definition startup `{Platform} (ENCRYPTION_KEY : option string) : Startup :=
  match loadEncryptionKey ENCRYPTION_KEY with
  | Ok key => Listening key
  | Throw e => Crashed e
  end.

(** ** [resolveStoragePath] (server.js, line 396) *)

Definition resolveStoragePath (env : Env) (storedPath : string) : Result string :=
  let absolute :=
    if Path.isAbsolute storedPath then storedPath
    else Path.resolve (cwd env) [__dirname env; storedPath] in
  let relative := Path.relative (cwd env) (uploadsDir env) absolute in
  if JS.startsWith relative Path.dotdot || Path.isAbsolute relative
  then Throw (Error "Invalid file path")
  else Ok absolute.

(** ** The catalog and the file system *)

Record AlbumRow := { album_id : nat; album_permalink : string }.

(** A row of [files]; also the record [persistUploadedFile] returns. *)
Record FileRecord := {
  f_album_id : nat;
  f_filename : string;
  f_original_name : string;
  f_path : string;
  f_type : string;
  f_size : nat;
  f_iv : string;
  f_tag : option string;       (* [NULL] for rows written before the migration *)
}.

(** Tables keep their rows in insertion order, which is the order of the
    [AUTOINCREMENT] row ids. *)
Record Db := { albums : list AlbumRow; files : list FileRecord }.

Inductive Query :=
  | InsertAlbum (permalink : string)
  | InsertFile (row : FileRecord)
  | SelectAlbum (permalink : string)
  | SelectFiles (albumId : nat)
  | SelectFile (filename : string).

Inductive Effect :=
  | EvSql (q : Query) (after : Db)  (* a statement and the catalog after it *)
  | EvOpenRead (path : string)
  | EvWrite (path : string)
  | EvUnlink (path : string)
  | EvWarn (message : string).

Record World := {
  w_db : Db;
  w_fs : gmap string (list byte);
  w_rng : Rng;
  w_trace : list Effect;        (* oldest first *)
}.

(** ** The handler monad: state over [World], with exceptions *)

Definition M (A : Type) : Type := World → Result A * World.

Definition ret {A} (a : A) : M A := fun w => (Ok a, w).
Definition throw {A} (e : Err) : M A := fun w => (Throw e, w).
Definition bind {A B} (m : M A) (k : A → M B) : M B :=
  fun w => match m w with
           | (Ok a, w') => k a w'
           | (Throw e, w') => (Throw e, w')
           end.

Notation "'do' x <- m ; k" := (bind m (fun x => k))
  (at level 10, x name, m at level 100, k at level 200, only parsing).
Notation "'run' m ; k" := (bind m (fun _ => k))
  (at level 10, m at level 100, k at level 200, only parsing).

(** [try { m } catch (e) { h e }] *)
Definition try_catch {A} (m : M A) (h : Err → M A) : M A :=
  fun w => match m w with
           | (Ok a, w') => (Ok a, w')
           | (Throw e, w') => h e w'
           end.

(** [try { m } finally { fin }]: an exception of [fin] replaces the outcome
    of [m]. *)
Definition try_finally {A} (m : M A) (fin : M unit) : M A :=
  fun w => match m w with
           | (r, w') => match fin w' with
                        | (Ok _, w'') => (r, w'')
                        | (Throw e, w'') => (Throw e, w'')
                        end
           end.

Definition lift {A} (r : Result A) : M A := fun w => (r, w).

(** Running [m] and looking at how it ended, as the [try] block of a
    [try]/[finally] does before it hands over to the [finally] block. *)
Definition attempt {A} (m : M A) : M (Result A) :=
  fun w => match m w with (r, w') => (Ok r, w') end.

Definition emit (e : Effect) : M unit :=
  fun w => (Ok tt, {| w_db := w_db w; w_fs := w_fs w; w_rng := w_rng w;
                      w_trace := w_trace w ++ [e] |}).

Definition set_db (d : Db) (w : World) : World :=
  {| w_db := d; w_fs := w_fs w; w_rng := w_rng w; w_trace := w_trace w |}.
Definition set_fs (f : gmap string (list byte)) (w : World) : World :=
  {| w_db := w_db w; w_fs := f; w_rng := w_rng w; w_trace := w_trace w |}.
Definition set_rng (g : Rng) (w : World) : World :=
  {| w_db := w_db w; w_fs := w_fs w; w_rng := g; w_trace := w_trace w |}.

Fixpoint mapM {A B} (f : A → M B) (l : list A) : M (list B) :=
  match l with
  | [] => ret []
  | a :: l' => do b <- f a; do bs <- mapM f l'; ret (b :: bs)
  end.

Fixpoint forM_ {A} (f : A → M unit) (l : list A) : M unit :=
  match l with
  | [] => ret tt
  | a :: l' => run f a; forM_ f l'
  end.

(** ** Catalog statements ([runAsync], [getAsync], [allAsync]) *)

Definition log (e : Effect) (w : World) : World :=
  {| w_db := w_db w; w_fs := w_fs w; w_rng := w_rng w;
     w_trace := w_trace w ++ [e] |}.

Definition max_album_id (l : list AlbumRow) : nat :=
  foldr (fun a m => Nat.max (album_id a) m) 0 l.

Definition has_permalink (permalink : string) (a : AlbumRow) : bool :=
  String.eqb (album_permalink a) permalink.

(** [INSERT INTO albums (permalink) VALUES (?)]; the column is [UNIQUE] and
    the id is [AUTOINCREMENT].  The result is [this.lastID]. *)
Definition insertAlbum (permalink : string) : M nat :=
  fun w =>
    let d := w_db w in
    if existsb (has_permalink permalink) (albums d) then
      (Throw (SqliteError "SQLITE_CONSTRAINT: UNIQUE constraint failed: albums.permalink"),
       log (EvSql (InsertAlbum permalink) d) w)
    else
      let id := S (max_album_id (albums d)) in
      let d' := {| albums := albums d ++ [{| album_id := id; album_permalink := permalink |}];
                   files := files d |} in
      (Ok id, log (EvSql (InsertAlbum permalink) d') (set_db d' w)).

(** [INSERT INTO files (...) VALUES (...)] *)
Definition insertFile (row : FileRecord) : M unit :=
  fun w =>
    let d := w_db w in
    let d' := {| albums := albums d; files := files d ++ [row] |} in
    (Ok tt, log (EvSql (InsertFile row) d') (set_db d' w)).

(** [SELECT id FROM albums WHERE permalink = ?] *)
Definition selectAlbum (permalink : string) : M (option AlbumRow) :=
  fun w =>
    (Ok (List.find (has_permalink permalink) (albums (w_db w))),
     log (EvSql (SelectAlbum permalink) (w_db w)) w).

Record FileInfo := {
  i_filename : string;
  i_original_name : string;
  i_type : string;
  i_size : nat;
}.

Definition file_info (r : FileRecord) : FileInfo :=
  {| i_filename := f_filename r; i_original_name := f_original_name r;
     i_type := f_type r; i_size := f_size r |}.

Definition files_of_album (albumId : nat) (d : Db) : list FileInfo :=
  map file_info (List.filter (fun r => Nat.eqb (f_album_id r) albumId) (files d)).

(** [SELECT filename, original_name, type, size FROM files
     WHERE album_id = ? ORDER BY id ASC] *)
Definition selectFiles (albumId : nat) : M (list FileInfo) :=
  fun w =>
    (Ok (files_of_album albumId (w_db w)),
     log (EvSql (SelectFiles albumId) (w_db w)) w).

(** [SELECT original_name, path, type, iv, tag FROM files WHERE filename = ?] *)
Definition selectFile (filename : string) : M (option FileRecord) :=
  fun w =>
    (Ok (List.find (fun r => String.eqb (f_filename r) filename) (files (w_db w))),
     log (EvSql (SelectFile filename) (w_db w)) w).

(** ** File system operations *)

(** Opening a path for reading ([fs.createReadStream]). *)
Definition openRead (p : string) : M unit := emit (EvOpenRead p).

Definition readAll (p : string) : M (list byte) :=
  fun w => match w_fs w !! p with
           | Some content => (Ok content, w)
           | None => (Throw (FsError "ENOENT" p), w)
           end.

Definition writeFile (p : string) (content : list byte) : M unit :=
  fun w => (Ok tt, log (EvWrite p) (set_fs (<[p := content]> (w_fs w)) w)).

(** [fs.promises.unlink] *)
Definition unlink `{Platform} (p : string) : M unit :=
  fun w =>
    let w := log (EvUnlink p) w in
    match w_fs w !! p with
    | None => (Throw (FsError "ENOENT" p), w)
    | Some _ =>
        if unlink_denied p then (Throw (FsError "EACCES" p), w)
        else (Ok tt, set_fs (delete p (w_fs w)) w)
    end.

Definition error_code (e : Err) : option string :=
  match e with
  | FsError code _ => Some code
  | _ => None
  end.

(** [safeUnlink] (server.js, line 382) *)
Definition safeUnlink `{Platform} (targetPath : string) : M unit :=
  if Path.is_empty targetPath then ret tt
  else
    try_catch (unlink targetPath)
      (fun error =>
         if bool_decide (error_code error = Some "ENOENT") then ret tt
         else emit (EvWarn ("Failed to remove temporary file " ^^ targetPath))).

Definition randomBytesM (n : nat) : M (list byte) :=
  fun w => let '(b, g) := randomBytes n (w_rng w) in (Ok b, set_rng g w).

Definition uuidv4 : M string :=
  fun w => let '(u, g) := Uuid.uuidv4 (w_rng w) in (Ok u, set_rng g w).

(** ** Ciphers *)

(** Counter mode: byte [i] of the data is XORed with byte [i] of the key
    stream. *)
Fixpoint ctr_xor (ks : nat → byte) (i : nat) (data : list byte) : list byte :=
  match data with
  | [] => []
  | b :: rest => Buf.xor b (ks i) :: ctr_xor ks (S i) rest
  end.

Inductive Algorithm := aes_256_gcm | aes_256_cbc.

(** The object returned by [createCipheriv] and [createDecipheriv]; [c_tag]
    is the tag registered with [setAuthTag]. *)
Record CipherObj := {
  c_algorithm : Algorithm;
  c_key : list byte;
  c_iv : list byte;
  c_tag : option (list byte);
}.

(** Both algorithms want a 32-byte key; GCM takes any non-empty IV, CBC a
    16-byte one. *)
Definition createCipheriv (alg : Algorithm) (key iv : list byte) : Result CipherObj :=
  if negb (Nat.eqb (length key) 32) then Throw (Error "Invalid key length")
  else if match alg with
          | aes_256_gcm => Nat.eqb (length iv) 0
          | aes_256_cbc => negb (Nat.eqb (length iv) 16)
          end
       then Throw (Error "Invalid initialization vector")
       else Ok {| c_algorithm := alg; c_key := key; c_iv := iv; c_tag := None |}.

Definition createDecipheriv := createCipheriv.

Definition valid_tag_length (n : nat) : bool :=
  bool_decide (n ∈ [4; 8; 12; 13; 14; 15; 16]).

Definition setAuthTag (c : CipherObj) (tag : list byte) : Result CipherObj :=
  match c_algorithm c with
  | aes_256_gcm =>
      if valid_tag_length (length tag)
      then Ok {| c_algorithm := aes_256_gcm; c_key := c_key c; c_iv := c_iv c;
                 c_tag := Some tag |}
      else Throw (Error "Invalid authentication tag length")
  | aes_256_cbc => Throw (Error "Unsupported state")
  end.

Definition gcm_encrypt `{Platform} (key iv plain : list byte) : list byte :=
  ctr_xor (gcm_keystream key iv) 0 plain.

(** Running cipher text through a decipher to the end of the stream.  GCM
    compares the registered tag with the tag of the cipher text when the
    stream ends; CBC has nothing to compare. *)
Definition decipher_run `{Platform} (c : CipherObj) (ct : list byte) : Result (list byte) :=
  match c_algorithm c with
  | aes_256_gcm =>
      match c_tag c with
      | Some tag =>
          if bool_decide (take (length tag) (gcm_tag (c_key c) (c_iv c) ct) = tag)
          then Ok (ctr_xor (gcm_keystream (c_key c) (c_iv c)) 0 ct)
          else Throw (Error "Unsupported state or unable to authenticate data")
      | None => Throw (Error "Unsupported state or unable to authenticate data")
      end
  | aes_256_cbc =>
      match cbc_decrypt (c_key c) (c_iv c) ct with
      | Some plain => Ok plain
      | None => Throw (Error "bad decrypt")
      end
  end.

(** ** The write path *)

(** A file as multer hands it to the handler. *)
Record UploadedFile := {
  up_path : string;            (* the temporary file under [os.tmpdir()] *)
  up_originalname : string;
  up_mimetype : string;
}.

Record Encrypted := {
  e_filename : string;
  e_relativePath : string;
  e_size : nat;
  e_ivHex : string;
  e_tagHex : string;
}.

(** [encryptAndStoreFromDisk] (server.js, line 326).  The write stream
    opens its target before the first chunk arrives, so a failing read
    leaves an empty object behind. *)
Definition encryptAndStoreFromDisk `{Platform} (env : Env)
    (inputPath extension : string) : M Encrypted :=
  do iv <- randomBytesM 12;
  do cipher <- lift (createCipheriv aes_256_gcm (encryptionKey env) iv);
  do id <- uuidv4;
  let filename := id ^^ extension in
  let relativePath := Path.join ["uploads"; filename] in
  let absolutePath := Path.join [__dirname env; relativePath] in
  run openRead inputPath;
  do plain <- try_catch (readAll inputPath)
                (fun e => run writeFile absolutePath []; throw e);
  let ct := gcm_encrypt (c_key cipher) (c_iv cipher) plain in
  run writeFile absolutePath ct;
  let authTag := gcm_tag (c_key cipher) (c_iv cipher) ct in
  ret {| e_filename := filename;
         e_relativePath := Path.relative (cwd env) (__dirname env) absolutePath;
         e_size := length ct;
         e_ivHex := Buf.toHex iv;
         e_tagHex := Buf.toHex authTag |}.

Definition quickTimeTypes : list string := ["video/quicktime"].
Definition quickTimeExtensions : list string := [".mov"; ".qt"].

Definition set_has (l : list string) (x : string) : bool :=
  existsb (String.eqb x) l.

(** [shouldConvertToMp4] (server.js, line 352) *)
Definition shouldConvertToMp4 (file : UploadedFile) : bool :=
  let ext := JS.toLowerCase (Path.extname (up_originalname file)) in
  set_has quickTimeTypes (up_mimetype file) || set_has quickTimeExtensions ext.

(** [convertToMp4] (server.js, line 357).  FFmpeg is handed [outputPath]
    and writes there itself: a run that ends without error has written the
    whole output, a run that fails leaves whatever it had written by then.
    Nothing in the function removes that file when the run fails. *)
Definition convertToMp4 `{Platform} (env : Env) (inputPath : string) : M string :=
  if negb (ffmpegStatic env) then
    throw (Error "MOV conversion requires FFmpeg. Install ffmpeg-static to enable this feature.")
  else
    do id <- uuidv4;
    let outputPath := Path.join [tmpdir env; id ^^ ".mp4"] in
    do input <- try_catch (readAll inputPath) (fun _ => throw (Error "ffmpeg exited with code 1"));
    match ffmpeg_run input with
    | Some output => run writeFile outputPath output; ret outputPath
    | None =>
        match ffmpeg_leftover input with
        | Some partial =>
            run writeFile outputPath partial;
            throw (Error "ffmpeg exited with code 1")
        | None => throw (Error "ffmpeg exited with code 1")
        end
    end.

(** [targetExtension]: the extension with its leading dot. *)
Definition targetExtension (extension : string) : string :=
  if Path.is_empty extension then EmptyString
  else if JS.startsWith extension Path.onedot then extension
       else Path.onedot ^^ extension.

(** The part of [persistUploadedFile] after the optional conversion. *)
Definition storeRecord `{Platform} (env : Env) (file : UploadedFile) (albumId : nat)
    (workingPath mimeType extension : string) : M FileRecord :=
  do encrypted <- encryptAndStoreFromDisk env workingPath (targetExtension extension);
  ret {| f_album_id := albumId;
         f_filename := e_filename encrypted;
         f_original_name := up_originalname file;
         f_path := e_relativePath encrypted;
         f_type := mimeType;
         f_size := e_size encrypted;
         f_iv := e_ivHex encrypted;
         f_tag := Some (e_tagHex encrypted) |}.

(** [persistUploadedFile] (server.js, line 294).  The [finally] block
    removes [workingPath]: the uploaded file until a conversion has
    succeeded, the converted file afterwards. *)
Definition persistUploadedFile `{Platform} (env : Env) (file : UploadedFile)
    (albumId : nat) : M FileRecord :=
  let extension := Path.extname (up_originalname file) in
  if shouldConvertToMp4 file then
    do converted <- attempt (convertToMp4 env (up_path file));
    match converted with
    | Throw e => try_finally (throw e) (safeUnlink (up_path file))
    | Ok convertedPath =>
        try_finally
          (run safeUnlink (up_path file);
           storeRecord env file albumId convertedPath "video/mp4" ".mp4")
          (safeUnlink convertedPath)
    end
  else
    try_finally
      (storeRecord env file albumId (up_path file) (up_mimetype file) extension)
      (safeUnlink (up_path file)).

(** ** Responses *)

Inductive Body :=
  | JsonError (message : string)
  | JsonPermalink (permalink : string)
  | JsonFiles (files : list FileInfo)
  | Text (s : string)
  | Stream (content : list byte)
  | Reset.   (* the connection was closed under the response *)

Record Response := {
  status : nat;
  headers : list (string * string);
  body : Body;
}.

(** What a handler does with the request: answer it, or hand an error to
    [next].  [Destroyed] is the second case with the response object gone:
    when a stream of [pipeline(..., res)] fails, [pipeline] destroys [res]
    before its promise rejects, so the [catch] block hands the error to
    [next] over a response that can no longer be sent. *)
Inductive Outcome :=
  | Respond (r : Response)
  | Next (e : Err)
  | Destroyed (e : Err).

Definition json (code : nat) (b : Body) : Response :=
  {| status := code; headers := []; body := b |}.

(** The error middleware (server.js, line 246). *)
Definition errorMiddleware (e : Err) : Response :=
  match e with
  | MulterError message => json 400 (JsonError message)
  | _ => json 500 (JsonError "Internal server error")
  end.

(** What is left for the client of a response that was destroyed: no
    complete response.  The connection is closed, after at most the status
    line, the headers and a part of the stream have gone out; nothing the
    error middleware writes arrives.  The status 0 is none the server
    sends. *)
Definition no_response : Response :=
  {| status := 0; headers := []; body := Reset |}.

(** The response the client receives.  A JSON answer is given by its status
    and body: it lists no headers, also where the handler had set some on
    [res] before it called [next]. *)
Definition surfaced (o : Outcome) : Response :=
  match o with
  | Respond r => r
  | Next e => errorMiddleware e
  | Destroyed _ => no_response
  end.

(** ** [POST /upload] (server.js, line 127) *)

Definition uploadHandler `{Platform} (env : Env)
    (req_files : option (list UploadedFile)) : M Outcome :=
  let files := default [] req_files in
  if Nat.eqb (length files) 0 then
    ret (Respond (json 400 (JsonError "No files uploaded")))
  else
    do permalink <- uuidv4;
    try_finally
      (try_catch
         (do albumId <- insertAlbum permalink;
          do fileRecords <- mapM (fun file => persistUploadedFile env file albumId) files;
          run forM_ insertFile fileRecords;
          ret (Respond (json 200 (JsonPermalink permalink))))
         (fun error => ret (Next error)))
      (forM_ (fun file => safeUnlink (up_path file)) files).

(** ** [GET /album/:permalink] (server.js, line 168) *)

Definition albumHandler (permalink : string) : M Outcome :=
  try_catch
    (if negb (validateUuid permalink) then
       ret (Respond (json 400 (JsonError "Invalid album identifier")))
     else
       do album <- selectAlbum permalink;
       match album with
       | None => ret (Respond (json 404 (JsonError "Album not found")))
       | Some a =>
           do files <- selectFiles (album_id a);
           ret (Respond (json 200 (JsonFiles files)))
       end)
    (fun error => ret (Next error)).

(** ** [GET /uploads/:filename] (server.js, line 191) *)

(** The branch on [fileRecord.tag] (lines 214 to 222). *)
Definition selectDecipher (key : list byte) (r : FileRecord) : Result CipherObj :=
  let ivBuffer := Buf.fromHex (f_iv r) in
  if JS.truthy (f_tag r) then
    match createDecipheriv aes_256_gcm key ivBuffer with
    | Ok decipher => setAuthTag decipher (Buf.fromHex (default EmptyString (f_tag r)))
    | Throw e => Throw e
    end
  else createDecipheriv aes_256_cbc key ivBuffer.

(** [await pipeline(readStream, decipher, res)] inside the [try] block
    (lines 217 and 221).  When the streams run to their end the response is
    the whole plain text under the headers set before; when one of them
    fails ([ENOENT] on opening the file, a tag that does not match, a bad
    padding) [pipeline] destroys [res] and the error goes to [next]. *)
Definition pipeline (hdrs : list (string * string)) (plain : M (list byte)) : M Outcome :=
  fun w => match plain w with
           | (Ok content, w') =>
               (Ok (Respond {| status := 200; headers := hdrs; body := Stream content |}), w')
           | (Throw e, w') => (Ok (Destroyed e), w')
           end.

Definition streamHandler `{Platform} (env : Env) (filename : string) : M Outcome :=
  try_catch
    (do fileRecord <- selectFile filename;
     match fileRecord with
     | None => ret (Respond {| status := 404; headers := []; body := Text "File not found" |})
     | Some r =>
         do absolutePath <- lift (resolveStoragePath env (f_path r));
         let contentType :=
           if Path.is_empty (f_type r) then "application/octet-stream" else f_type r in
         let hdrs := [("Content-Type", contentType);
                      ("Content-Disposition", contentDisposition (f_original_name r))] in
         run openRead absolutePath;
         do decipher <- lift (selectDecipher (encryptionKey env) r);
         pipeline hdrs
           (do ct <- readAll absolutePath;
            lift (decipher_run decipher ct))
     end)
    (fun error => ret (Next error)).

(** ** A reference platform

    A small executable stand-in for the external pieces, used to run the
    handlers on concrete requests: a lenient base64 decoder in the manner of
    [Buffer.from] (characters outside the alphabet are skipped, decoding
    stops at the first padding character), a key stream and a tag that depend
    on key, IV and position, an identity CBC, a transcoder that prefixes a
    marker byte, refuses an empty input before it opens its output and
    breaks off on an input that starts with the byte [ff] after it has
    written the marker, and a file system that never refuses an unlink. *)

Module Reference.

Definition b64val (c : ascii) : option N :=
  let n := N_of_ascii c in
  if JS.char_between "A"%char "Z"%char c then Some (n - 65)%N
  else if JS.char_between "a"%char "z"%char c then Some (n - 71)%N
  else if JS.char_between "0"%char "9"%char c then Some (n + 4)%N
  else if Ascii.eqb c "+"%char || Ascii.eqb c "-"%char then Some 62%N
  else if Ascii.eqb c "/"%char || Ascii.eqb c "_"%char then Some 63%N
  else None.

Fixpoint sextets (s : string) : list N :=
  match s with
  | EmptyString => []
  | String c s' =>
      if Ascii.eqb c "="%char then []
      else match b64val c with
           | Some v => v :: sextets s'
           | None => sextets s'
           end
  end.

Fixpoint bytes_of_sextets (l : list N) : list byte :=
  match l with
  | a :: b :: c :: d :: rest =>
      Buf.of_N_wrap (a * 4 + b / 16) :: Buf.of_N_wrap (b mod 16 * 16 + c / 4)
      :: Buf.of_N_wrap (c mod 4 * 64 + d) :: bytes_of_sextets rest
  | [a; b; c] =>
      [Buf.of_N_wrap (a * 4 + b / 16); Buf.of_N_wrap (b mod 16 * 16 + c / 4)]
  | [a; b] => [Buf.of_N_wrap (a * 4 + b / 16)]
  | _ => []
  end%N.

Definition decode64 (s : string) : list byte := bytes_of_sextets (sextets s).

Definition nth_byte (l : list byte) (i : nat) : byte :=
  match l with
  | [] => x00
  | _ => nth (i mod length l) l x00
  end.

Definition keystream (key iv : list byte) (i : nat) : byte :=
  Buf.xor (Buf.xor (nth_byte key i) (nth_byte iv i)) (Buf.of_N_wrap (N.of_nat i)).

Definition tag (key iv ct : list byte) : list byte :=
  replicate 16 (foldr Buf.xor (Buf.xor (nth_byte key 0) (nth_byte iv 0)) ct).

#[export] Instance platform : Platform := {|
  base64_decode := decode64;
  base64_decode_empty := eq_refl;
  gcm_keystream := keystream;
  gcm_tag := tag;
  gcm_tag_length := fun key iv ct => length_replicate 16 _;
  cbc_decrypt := fun _ _ ct => Some ct;
  ffmpeg_run := fun input =>
    match input with
    | [] => None
    | xff :: _ => None
    | _ => Some (x01 :: input)
    end;
  ffmpeg_leftover := fun input =>
    match input with
    | xff :: _ => Some [x01]
    | _ => None
    end;
  unlink_denied := fun _ => false;
|}.

Definition rng0 : Rng :=
  {| rng_gen := fun n => Buf.of_N_wrap (N.of_nat (n * 37 + 11)); rng_pos := 0 |}.

Definition key0 : list byte := replicate 32 x2a.

Definition env0 : Env :=
  {| app_dir := ["app"; "backend"]; cwd := "/srv"; tmpdir := "/tmp";
     encryptionKey := key0; ffmpegStatic := true |}.

Definition empty_db : Db := {| albums := []; files := [] |}.

Definition world0 (fs : gmap string (list byte)) : World :=
  {| w_db := empty_db; w_fs := fs; w_rng := rng0; w_trace := [] |}.

End Reference.

(* ===================================================================== *)
(** * Part II: properties *)
(* ===================================================================== *)

(** ** Strings *)

Section StringFacts.

Lemma str_app_assoc s t u : (s ^^ t) ^^ u = s ^^ t ^^ u.
Proof. induction s as [|c s IH]; simpl; [done|by rewrite IH]. Qed.

Lemma str_forallb_app p s t :
  JS.str_forallb p (s ^^ t) = JS.str_forallb p s && JS.str_forallb p t.
Proof.
  induction s as [|c s IH]; simpl; [done|].
  by rewrite IH, andb_assoc.
Qed.

Lemma str_existsb_map_false p f s :
  (∀ c, p (f c) = false) → JS.str_existsb p (JS.str_map f s) = false.
Proof.
  intros Hp. induction s as [|c s IH]; simpl; [done|].
  by rewrite Hp, IH.
Qed.

Lemma str_length_map f s : String.length (JS.str_map f s) = String.length s.
Proof. induction s as [|c s IH]; simpl; [done|by rewrite IH]. Qed.

Lemma str_get_map f s i :
  String.get i (JS.str_map f s) = f <$> String.get i s.
Proof.
  revert i. induction s as [|c s IH]; intros [|i]; simpl; auto.
Qed.

Lemma startsWith_app s t : JS.startsWith (s ^^ t) s = true.
Proof.
  induction s as [|c s IH]; simpl; [done|].
  by rewrite Ascii.eqb_refl.
Qed.

End StringFacts.

(** ** [sanitizeFilename] *)

Definition sanitize_char (c : ascii) : ascii :=
  if header_unsafe c then "_"%char else c.

Lemma sanitize_char_safe c : header_unsafe (sanitize_char c) = false.
Proof.
  unfold sanitize_char. destruct (header_unsafe c) eqn:E; [reflexivity|exact E].
Qed.

(** C10: whatever the stored original name is, the sanitized name has none
    of the four characters double quote, backslash, line feed and carriage
    return: it has the length of the input, an underscore where the input
    had one of the four and the input's character elsewhere; so the text
    between the two quotes of the [Content-Disposition] value holds no
    character that could end the quoted string or the header line. *)
Theorem sanitizeFilename_safe (filename : string) :
  JS.str_existsb header_unsafe (sanitizeFilename filename) = false
  ∧ String.length (sanitizeFilename filename) = String.length filename
  ∧ (∀ i, String.get i (sanitizeFilename filename)
          = (fun c => if header_unsafe c then "_"%char else c) <$> String.get i filename)
  ∧ ∃ quoted,
      contentDisposition filename
      = "inline; filename=" ^^ String JS.dquote (quoted ^^ String JS.dquote EmptyString)
      ∧ JS.str_existsb header_unsafe quoted = false.
Proof.
  assert (Hsafe : JS.str_existsb header_unsafe (sanitizeFilename filename) = false).
  { unfold sanitizeFilename. apply str_existsb_map_false. apply sanitize_char_safe. }
  split; [exact Hsafe|].
  split; [apply str_length_map|].
  split; [intros i; apply str_get_map|].
  exists (sanitizeFilename filename). split; [reflexivity|exact Hsafe].
Qed.

(** ** Hexadecimal text *)

Section HexFacts.

Lemma hexval_hi b : Buf.hexval (Buf.hex_hi b) = Some (Byte.to_N b / 16)%N.
Proof. destruct b; reflexivity. Qed.

Lemma hexval_lo b : Buf.hexval (Buf.hex_lo b) = Some (Byte.to_N b mod 16)%N.
Proof. destruct b; reflexivity. Qed.

Lemma of_N_wrap_nibbles b :
  Buf.of_N_wrap (16 * (Byte.to_N b / 16) + Byte.to_N b mod 16) = b.
Proof. destruct b; reflexivity. Qed.

Lemma is_hex_hi b : Buf.is_hex (Buf.hex_hi b) = true.
Proof. unfold Buf.is_hex. by rewrite hexval_hi. Qed.

Lemma is_hex_lo b : Buf.is_hex (Buf.hex_lo b) = true.
Proof. unfold Buf.is_hex. by rewrite hexval_lo. Qed.

(** Decoding the hex text of a buffer gives the buffer back. *)
Lemma fromHex_toHex l : Buf.fromHex (Buf.toHex l) = l.
Proof.
  induction l as [|b l IH]; [done|].
  cbn [Buf.toHex Buf.fromHex].
  rewrite hexval_hi, hexval_lo, of_N_wrap_nibbles. by rewrite IH.
Qed.


(** A text of [2 * n] hexadecimal digits decodes to [n] bytes. *)
Lemma fromHex_length n : ∀ s,
  String.length s = 2 * n → JS.str_forallb Buf.is_hex s = true →
  length (Buf.fromHex s) = n.
Proof.
  induction n as [|n IH]; intros s Hlen Hhex.
  - destruct s; [done|discriminate].
  - destruct s as [|a [|b rest]]; simpl in Hlen; try lia.
    cbn [JS.str_forallb] in Hhex.
    apply andb_prop in Hhex as [Ha Hhex]. apply andb_prop in Hhex as [Hb Hhex].
    cbn [Buf.fromHex]. unfold Buf.is_hex in Ha, Hb.
    destruct (Buf.hexval a); [|discriminate].
    destruct (Buf.hexval b); [|discriminate].
    cbn [length]. f_equal. apply IH; [lia|done].
Qed.

End HexFacts.

(** ** [loadEncryptionKey] *)

(** The two forms of key text the specification names. *)
Definition accepted_key_form `{Platform} (rawKey : option string) : Prop :=
  ∃ s, rawKey = Some s
       ∧ (is_hex64 s = true ∨ length (base64_decode s) = 32).

Lemma is_hex64_key_length s : is_hex64 s = true → length (Buf.fromHex s) = 32.
Proof.
  unfold is_hex64. intros [Hlen Hhex]%andb_prop.
  apply Nat.eqb_eq in Hlen. apply fromHex_length; [by rewrite Hlen|done].
Qed.

(** C5: key loading accepts exactly the two forms (64 hexadecimal
    characters, or text whose base64 decoding has 32 bytes) and returns a
    32-byte key with which the process starts; for any other value,
    including a missing one, it throws and the process does not start. *)
Theorem loadEncryptionKey_two_forms `{Platform} (rawKey : option string) :
  (accepted_key_form rawKey
   ∧ ∃ key, loadEncryptionKey rawKey = Ok key ∧ length key = 32
            ∧ startup rawKey = Listening key)
  ∨ (¬ accepted_key_form rawKey
     ∧ ∃ e, loadEncryptionKey rawKey = Throw e ∧ startup rawKey = Crashed e).
Proof.
  unfold startup, loadEncryptionKey.
  destruct rawKey as [[|c s]|]; cbn [JS.truthy negb from_option id].
  - right. split; [|eauto].
    intros (s & [= <-] & [Hhex|Hlen]); [discriminate|].
    by rewrite base64_decode_empty in Hlen.
  - destruct (is_hex64 (String c s)) eqn:Hhex.
    + left. split; [exists (String c s); auto|].
      eexists. split; [reflexivity|]. split; [by apply is_hex64_key_length|done].
    + destruct (Nat.eqb_spec (length (base64_decode (String c s))) 32) as [Hlen|Hlen].
      * left. split; [exists (String c s); auto|]. eauto.
      * right. split; [|eauto].
        intros (s' & [= <-] & [Hh|Hl]); [congruence|done].
  - right. split; [|eauto]. by intros (s & [=] & _).
Qed.

(** ** Identifiers *)

Arguments Buf.hex_hi : simpl never.
Arguments Buf.hex_lo : simpl never.
Arguments Buf.is_hex : simpl never.
Arguments Uuid.version_byte : simpl never.
Arguments Uuid.variant_byte : simpl never.
Arguments Uuid.class_matches : simpl never.

Definition no_slash (s : string) : bool :=
  JS.str_forallb (fun c => negb (Ascii.eqb c JS.slash)) s.

Definition uuid_char (c : ascii) : bool :=
  Buf.is_hex c || Ascii.eqb c "-"%char.

Section UuidFacts.

Lemma class_hex_hi b : Uuid.class_matches Uuid.CHex (Buf.hex_hi b) = true.
Proof. apply is_hex_hi. Qed.

Lemma class_hex_lo b : Uuid.class_matches Uuid.CHex (Buf.hex_lo b) = true.
Proof. apply is_hex_lo. Qed.

Lemma class_version b :
  Uuid.class_matches Uuid.CVersion (Buf.hex_hi (Uuid.version_byte b)) = true.
Proof. destruct b; reflexivity. Qed.

Lemma class_variant b :
  Uuid.class_matches Uuid.CVariant (Buf.hex_hi (Uuid.variant_byte b)) = true.
Proof. destruct b; reflexivity. Qed.

(** Every identifier [uuidv4] produces passes [validateUuid]. *)
Lemma v4_valid rnds :
  length rnds = 16 → validateUuid (Uuid.v4_of_bytes rnds) = true.
Proof.
  intros Hlen.
  do 16 (destruct rnds as [|? rnds]; [discriminate|]).
  destruct rnds; [|discriminate].
  unfold validateUuid, Uuid.v4_of_bytes, Uuid.stringify, Uuid.pattern, Uuid.dash.
  simpl.
  rewrite !class_hex_hi, !class_hex_lo, class_version, class_variant.
  reflexivity.
Qed.

Lemma toHex_uuid_chars l : JS.str_forallb uuid_char (Buf.toHex l) = true.
Proof.
  induction l as [|b l IH]; [done|].
  cbn [Buf.toHex JS.str_forallb]. unfold uuid_char at 1 2.
  by rewrite is_hex_hi, is_hex_lo, IH.
Qed.

Lemma v4_chars rnds : JS.str_forallb uuid_char (Uuid.v4_of_bytes rnds) = true.
Proof.
  unfold Uuid.v4_of_bytes, Uuid.stringify, Uuid.dash.
  rewrite !str_forallb_app, !toHex_uuid_chars. reflexivity.
Qed.

Lemma uuid_char_no_slash c : uuid_char c = true → negb (Ascii.eqb c JS.slash) = true.
Proof.
  intros H. destruct (Ascii.eqb_spec c JS.slash) as [->|]; [discriminate|done].
Qed.

Lemma uuid_char_no_dot c : uuid_char c = true → Ascii.eqb c JS.dot = false.
Proof.
  intros H. destruct (Ascii.eqb_spec c JS.dot) as [->|]; [discriminate|done].
Qed.

Lemma str_forallb_impl (p q : ascii → bool) s :
  (∀ c, p c = true → q c = true) →
  JS.str_forallb p s = true → JS.str_forallb q s = true.
Proof.
  intros Hpq. induction s as [|c s IH]; simpl; [done|].
  intros [Hc Hs]%andb_prop. by rewrite (Hpq _ Hc), IH.
Qed.

Lemma v4_no_slash rnds : no_slash (Uuid.v4_of_bytes rnds) = true.
Proof.
  unfold no_slash. eapply str_forallb_impl; [|apply v4_chars].
  apply uuid_char_no_slash.
Qed.

(** An identifier starts with a character that is neither a dot nor a
    slash. *)
Lemma v4_head rnds :
  length rnds = 16 →
  ∃ c rest, Uuid.v4_of_bytes rnds = String c rest ∧ uuid_char c = true.
Proof.
  intros Hlen. pose proof (v4_chars rnds) as Hchars.
  destruct (Uuid.v4_of_bytes rnds) as [|c rest] eqn:E.
  - apply (f_equal validateUuid) in E. by rewrite v4_valid in E.
  - exists c, rest. split; [done|].
    cbn [JS.str_forallb] in Hchars. by apply andb_prop in Hchars as [? _].
Qed.

Lemma randomBytes_length n g : length (fst (randomBytes n g)) = n.
Proof. unfold randomBytes. cbn [fst]. by rewrite length_map, length_seq. Qed.

End UuidFacts.

(** ** Paths *)

(** A segment as it occurs in a normalized path: not empty, no slash,
    neither [.] nor [..]. *)
Definition seg_ok (s : string) : bool :=
  negb (Path.is_empty s) && no_slash s
  && negb (String.eqb s Path.onedot) && negb (String.eqb s Path.dotdot).

Section PathFacts.

Lemma seg_ok_inv s :
  seg_ok s = true →
  Path.is_empty s = false ∧ no_slash s = true
  ∧ String.eqb s Path.onedot = false ∧ String.eqb s Path.dotdot = false.
Proof.
  unfold seg_ok. intros H.
  repeat (apply andb_prop in H as [H ?]).
  repeat split; by apply negb_true_iff || done.
Qed.

Lemma split_cons_nonempty s : Path.split s ≠ [].
Proof.
  destruct s as [|c s]; cbn [Path.split]; [done|].
  destruct (Ascii.eqb c JS.slash); [done|]. by destruct (Path.split s).
Qed.

Lemma split_app a b :
  Path.split (a ^^ String JS.slash b) = Path.split a ++ Path.split b.
Proof.
  induction a as [|c a IH]; cbn [JS.str_app Path.split].
  - by rewrite Ascii.eqb_refl.
  - destruct (Ascii.eqb c JS.slash); [by rewrite IH|].
    rewrite IH. pose proof (split_cons_nonempty a).
    by destruct (Path.split a).
Qed.

Lemma split_no_slash s : no_slash s = true → Path.split s = [s].
Proof.
  unfold no_slash. induction s as [|c s IH]; cbn [JS.str_forallb Path.split]; [done|].
  intros [Hc Hs]%andb_prop. apply negb_true_iff in Hc. rewrite Hc.
  by rewrite (IH Hs).
Qed.

Lemma split_concat l :
  Forall (fun s => seg_ok s = true) l → l ≠ [] →
  Path.split (JS.concat_sep Path.sep l) = l.
Proof.
  induction 1 as [|s l Hs Hl IH]; [done|]. intros _.
  apply seg_ok_inv in Hs as (_ & Hs & _).
  destruct l as [|t l]; cbn [JS.concat_sep].
  - by apply split_no_slash.
  - unfold Path.sep at 1. cbn [JS.str_app].
    rewrite split_app, (split_no_slash _ Hs). cbn [app]. f_equal. by apply IH.
Qed.

Lemma normalize_go_ok allow l1 : ∀ acc l2,
  Forall (fun s => seg_ok s = true) l1 →
  Path.normalize_go allow acc (l1 ++ l2)
  = Path.normalize_go allow (rev l1 ++ acc) l2.
Proof.
  induction l1 as [|s l1 IH]; intros acc l2 Hok; [done|].
  inversion Hok as [|? ? Hs Hl]; subst.
  apply seg_ok_inv in Hs as (He & _ & Hd & Hdd).
  cbn [app Path.normalize_go]. rewrite He, Hd, Hdd. cbn [orb].
  rewrite (IH _ _ Hl). cbn [rev]. by rewrite <- app_assoc.
Qed.

Lemma normalize_go_skip allow acc l :
  Path.normalize_go allow acc (EmptyString :: l) = Path.normalize_go allow acc l.
Proof. reflexivity. Qed.

Lemma normalize_go_abs allow d acc rest :
  Forall (fun s => seg_ok s = true) d →
  Path.normalize_go allow acc (Path.split (abs_of d) ++ rest)
  = Path.normalize_go allow (rev d ++ acc) rest.
Proof.
  intros Hd. unfold abs_of, Path.sep. cbn [JS.str_app Path.split].
  rewrite Ascii.eqb_refl.
  destruct d as [|s d]; [done|].
  rewrite split_concat by done.
  change ((EmptyString :: s :: d) ++ rest) with (EmptyString :: (s :: d) ++ rest).
  rewrite normalize_go_skip. by apply normalize_go_ok.
Qed.

Lemma concat_sep_nonempty l :
  Forall (fun s => seg_ok s = true) l → l ≠ [] →
  Path.is_empty (JS.concat_sep Path.sep l) = false.
Proof.
  intros Hl Hne. destruct l as [|s l]; [done|].
  inversion Hl as [|? ? Hs _]; subst. apply seg_ok_inv in Hs as (He & _).
  destruct s; [done|]. by destruct l.
Qed.

Lemma endsWithSlash_app a b :
  Path.is_empty b = false → Path.endsWithSlash (a ^^ b) = Path.endsWithSlash b.
Proof.
  intros Hb. induction a as [|c a IH]; [done|].
  cbn [JS.str_app Path.endsWithSlash]. rewrite IH.
  destruct (a ^^ b) eqn:E; [|done].
  destruct a; [cbn in E; by subst|discriminate].
Qed.

Lemma endsWithSlash_no_slash s : no_slash s = true → Path.endsWithSlash s = false.
Proof.
  unfold no_slash. induction s as [|c s IH]; [done|].
  cbn [JS.str_forallb Path.endsWithSlash].
  intros [Hc Hs]%andb_prop. apply negb_true_iff in Hc.
  destruct s; [done|]. by apply IH.
Qed.

Lemma concat_sep_cons s l :
  l ≠ [] → JS.concat_sep Path.sep (s :: l) = s ^^ String JS.slash (JS.concat_sep Path.sep l).
Proof. by destruct l. Qed.

Lemma str_app_snoc s c x : s ^^ String c x = (s ^^ String c EmptyString) ^^ x.
Proof. by rewrite str_app_assoc. Qed.

Lemma endsWithSlash_concat l :
  Forall (fun s => seg_ok s = true) l →
  Path.endsWithSlash (JS.concat_sep Path.sep l) = false.
Proof.
  induction 1 as [|s l Hs Hl IH]; [done|].
  destruct l as [|t l].
  - apply seg_ok_inv in Hs as (_ & Hs & _). by apply endsWithSlash_no_slash.
  - rewrite concat_sep_cons by done.
    rewrite str_app_snoc, endsWithSlash_app; [done|].
    by apply concat_sep_nonempty.
Qed.

Lemma isAbsolute_abs_of d : Path.isAbsolute (abs_of d) = true.
Proof. reflexivity. Qed.

Lemma is_empty_abs_of d : Path.is_empty (abs_of d) = false.
Proof. reflexivity. Qed.

Lemma normalize_abs_segments allow d l :
  Forall (fun s => seg_ok s = true) d →
  Forall (fun s => seg_ok s = true) l →
  Path.normalize_go allow [] (Path.split (abs_of d) ++ l) = d ++ l.
Proof.
  intros Hd Hl. rewrite <- (app_nil_r l) at 1.
  rewrite normalize_go_abs, normalize_go_ok by done. cbn [Path.normalize_go].
  by rewrite !app_nil_r, rev_app_distr, !rev_involutive.
Qed.

Lemma join_abs d l :
  Forall (fun s => seg_ok s = true) d →
  Forall (fun s => seg_ok s = true) l → l ≠ [] →
  Path.join [abs_of d; JS.concat_sep Path.sep l] = abs_of (d ++ l).
Proof.
  intros Hd Hl Hne. unfold Path.join. cbn [List.filter].
  rewrite is_empty_abs_of, (concat_sep_nonempty l Hl Hne). cbn [negb].
  set (p := JS.concat_sep Path.sep [abs_of d; JS.concat_sep Path.sep l]).
  assert (Hp : p = abs_of d ^^ String JS.slash (JS.concat_sep Path.sep l)) by reflexivity.
  assert (H1 : Path.is_empty p = false) by reflexivity.
  assert (H2 : Path.isAbsolute p = true) by reflexivity.
  assert (H3 : Path.split p = Path.split (abs_of d) ++ l).
  { rewrite Hp, split_app. by rewrite (split_concat l Hl Hne). }
  assert (H4 : Path.endsWithSlash p = false).
  { rewrite Hp, str_app_snoc, endsWithSlash_app by (by apply concat_sep_nonempty).
    by apply endsWithSlash_concat. }
  assert (Hdl : Forall (fun s => seg_ok s = true) (d ++ l)) by (by apply Forall_app).
  unfold Path.normalize, Path.normalizeString, Path.normalize_segments.
  rewrite H1, H2, H3, H4. cbn [negb].
  rewrite (normalize_abs_segments false d l) by done.
  rewrite concat_sep_nonempty; [reflexivity|done|by destruct d].
Qed.

Lemma seg_ok_head s :
  seg_ok s = true → ∃ c rest, s = String c rest ∧ Ascii.eqb c JS.slash = false.
Proof.
  intros (He & Hs & _)%seg_ok_inv. destruct s as [|c rest]; [done|].
  exists c, rest. split; [done|].
  unfold no_slash in Hs. cbn [JS.str_forallb] in Hs.
  apply andb_prop in Hs as [Hc _]. by apply negb_true_iff.
Qed.

Lemma isAbsolute_concat l :
  Forall (fun s => seg_ok s = true) l →
  Path.isAbsolute (JS.concat_sep Path.sep l) = false.
Proof.
  intros Hl. destruct l as [|s l]; [done|].
  inversion Hl as [|? ? Hs _]; subst.
  apply seg_ok_head in Hs as (c & rest & -> & Hc).
  by destruct l.
Qed.

Lemma normalize_ok_segments allow l :
  Forall (fun s => seg_ok s = true) l → Path.normalize_go allow [] l = l.
Proof.
  intros Hl. rewrite <- (app_nil_r l) at 1.
  rewrite normalize_go_ok by done. cbn [Path.normalize_go].
  by rewrite app_nil_r, rev_involutive.
Qed.

Lemma join_rel a b :
  seg_ok a = true → seg_ok b = true →
  Path.join [a; b] = a ^^ String JS.slash b.
Proof.
  intros Ha Hb.
  assert (Hl : Forall (fun s => seg_ok s = true) [a; b]) by (by repeat constructor).
  pose proof (concat_sep_nonempty [a; b] Hl ltac:(done)) as H1.
  pose proof (isAbsolute_concat [a; b] Hl) as H2.
  pose proof (endsWithSlash_concat [a; b] Hl) as H4.
  pose proof (split_concat [a; b] Hl ltac:(done)) as H3.
  apply seg_ok_inv in Ha as Ha'. destruct Ha' as (Hea & _).
  apply seg_ok_inv in Hb as Hb'. destruct Hb' as (Heb & _).
  unfold Path.join. cbn [List.filter]. rewrite Hea, Heb. cbn [negb].
  unfold Path.normalize, Path.normalizeString, Path.normalize_segments.
  rewrite H1, H2, H3, H4. cbn [negb].
  rewrite normalize_ok_segments by done.
  by rewrite H1.
Qed.

Lemma sep_app x : Path.sep ^^ x = String JS.slash x.
Proof. reflexivity. Qed.

Lemma resolve_abs_rel cwd d l :
  Forall (fun s => seg_ok s = true) d →
  Forall (fun s => seg_ok s = true) l → l ≠ [] →
  Path.resolve cwd [abs_of d; JS.concat_sep Path.sep l] = abs_of (d ++ l).
Proof.
  intros Hd Hl Hne. unfold Path.resolve. cbn [rev app Path.resolve_go].
  rewrite (concat_sep_nonempty l Hl Hne), (isAbsolute_concat l Hl).
  rewrite is_empty_abs_of, isAbsolute_abs_of. cbn [negb].
  unfold Path.normalizeString, Path.normalize_segments.
  rewrite !sep_app, !split_app, (split_concat l Hl Hne).
  rewrite normalize_go_abs, normalize_go_ok by done.
  cbn [Path.split Path.normalize_go Path.is_empty orb].
  by rewrite !app_nil_r, rev_app_distr, !rev_involutive.
Qed.

Lemma resolve_abs cwd d :
  Forall (fun s => seg_ok s = true) d →
  Path.resolve cwd [abs_of d] = abs_of d.
Proof.
  intros Hd. unfold Path.resolve. cbn [rev app Path.resolve_go].
  rewrite is_empty_abs_of, isAbsolute_abs_of. cbn [negb].
  unfold Path.normalizeString, Path.normalize_segments.
  rewrite !sep_app, split_app.
  rewrite normalize_go_abs by done.
  cbn [Path.split Path.normalize_go Path.is_empty orb].
  by rewrite !app_nil_r, rev_involutive.
Qed.

Lemma filter_nonempty_ok l :
  Forall (fun s => seg_ok s = true) l →
  List.filter (fun s => negb (Path.is_empty s)) l = l.
Proof.
  induction 1 as [|s l Hs Hl IH]; [done|].
  cbn [List.filter]. apply seg_ok_inv in Hs as (-> & _). cbn [negb].
  by rewrite IH.
Qed.

Lemma segments_abs_of d :
  Forall (fun s => seg_ok s = true) d → Path.segments (abs_of d) = d.
Proof.
  intros Hd. unfold Path.segments, abs_of, Path.sep. cbn [JS.str_app Path.split].
  rewrite Ascii.eqb_refl. cbn [List.filter Path.is_empty negb].
  destruct d as [|s d]; [done|].
  rewrite split_concat by done. by apply filter_nonempty_ok.
Qed.

Lemma strip_common_app c t : Path.strip_common c (c ++ t) = ([], t).
Proof.
  induction c as [|s c IH]; cbn [app Path.strip_common]; [by destruct t|].
  by rewrite String.eqb_refl.
Qed.

Lemma abs_of_inj a b :
  Forall (fun s => seg_ok s = true) a → Forall (fun s => seg_ok s = true) b →
  abs_of a = abs_of b → a = b.
Proof.
  intros Ha Hb E. apply (f_equal Path.segments) in E.
  by rewrite !segments_abs_of in E.
Qed.

(** The relative path from a directory to something below it. *)
Lemma relative_descend cwd a t :
  Forall (fun s => seg_ok s = true) a →
  Forall (fun s => seg_ok s = true) t → t ≠ [] →
  Path.relative cwd (abs_of a) (abs_of (a ++ t)) = JS.concat_sep Path.sep t.
Proof.
  intros Ha Ht Hne.
  assert (Hat : Forall (fun s => seg_ok s = true) (a ++ t)) by (by apply Forall_app).
  assert (Hneq : abs_of a ≠ abs_of (a ++ t)).
  { intros E%abs_of_inj; [|done..].
    apply (f_equal length) in E. rewrite length_app in E.
    destruct t; [done|]. cbn in E. lia. }
  unfold Path.relative.
  destruct (String.eqb_spec (abs_of a) (abs_of (a ++ t))) as [E|_]; [done|].
  rewrite !resolve_abs by done.
  destruct (String.eqb_spec (abs_of a) (abs_of (a ++ t))) as [E|_]; [done|].
  rewrite !segments_abs_of by done.
  by rewrite strip_common_app.
Qed.

Lemma seg_ok_uploads : seg_ok "uploads" = true.
Proof. reflexivity. Qed.

Lemma uploadsDir_abs env :
  Forall (fun s => seg_ok s = true) (app_dir env) →
  uploadsDir env = abs_of (app_dir env ++ ["uploads"]).
Proof.
  intros Hd. unfold uploadsDir, __dirname.
  apply (join_abs (app_dir env) ["uploads"]); [done| |done].
  by repeat constructor.
Qed.

Lemma strip_common_spec f : ∀ t u dn,
  Path.strip_common f t = (u, dn) → ∃ c, f = c ++ u ∧ t = c ++ dn.
Proof.
  induction f as [|x f IH]; intros t u dn; cbn [Path.strip_common].
  - intros [= <- <-]. by exists [].
  - destruct t as [|y t]; [intros [= <- <-]; by exists []|].
    destruct (String.eqb_spec x y) as [->|_].
    + intros (c & -> & ->)%IH. by exists (y :: c).
    + intros [= <- <-]. by exists [].
Qed.

Lemma concat_dotdot_starts n dn :
  JS.startsWith (JS.concat_sep Path.sep (replicate (S n) Path.dotdot ++ dn)) Path.dotdot = true.
Proof.
  cbn [replicate app].
  destruct (replicate n Path.dotdot ++ dn) as [|y rest] eqn:E; [done|].
  rewrite concat_sep_cons by done. apply startsWith_app.
Qed.

End PathFacts.

(** The resolved form of a path lies in the resolved storage root. *)
Definition inside_root (env : Env) (p : string) : Prop :=
  Path.segments (Path.resolve (cwd env) [uploadsDir env])
    `prefix_of` Path.segments (Path.resolve (cwd env) [p]).

(** Whatever [resolveStoragePath] returns lies in the storage root. *)
Lemma resolveStoragePath_contained env storedPath absolute :
  resolveStoragePath env storedPath = Ok absolute → inside_root env absolute.
Proof.
  unfold resolveStoragePath.
  set (a := if Path.isAbsolute storedPath then storedPath
            else Path.resolve (cwd env) [__dirname env; storedPath]).
  destruct (JS.startsWith _ _ || Path.isAbsolute _) eqn:E; [discriminate|].
  intros [= <-]. apply orb_false_elim in E as [E _].
  unfold inside_root. unfold Path.relative in E.
  destruct (String.eqb_spec (uploadsDir env) a) as [->|_]; [done|].
  destruct (String.eqb_spec (Path.resolve (cwd env) [uploadsDir env])
              (Path.resolve (cwd env) [a])) as [->|_]; [done|].
  destruct (Path.strip_common _ _) as [up down] eqn:Hs.
  apply strip_common_spec in Hs as (c & Hf & Ht).
  destruct up as [|x up].
  - rewrite Hf, Ht, app_nil_r. by apply prefix_app_r.
  - change (length (x :: up)) with (S (length up)) in E.
    by rewrite concat_dotdot_starts in E.
Qed.

(** A stored name made of an identifier and an extension without a slash
    is a good segment that does not start with two dots. *)
Lemma stored_name_ok rnds ext :
  length rnds = 16 → no_slash ext = true →
  let f := Uuid.v4_of_bytes rnds ^^ ext in
  seg_ok f = true ∧ JS.startsWith f Path.dotdot = false
  ∧ Path.isAbsolute f = false.
Proof.
  intros Hlen Hext f. subst f.
  pose proof (v4_no_slash rnds) as Hns.
  destruct (v4_head rnds Hlen) as (c & rest & E & Hc).
  assert (Hno : no_slash (Uuid.v4_of_bytes rnds ^^ ext) = true).
  { unfold no_slash in *. by rewrite str_forallb_app, Hns, Hext. }
  pose proof (uuid_char_no_dot c Hc) as Hdot.
  pose proof (uuid_char_no_slash c Hc) as Hsl. apply negb_true_iff in Hsl.
  unfold seg_ok. rewrite Hno. rewrite E in *. cbn [JS.str_app].
  unfold Path.onedot, Path.dotdot.
  cbn [Path.is_empty String.eqb JS.startsWith Path.isAbsolute negb andb].
  rewrite Hdot, Hsl. rewrite (Ascii.eqb_sym JS.dot c), Hdot. done.
Qed.

Lemma stored_path_resolves env f :
  Forall (fun s => seg_ok s = true) (app_dir env) →
  seg_ok f = true → JS.startsWith f Path.dotdot = false →
  resolveStoragePath env ("uploads" ^^ String JS.slash f)
  = Ok (abs_of (app_dir env ++ ["uploads"; f])).
Proof.
  intros Hd Hf Hdd.
  assert (Hl : Forall (fun s => seg_ok s = true) ["uploads"; f]) by (by repeat constructor).
  pose proof (resolve_abs_rel (cwd env) (app_dir env) ["uploads"; f] Hd Hl ltac:(done)) as Hres.
  unfold resolveStoragePath. change (Path.isAbsolute ("uploads" ^^ String JS.slash f)) with false.
  cbv iota. unfold __dirname.
  change ("uploads" ^^ String JS.slash f) with (JS.concat_sep Path.sep ["uploads"; f]).
  rewrite Hres, uploadsDir_abs by done.
  replace (app_dir env ++ ["uploads"; f]) with ((app_dir env ++ ["uploads"]) ++ [f])
    by (by rewrite <- app_assoc).
  rewrite relative_descend; [| apply Forall_app; split; [done|by repeat constructor]
                             | by repeat constructor | done].
  cbn [JS.concat_sep]. rewrite Hdd.
  apply seg_ok_head in Hf as (c & rest & -> & Hc).
  cbn [Path.isAbsolute]. by rewrite Hc.
Qed.

(** ** Worlds *)

(** The catalog states other requests can observe: one per statement. *)
Definition snapshot_of (e : Effect) : option Db :=
  match e with
  | EvSql _ d => Some d
  | _ => None
  end.

Definition snapshots (w : World) : list Db := omap snapshot_of (w_trace w).

(** The paths opened for reading so far. *)
Definition read_of (e : Effect) : option string :=
  match e with
  | EvOpenRead p => Some p
  | _ => None
  end.

Definition reads (w : World) : list string := omap read_of (w_trace w).

Section WorldFacts.
Context `{Platform}.

Lemma snapshots_log e w :
  snapshots (log e w) = snapshots w ++ option_list (snapshot_of e).
Proof.
  unfold snapshots, log. cbn [w_trace]. rewrite omap_app. cbn.
  by destruct (snapshot_of e).
Qed.

Lemma reads_log e w : reads (log e w) = reads w ++ option_list (read_of e).
Proof.
  unfold reads, log. cbn [w_trace]. rewrite omap_app. cbn.
  by destruct (read_of e).
Qed.

(** [safeUnlink] always returns normally.  It leaves the catalog, the
    generator and the observations of other requests alone, never creates a
    file, removes its target unless the file system refuses, and does
    nothing but note the attempt when the target is already gone. *)
Lemma safeUnlink_spec p w :
  ∃ w', safeUnlink p w = (Ok tt, w')
        ∧ w_db w' = w_db w ∧ w_rng w' = w_rng w
        ∧ snapshots w' = snapshots w ∧ reads w' = reads w
        ∧ (∀ q, w_fs w !! q = None → w_fs w' !! q = None)
        ∧ (Path.is_empty p = false → unlink_denied p = false → w_fs w' !! p = None)
        ∧ (w_fs w !! p = None →
           w_fs w' = w_fs w
           ∧ w_trace w' = w_trace w ++ (if Path.is_empty p then [] else [EvUnlink p])).
Proof.
  unfold safeUnlink. destruct (Path.is_empty p) eqn:Hp.
  { exists w. unfold ret. rewrite app_nil_r. by repeat split. }
  unfold try_catch, unlink. cbn [w_fs log].
  destruct (w_fs w !! p) as [content|] eqn:Hfs.
  - destruct (unlink_denied p) eqn:Hden.
    + cbn [error_code]. rewrite bool_decide_eq_false_2 by (intros [=]).
      eexists. split; [reflexivity|]. cbn.
      repeat split; try done.
      * unfold snapshots. cbn. by rewrite !omap_app, !app_nil_r.
      * unfold reads. cbn. by rewrite !omap_app, !app_nil_r.
    + eexists. split; [reflexivity|]. cbn.
      repeat split; try done.
      * unfold snapshots. cbn. by rewrite !omap_app, !app_nil_r.
      * unfold reads. cbn. by rewrite !omap_app, !app_nil_r.
      * intros q Hq. destruct (decide (p = q)) as [->|Hne];
          [apply lookup_delete_eq|by rewrite lookup_delete_ne].
      * intros _ _. apply lookup_delete_eq.
  - cbn [error_code]. rewrite bool_decide_eq_true_2 by done.
    eexists. split; [reflexivity|]. cbn.
    repeat split; try done.
    * unfold snapshots. cbn. by rewrite !omap_app, !app_nil_r.
    * unfold reads. cbn. by rewrite !omap_app, !app_nil_r.
Qed.


(** *** Relations every step of a handler respects *)

Definition Preserves {A} (R : relation World) (m : M A) : Prop :=
  ∀ w r w', m w = (r, w') → R w w'.

Section PreservesFacts.
Context (R : relation World) `{!PreOrder R}.

Lemma preserves_ret {A} (a : A) : Preserves R (ret a).
Proof. intros w r w' [= <- <-]. reflexivity. Qed.

Lemma preserves_throw {A} e : Preserves R (@throw A e).
Proof. intros w r w' [= <- <-]. reflexivity. Qed.

Lemma preserves_lift {A} (x : Result A) : Preserves R (lift x).
Proof. intros w r w' [= <- <-]. reflexivity. Qed.

Lemma preserves_bind {A B} (m : M A) (k : A → M B) :
  Preserves R m → (∀ a, Preserves R (k a)) → Preserves R (bind m k).
Proof.
  intros Hm Hk w r w' Hrun. unfold bind in Hrun.
  destruct (m w) as [[a|e] w1] eqn:E.
  - etrans; [by eapply Hm|by eapply Hk].
  - injection Hrun as <- <-. by eapply Hm.
Qed.

Lemma preserves_try_catch {A} (m : M A) h :
  Preserves R m → (∀ e, Preserves R (h e)) → Preserves R (try_catch m h).
Proof.
  intros Hm Hh w r w' Hrun. unfold try_catch in Hrun.
  destruct (m w) as [[a|e] w1] eqn:E.
  - injection Hrun as <- <-. by eapply Hm.
  - etrans; [by eapply Hm|by eapply Hh].
Qed.

Lemma preserves_try_finally {A} (m : M A) fin :
  Preserves R m → Preserves R fin → Preserves R (try_finally m fin).
Proof.
  intros Hm Hf w r w' Hrun. unfold try_finally in Hrun.
  destruct (m w) as [r1 w1] eqn:E.
  destruct (fin w1) as [[[]|e] w2] eqn:E2; injection Hrun as <- <-;
    (etrans; [by eapply Hm|by eapply Hf]).
Qed.

Lemma preserves_attempt {A} (m : M A) : Preserves R m → Preserves R (attempt m).
Proof.
  intros Hm w r w' Hrun. unfold attempt in Hrun.
  destruct (m w) as [r1 w1] eqn:E. injection Hrun as <- <-. by eapply Hm.
Qed.

Lemma preserves_mapM {A B} (f : A → M B) l :
  (∀ a, Preserves R (f a)) → Preserves R (mapM f l).
Proof.
  intros Hf. induction l as [|a l IH]; cbn [mapM].
  - apply preserves_ret.
  - apply preserves_bind; [done|]. intros b.
    apply preserves_bind; [done|]. intros bs. apply preserves_ret.
Qed.

Lemma preserves_forM_ {A} (f : A → M unit) l :
  (∀ a, Preserves R (f a)) → Preserves R (forM_ f l).
Proof.
  intros Hf. induction l as [|a l IH]; cbn [forM_].
  - apply preserves_ret.
  - apply preserves_bind; [done|]. by intros _.
Qed.

End PreservesFacts.

(** No catalog statement was issued. *)
Definition quiet (w w' : World) : Prop :=
  w_db w' = w_db w ∧ snapshots w' = snapshots w.

(** The trace only grows. *)
Definition trace_grows (w w' : World) : Prop :=
  ∀ e, e ∈ w_trace w → e ∈ w_trace w'.

#[global] Instance quiet_preorder : PreOrder quiet.
Proof.
  split; [by intros w|].
  intros w1 w2 w3 [H1 H2] [H3 H4]. split; congruence.
Qed.

#[global] Instance trace_grows_preorder : PreOrder trace_grows.
Proof. split; [by intros w e He|]. intros w1 w2 w3 H1 H2 e He. auto. Qed.


Lemma emit_quiet e : snapshot_of e = None → Preserves quiet (emit e).
Proof.
  intros He w r w' [= <- <-]. split; [reflexivity|].
  change (snapshots (log e w) = snapshots w). by rewrite snapshots_log, He, app_nil_r.
Qed.

Lemma emit_grows e : Preserves trace_grows (emit e).
Proof. intros w r w' [= <- <-] x Hx. cbn. set_solver. Qed.

Lemma readAll_same p w r w' : readAll p w = (r, w') → w' = w.
Proof. unfold readAll. destruct (w_fs w !! p); by intros [= <- <-]. Qed.

Lemma readAll_preserves (R : relation World) `{!PreOrder R} p : Preserves R (readAll p).
Proof. intros w r w' ->%readAll_same. reflexivity. Qed.

Lemma writeFile_quiet p c : Preserves quiet (writeFile p c).
Proof.
  intros w r w' [= <- <-]. split; [reflexivity|].
  unfold snapshots. cbn. by rewrite omap_app, app_nil_r.
Qed.

Lemma writeFile_grows p c : Preserves trace_grows (writeFile p c).
Proof. intros w r w' [= <- <-] x Hx. cbn. set_solver. Qed.

Lemma safeUnlink_quiet p : Preserves quiet (safeUnlink p).
Proof.
  intros w r w' Hrun. destruct (safeUnlink_spec p w) as (w1 & E & Hdb & _ & Hs & _).
  rewrite E in Hrun. injection Hrun as <- <-. by split.
Qed.

Lemma randomBytesM_quiet n : Preserves quiet (randomBytesM n).
Proof. unfold randomBytesM, randomBytes. intros w r w' [= <- <-]. by split. Qed.

Lemma randomBytesM_grows n : Preserves trace_grows (randomBytesM n).
Proof. unfold randomBytesM, randomBytes. intros w r w' [= <- <-] e He. exact He. Qed.

Lemma uuidv4_quiet : Preserves quiet uuidv4.
Proof. unfold uuidv4, Uuid.uuidv4, randomBytes. intros w r w' [= <- <-]. by split. Qed.

Lemma uuidv4_grows : Preserves trace_grows uuidv4.
Proof. unfold uuidv4, Uuid.uuidv4, randomBytes. intros w r w' [= <- <-] e He. exact He. Qed.

Lemma unlink_grows p : Preserves trace_grows (unlink p).
Proof.
  intros w r w' Hrun x Hx. unfold unlink in Hrun. cbn in Hrun.
  destruct (w_fs w !! p); [destruct (unlink_denied p)|];
    injection Hrun as <- <-; cbn; set_solver.
Qed.

Lemma safeUnlink_grows p : Preserves trace_grows (safeUnlink p).
Proof.
  unfold safeUnlink. destruct (Path.is_empty p); [apply preserves_ret, _|].
  apply preserves_try_catch; [apply _|apply unlink_grows|].
  intros e. destruct (bool_decide _); [apply preserves_ret, _|apply emit_grows].
Qed.

Lemma encrypt_quiet env input ext : Preserves quiet (encryptAndStoreFromDisk env input ext).
Proof.
  unfold encryptAndStoreFromDisk.
  repeat first
    [ apply preserves_bind; [apply _| |intros ?]
    | apply preserves_try_catch; [apply _| |intros ?]
    | apply preserves_ret, _ | apply preserves_throw, _ | apply preserves_lift, _
    | apply randomBytesM_quiet | apply uuidv4_quiet | apply writeFile_quiet
    | apply readAll_preserves, _ | by apply emit_quiet ].
Qed.

Lemma encrypt_grows env input ext :
  Preserves trace_grows (encryptAndStoreFromDisk env input ext).
Proof.
  unfold encryptAndStoreFromDisk.
  repeat first
    [ apply preserves_bind; [apply _| |intros ?]
    | apply preserves_try_catch; [apply _| |intros ?]
    | apply preserves_ret, _ | apply preserves_throw, _ | apply preserves_lift, _
    | apply randomBytesM_grows | apply uuidv4_grows | apply writeFile_grows
    | apply readAll_preserves, _ | apply emit_grows ].
Qed.


(** *** The write path, step by step *)

Ltac preserves_with tac :=
  repeat first
    [ tac
    | apply preserves_bind; [apply _| |intros ?]
    | apply preserves_try_catch; [apply _| |intros ?]
    | apply preserves_try_finally; [apply _| |]
    | apply preserves_attempt
    | apply preserves_ret, _ | apply preserves_throw, _ | apply preserves_lift, _
    | apply readAll_preserves, _
    | match goal with
      | |- Preserves _ (match ?x with _ => _ end) => destruct x
      end ].

Create HintDb quiet_steps.
Create HintDb growing_steps.

#[local] Hint Resolve randomBytesM_quiet uuidv4_quiet writeFile_quiet
  safeUnlink_quiet encrypt_quiet : quiet_steps.
#[local] Hint Resolve randomBytesM_grows uuidv4_grows writeFile_grows
  safeUnlink_grows encrypt_grows emit_grows : growing_steps.

Lemma convert_quiet env input : Preserves quiet (convertToMp4 env input).
Proof.
  unfold convertToMp4. preserves_with ltac:(solve [eauto with quiet_steps]).
Qed.

Lemma convert_grows env input : Preserves trace_grows (convertToMp4 env input).
Proof.
  unfold convertToMp4. preserves_with ltac:(solve [eauto with growing_steps]).
Qed.

Lemma storeRecord_quiet env file id wp mime ext :
  Preserves quiet (storeRecord env file id wp mime ext).
Proof. unfold storeRecord. preserves_with ltac:(solve [eauto with quiet_steps]). Qed.

Lemma storeRecord_grows env file id wp mime ext :
  Preserves trace_grows (storeRecord env file id wp mime ext).
Proof. unfold storeRecord. preserves_with ltac:(solve [eauto with growing_steps]). Qed.

#[local] Hint Resolve convert_quiet storeRecord_quiet : quiet_steps.
#[local] Hint Resolve convert_grows storeRecord_grows : growing_steps.

(** Processing a file issues no catalog statement. *)
Lemma persist_quiet env file id : Preserves quiet (persistUploadedFile env file id).
Proof.
  unfold persistUploadedFile. preserves_with ltac:(solve [eauto with quiet_steps]).
Qed.

Lemma bind_ok_inv {A B} (m : M A) (k : A → M B) w b w' :
  bind m k w = (Ok b, w') → ∃ a w1, m w = (Ok a, w1) ∧ k a w1 = (Ok b, w').
Proof.
  unfold bind. destruct (m w) as [[a|e] w1]; [eauto|discriminate].
Qed.

Lemma createCipheriv_inv alg key iv c :
  createCipheriv alg key iv = Ok c →
  length key = 32
  ∧ c = {| c_algorithm := alg; c_key := key; c_iv := iv; c_tag := None |}.
Proof.
  unfold createCipheriv.
  destruct (Nat.eqb_spec (length key) 32) as [Hk|]; [|discriminate].
  cbn [negb]. destruct (match alg with aes_256_gcm => _ | aes_256_cbc => _ end);
    [discriminate|]. by intros [= <-].
Qed.

(** What a successful [storeRecord] has done. *)
Lemma storeRecord_inv env file id wp mime ext w r w' :
  storeRecord env file id wp mime ext w = (Ok r, w') →
  ∃ plain,
    w_fs w !! wp = Some plain ∧ length (encryptionKey env) = 32 ∧
    let key := encryptionKey env in
    let iv := fst (randomBytes 12 (w_rng w)) in
    let rnds := fst (randomBytes 16 (snd (randomBytes 12 (w_rng w)))) in
    let filename := Uuid.v4_of_bytes rnds ^^ targetExtension ext in
    let absolutePath := Path.join [__dirname env; Path.join ["uploads"; filename]] in
    let ct := gcm_encrypt key iv plain in
    r = {| f_album_id := id; f_filename := filename;
           f_original_name := up_originalname file;
           f_path := Path.relative (cwd env) (__dirname env) absolutePath;
           f_type := mime; f_size := length ct; f_iv := Buf.toHex iv;
           f_tag := Some (Buf.toHex (gcm_tag key iv ct)) |}
    ∧ w_fs w' = <[absolutePath := ct]> (w_fs w)
    ∧ w_trace w' = w_trace w ++ [EvOpenRead wp; EvWrite absolutePath]
    ∧ w_db w' = w_db w.
Proof.
  intros Hrun. unfold storeRecord in Hrun.
  apply bind_ok_inv in Hrun as (enc & w1 & Henc & Hret). injection Hret as <- <-.
  unfold encryptAndStoreFromDisk in Henc.
  apply bind_ok_inv in Henc as (iv & wa & Hiv & Henc).
  unfold randomBytesM in Hiv. injection Hiv as <- <-.
  apply bind_ok_inv in Henc as (cipher & wb & Hc & Henc).
  injection Hc as Hc <-. apply createCipheriv_inv in Hc as [Hkey ->].
  apply bind_ok_inv in Henc as (uid & wc & Hid & Henc).
  unfold uuidv4, Uuid.uuidv4 in Hid. injection Hid as <- <-.
  apply bind_ok_inv in Henc as ([] & wd & Hopen & Henc).
  injection Hopen as <-.
  apply bind_ok_inv in Henc as (plain & we & Hread & Henc).
  unfold try_catch, readAll in Hread. cbn [w_fs set_rng log] in Hread.
  destruct (w_fs w !! wp) as [content|] eqn:Hin; [|discriminate].
  injection Hread as <- <-.
  apply bind_ok_inv in Henc as ([] & wf & Hwrite & Henc).
  injection Hwrite as <-. injection Henc as <- <-.
  exists content. split; [done|]. split; [done|].
  cbn [e_filename e_relativePath e_size e_ivHex e_tagHex c_key c_iv
       w_fs w_db w_trace w_rng log set_fs set_rng fst snd].
  rewrite <- app_assoc. by repeat split.
Qed.

End WorldFacts.

(** ** The write path and the read path *)

Section StoreFacts.
Context `{Platform}.

Lemma try_finally_ok_inv {A} (m : M A) fin w a w' :
  try_finally m fin w = (Ok a, w') →
  ∃ w1, m w = (Ok a, w1) ∧ fin w1 = (Ok tt, w').
Proof.
  unfold try_finally. destruct (m w) as [r w1].
  destruct (fin w1) as [[[]|e] w2] eqn:Hfin; [|discriminate].
  intros [= -> <-]. exists w1. by split.
Qed.

(** A record returned by [persistUploadedFile] was built by [storeRecord];
    with a conversion it carries the MP4 type and extension, without one
    the uploaded file's own. *)
Lemma persist_inv env file id w r w' :
  persistUploadedFile env file id w = (Ok r, w') →
  ∃ wp mime ext w0 w1,
    storeRecord env file id wp mime ext w0 = (Ok r, w1)
    ∧ trace_grows w1 w'
    ∧ ((shouldConvertToMp4 file = true ∧ mime = "video/mp4" ∧ ext = ".mp4")
       ∨ (shouldConvertToMp4 file = false ∧ wp = up_path file
          ∧ mime = up_mimetype file
          ∧ ext = Path.extname (up_originalname file) ∧ w0 = w)).
Proof.
  unfold persistUploadedFile. destruct (shouldConvertToMp4 file) eqn:Hconv.
  - intros (converted & wa & Hatt & Hrun)%bind_ok_inv.
    destruct converted as [convertedPath|e].
    + apply try_finally_ok_inv in Hrun as (wb & Hrun & Hfin).
      apply bind_ok_inv in Hrun as ([] & wc & _ & Hrun).
      exists convertedPath, "video/mp4", ".mp4", wc, wb.
      split; [done|]. split; [by eapply safeUnlink_grows|]. by left.
    + unfold try_finally, throw in Hrun.
      by destruct (safeUnlink (up_path file) wa) as [[[]|e'] wb].
  - intros (wb & Hrun & Hfin)%try_finally_ok_inv.
    exists (up_path file), (up_mimetype file), (Path.extname (up_originalname file)), w, wb.
    split; [done|]. split; [by eapply safeUnlink_grows|]. by right.
Qed.

Lemma split_no_slash_all p : Forall (fun s => no_slash s = true) (Path.split p).
Proof.
  induction p as [|c p IH]; cbn [Path.split]; [by repeat constructor|].
  destruct (Ascii.eqb c JS.slash) eqn:Hc; [by constructor|].
  destruct (Path.split p) as [|seg rest]; [by repeat constructor; cbn; rewrite Hc|].
  inversion IH as [|? ? Hseg Hrest]; subst. constructor; [|done].
  unfold no_slash in *. cbn [JS.str_forallb]. by rewrite Hc, Hseg.
Qed.

Lemma last_dot_suffix s : ∀ i e,
  Path.last_dot s = Some (i, e) → ∃ pre, s = pre ^^ e.
Proof.
  induction s as [|c s IH]; intros i e; cbn [Path.last_dot]; [discriminate|].
  destruct (Path.last_dot s) as [[j e']|].
  - intros [= <- <-]. destruct (IH j e' eq_refl) as (pre & ->).
    by exists (String c pre).
  - destruct (Ascii.eqb c JS.dot); [|discriminate].
    intros [= <- <-]. by exists EmptyString.
Qed.

Lemma extname_no_slash p : no_slash (Path.extname p) = true.
Proof.
  unfold Path.extname, Path.basename_segment.
  destruct (last (Path.segments p)) as [base|] eqn:Hlast; [|done].
  assert (Hbase : no_slash base = true).
  { apply last_Some_elem_of in Hlast. unfold Path.segments in Hlast.
    apply list_elem_of_In, filter_In in Hlast as [Hin _].
    pose proof (split_no_slash_all p) as Hall.
    rewrite Forall_forall in Hall. apply Hall. by apply list_elem_of_In. }
  destruct (Path.last_dot base) as [[[|i] e]|] eqn:Hdot; [done| |done].
  destruct (String.eqb base Path.dotdot); [done|].
  apply last_dot_suffix in Hdot as (pre & ->).
  unfold no_slash in *. rewrite str_forallb_app in Hbase.
  by apply andb_prop in Hbase as [_ ?].
Qed.

Lemma targetExtension_no_slash ext :
  no_slash ext = true → no_slash (targetExtension ext) = true.
Proof.
  intros Hext. unfold targetExtension.
  destruct (Path.is_empty ext); [done|].
  destruct (JS.startsWith ext Path.onedot); [done|].
  unfold no_slash in *. by rewrite str_forallb_app, Hext.
Qed.

(** The stored name and path of a record [storeRecord] returns, and where
    its object was written. *)
Lemma storeRecord_path env file id wp mime ext w r w' :
  Forall (fun s => seg_ok s = true) (app_dir env) →
  no_slash ext = true →
  storeRecord env file id wp mime ext w = (Ok r, w') →
  let absolute := abs_of (app_dir env ++ ["uploads"; f_filename r]) in
  (∃ uid, f_filename r = uid ^^ targetExtension ext)
  ∧ seg_ok (f_filename r) = true
  ∧ f_path r = "uploads" ^^ String JS.slash (f_filename r)
  ∧ resolveStoragePath env (f_path r) = Ok absolute
  ∧ (∃ plain, w_fs w !! wp = Some plain
       ∧ w_fs w' = <[absolute := gcm_encrypt (encryptionKey env)
                                  (fst (randomBytes 12 (w_rng w))) plain]> (w_fs w))
  ∧ EvWrite absolute ∈ w_trace w'.
Proof.
  intros Hd Hext Hrun absolute.
  apply storeRecord_inv in Hrun as (plain & Hin & Hkey & Hr & Hfs & Htr & Hdb).
  cbv zeta in Hr, Hfs, Htr.
  set (rnds := fst (randomBytes 16 (snd (randomBytes 12 (w_rng w))))) in *.
  set (filename := Uuid.v4_of_bytes rnds ^^ targetExtension ext) in *.
  assert (Hlen : length rnds = 16) by apply randomBytes_length.
  destruct (stored_name_ok rnds (targetExtension ext) Hlen
              (targetExtension_no_slash _ Hext)) as (Hok & Hdd & Habs).
  fold filename in Hok, Hdd, Habs.
  assert (Hname : f_filename r = filename) by (by rewrite Hr).
  assert (Hl : Forall (fun s => seg_ok s = true) ["uploads"; filename]).
  { constructor; [apply seg_ok_uploads|]. constructor; [done|constructor]. }
  assert (Hjoin : Path.join [__dirname env; Path.join ["uploads"; filename]]
                  = abs_of (app_dir env ++ ["uploads"; filename])).
  { rewrite (join_rel "uploads" filename seg_ok_uploads Hok).
    change ("uploads" ^^ String JS.slash filename)
      with (JS.concat_sep Path.sep ["uploads"; filename]).
    by apply join_abs. }
  rewrite Hjoin in Hr, Hfs, Htr.
  assert (Hpath : f_path r = "uploads" ^^ String JS.slash filename).
  { rewrite Hr. cbn [f_path]. unfold __dirname.
    by rewrite relative_descend. }
  subst absolute. rewrite Hname.
  split; [by exists (Uuid.v4_of_bytes rnds)|].
  split; [done|]. split; [done|].
  split; [rewrite Hpath; by apply stored_path_resolves|].
  split; [by exists plain|].
  rewrite Htr. set_solver.
Qed.


(** C9: for every record the encrypting write path produces, the stored
    path is [uploads/] followed by the stored name, and resolving it at read
    time succeeds and gives the absolute path the cipher text was written
    to, which lies in the storage root. *)
Theorem write_read_path_consistent env file albumId w r w' :
  Forall (fun s => seg_ok s = true) (app_dir env) →
  persistUploadedFile env file albumId w = (Ok r, w') →
  let absolute := abs_of (app_dir env ++ ["uploads"; f_filename r]) in
  f_path r = "uploads" ^^ String JS.slash (f_filename r)
  ∧ resolveStoragePath env (f_path r) = Ok absolute
  ∧ EvWrite absolute ∈ w_trace w'
  ∧ inside_root env absolute.
Proof.
  intros Hd Hrun absolute.
  apply persist_inv in Hrun as (wp & mime & ext & w0 & w1 & Hstore & Hgrow & Hcase).
  assert (Hext : no_slash ext = true).
  { destruct Hcase as [(_ & _ & ->)|(_ & _ & _ & -> & _)];
      [reflexivity|apply extname_no_slash]. }
  destruct (storeRecord_path env file albumId wp mime ext w0 r w1 Hd Hext Hstore)
    as (_ & _ & Hpath & Hres & _ & Hw).
  split; [done|]. split; [done|]. split; [by apply Hgrow|].
  by eapply resolveStoragePath_contained.
Qed.

End StoreFacts.

Module Examples.
Import Reference.

Definition photo : UploadedFile :=
  {| up_path := "/tmp/1700000000000-a.jpg"; up_originalname := "cat.jpg";
     up_mimetype := "image/jpeg" |}.

Definition clip : UploadedFile :=
  {| up_path := "/tmp/1700000000001-b.mov"; up_originalname := "clip.MOV";
     up_mimetype := "video/mp4" |}.

Definition disk : gmap string (list byte) :=
  <[up_path photo := [x01; x02; x03]]> (<[up_path clip := [x09]]> ∅).

Lemma app_dir_ok : Forall (fun s => seg_ok s = true) (app_dir env0).
Proof. repeat (constructor; [reflexivity|]). constructor. Qed.

End Examples.

Lemma write_read_path_consistent_witness :
  ∃ r w',
    persistUploadedFile (H := Reference.platform) Reference.env0 Examples.photo 1
      (Reference.world0 Examples.disk) = (Ok r, w')
    ∧ resolveStoragePath Reference.env0 (f_path r)
      = Ok (abs_of (app_dir Reference.env0 ++ ["uploads"; f_filename r])).
Proof.
  assert (Hrun : ∃ r w',
            persistUploadedFile (H := Reference.platform) Reference.env0 Examples.photo 1
              (Reference.world0 Examples.disk) = (Ok r, w'))
    by (eexists _, _; vm_compute; reflexivity).
  destruct Hrun as (r & w' & Hrun). exists r, w'. split; [exact Hrun|].
  exact (proj1 (proj2 (write_read_path_consistent (H := Reference.platform)
                         Reference.env0 Examples.photo 1
                         (Reference.world0 Examples.disk) r w'
                         Examples.app_dir_ok Hrun))).
Defined.

(** ** Encryption and decryption *)

Section CipherFacts.
Context `{Platform}.

Lemma xor_involutive b k : Buf.xor (Buf.xor b k) k = b.
Proof.
  rewrite <- (Byte.of_bits_to_bits b) at 2. unfold Buf.xor.
  destruct (Byte.to_bits b) as (b0 & b1 & b2 & b3 & b4 & b5 & b6 & b7).
  destruct (Byte.to_bits k) as (k0 & k1 & k2 & k3 & k4 & k5 & k6 & k7).
  rewrite Byte.to_bits_of_bits.
  by rewrite !xorb_assoc, !xorb_nilpotent, !xorb_false_r.
Qed.

(** Counter mode is its own inverse. *)
Lemma ctr_xor_involutive ks data : ∀ i, ctr_xor ks i (ctr_xor ks i data) = data.
Proof.
  induction data as [|b data IH]; intros i; cbn [ctr_xor]; [done|].
  by rewrite xor_involutive, IH.
Qed.

Lemma truthy_toHex l : l ≠ [] → JS.truthy (Some (Buf.toHex l)) = true.
Proof. by destruct l. Qed.

Lemma valid_tag_length_16 : valid_tag_length 16 = true.
Proof. reflexivity. Qed.

(** The decipher the read path builds for a record of the write path. *)
Lemma written_record_decipher env file albumId wp mime ext w r w' :
  storeRecord env file albumId wp mime ext w = (Ok r, w') →
  ∃ plain iv tag,
    w_fs w !! wp = Some plain
    ∧ iv = fst (randomBytes 12 (w_rng w))
    ∧ tag = gcm_tag (encryptionKey env) iv (gcm_encrypt (encryptionKey env) iv plain)
    ∧ f_iv r = Buf.toHex iv ∧ f_tag r = Some (Buf.toHex tag)
    ∧ f_type r = mime ∧ f_original_name r = up_originalname file
    ∧ f_album_id r = albumId
    ∧ selectDecipher (encryptionKey env) r
      = Ok {| c_algorithm := aes_256_gcm; c_key := encryptionKey env;
              c_iv := iv; c_tag := Some tag |}.
Proof.
  intros (plain & Hin & Hkey & Hr & _)%storeRecord_inv. cbv zeta in Hr.
  eexists plain, _, _. split; [done|]. split; [reflexivity|]. split; [reflexivity|].
  rewrite Hr. cbn [f_iv f_tag f_type f_original_name f_album_id].
  do 5 (split; [reflexivity|]).
  unfold selectDecipher. cbn [f_iv f_tag from_option id].
  rewrite truthy_toHex by (intros E; apply (f_equal length) in E;
                           by rewrite gcm_tag_length in E).
  rewrite !fromHex_toHex. unfold createDecipheriv, createCipheriv.
  rewrite Hkey, randomBytes_length. cbn [Nat.eqb negb].
  unfold setAuthTag. cbn [c_algorithm c_key c_iv].
  by rewrite gcm_tag_length, valid_tag_length_16.
Qed.


(** ** Transcoding *)





(** ** Round trip *)

Definition response_headers (r : FileRecord) : list (string * string) :=
  [("Content-Type",
    if Path.is_empty (f_type r) then "application/octet-stream" else f_type r);
   ("Content-Disposition", contentDisposition (f_original_name r))].

(** The run of the download route on a record that is found and whose
    stored path resolves. *)
Lemma streamHandler_found env name w r absolute :
  List.find (fun x => String.eqb (f_filename x) name) (files (w_db w)) = Some r →
  resolveStoragePath env (f_path r) = Ok absolute →
  let w1 := log (EvOpenRead absolute) (log (EvSql (SelectFile name) (w_db w)) w) in
  streamHandler env name w
  = match selectDecipher (encryptionKey env) r with
    | Throw e => (Ok (Next e), w1)
    | Ok decipher =>
        match w_fs w !! absolute with
        | None => (Ok (Destroyed (FsError "ENOENT" absolute)), w1)
        | Some ct =>
            match decipher_run decipher ct with
            | Ok plain =>
                (Ok (Respond {| status := 200; headers := response_headers r;
                                body := Stream plain |}), w1)
            | Throw e => (Ok (Destroyed e), w1)
            end
        end
    end.
Proof.
  intros Hfind Hres w1.
  unfold streamHandler, try_catch. unfold bind at 1. unfold selectFile. rewrite Hfind.
  unfold bind at 1. unfold lift. rewrite Hres.
  unfold bind at 1. unfold openRead, emit.
  change {| w_db := w_db (log (EvSql (SelectFile name) (w_db w)) w);
            w_fs := w_fs (log (EvSql (SelectFile name) (w_db w)) w);
            w_rng := w_rng (log (EvSql (SelectFile name) (w_db w)) w);
            w_trace := w_trace (log (EvSql (SelectFile name) (w_db w)) w)
                       ++ [EvOpenRead absolute] |} with w1.
  unfold bind at 1.
  destruct (selectDecipher (encryptionKey env) r) as [decipher|e]; [|done].
  unfold pipeline, bind, readAll. change (w_fs w1) with (w_fs w).
  destruct (w_fs w !! absolute) as [ct|]; [|done].
  by destruct (decipher_run decipher ct).
Qed.

(** [safeUnlink] leaves every other file as it is, and never changes the
    content of a file. *)
Lemma safeUnlink_others p w r w' q :
  safeUnlink p w = (r, w') → q ≠ p → w_fs w' !! q = w_fs w !! q.
Proof.
  unfold safeUnlink. destruct (Path.is_empty p); [by intros [= _ <-]|].
  unfold try_catch, unlink. cbn [w_fs log].
  destruct (w_fs w !! p) as [content|].
  - destruct (unlink_denied p).
    + cbn [error_code]. rewrite bool_decide_eq_false_2 by (intros [=]).
      by intros [= _ <-].
    + intros [= _ <-] Hne. cbn. by rewrite lookup_delete_ne.
  - cbn [error_code]. rewrite bool_decide_eq_true_2 by done. by intros [= _ <-].
Qed.

Lemma safeUnlink_subset p w r w' q x :
  safeUnlink p w = (r, w') → w_fs w' !! q = Some x → w_fs w !! q = Some x.
Proof.
  unfold safeUnlink. destruct (Path.is_empty p); [by intros [= _ <-]|].
  unfold try_catch, unlink. cbn [w_fs log].
  destruct (w_fs w !! p) as [content|].
  - destruct (unlink_denied p).
    + cbn [error_code]. rewrite bool_decide_eq_false_2 by (intros [=]).
      by intros [= _ <-].
    + intros [= _ <-]. cbn. by intros [_ ?]%lookup_delete_Some.
  - cbn [error_code]. rewrite bool_decide_eq_true_2 by done. by intros [= _ <-].
Qed.

Lemma attempt_ok_inv {A} (m : M A) w (a : A) w' :
  attempt m w = (Ok (Ok a), w') → m w = (Ok a, w').
Proof. unfold attempt. destruct (m w) as [r w1]. by intros [= -> ->]. Qed.

(** What a successful conversion has read and written, and where. *)
Lemma convert_inv env p w out w1 :
  convertToMp4 env p w = (Ok out, w1) →
  ∃ input output,
    w_fs w !! p = Some input ∧ ffmpeg_run input = Some output
    ∧ w_fs w1 !! out = Some output
    ∧ out = Path.join [tmpdir env; fst (Uuid.uuidv4 (w_rng w)) ^^ ".mp4"].
Proof.
  unfold convertToMp4. destruct (ffmpegStatic env); [|discriminate]. cbn [negb].
  intros (uid & wa & Hid & Hrun)%bind_ok_inv.
  assert (Hid' : uuidv4 w = (Ok (fst (Uuid.uuidv4 (w_rng w))),
                             set_rng (snd (Uuid.uuidv4 (w_rng w))) w)).
  { unfold uuidv4. by destruct (Uuid.uuidv4 (w_rng w)). }
  rewrite Hid' in Hid.
  assert (uid = fst (Uuid.uuidv4 (w_rng w))
          ∧ wa = set_rng (snd (Uuid.uuidv4 (w_rng w))) w) as [-> Hwa']
    by (split; congruence).
  assert (Hwa : w_fs wa = w_fs w) by (by rewrite Hwa').
  apply bind_ok_inv in Hrun as (input & wb & Hread & Hrun).
  unfold try_catch, readAll in Hread. rewrite Hwa in Hread.
  destruct (w_fs w !! p) as [content|] eqn:Hin; [|discriminate].
  assert (content = input ∧ wb = wa) as [-> ->] by (split; congruence).
  destruct (ffmpeg_run input) as [output|] eqn:Hff;
    [|destruct (ffmpeg_leftover input);
      [by apply bind_ok_inv in Hrun as ([] & wc & _ & Hthrow)|discriminate]].
  apply bind_ok_inv in Hrun as ([] & wc & Hwrite & Hret).
  unfold writeFile in Hwrite. unfold ret in Hret.
  exists input, output. split; [done|]. split; [done|].
  set (target := Path.join [tmpdir env; fst (Uuid.uuidv4 (w_rng w)) ^^ ".mp4"]) in *.
  assert (w1 = wc) as -> by congruence.
  assert (Hout : out = target) by congruence.
  assert (Hwc : wc = log (EvWrite target) (set_fs (<[target := output]> (w_fs wa)) wa))
    by congruence.
  split; [|done]. rewrite Hwc, Hout. cbn [w_fs log set_fs]. apply lookup_insert_eq.
Qed.



End CipherFacts.

(** ** The download route *)

(** The response a handler run sends to the client, through the error
    middleware when the handler called [next]. *)
Definition answer (result : Result Outcome * World) : Response :=
  match fst result with
  | Ok o => surfaced o
  | Throw e => errorMiddleware e
  end.

Definition not_found_response : Response :=
  {| status := 404; headers := []; body := Text "File not found" |}.

Section DownloadFacts.
Context `{Platform}.

Lemma resolveStoragePath_error env p e :
  resolveStoragePath env p = Throw e → e = Error "Invalid file path".
Proof.
  unfold resolveStoragePath. destruct (_ || _); [|discriminate]. by intros [= <-].
Qed.

(** The route opens at most one path, the one [resolveStoragePath]
    returned. *)
Lemma streamHandler_reads env name w o w' :
  streamHandler env name w = (o, w') →
  reads w' = reads w
  ∨ ∃ r absolute,
      resolveStoragePath env (f_path r) = Ok absolute
      ∧ reads w' = reads w ++ [absolute].
Proof.
  intros Hrun.
  destruct (List.find (fun x => String.eqb (f_filename x) name) (files (w_db w)))
    as [r|] eqn:Hfind.
  - destruct (resolveStoragePath env (f_path r)) as [absolute|e] eqn:Hres.
    + right. exists r, absolute. split; [done|].
      rewrite (streamHandler_found env name w r absolute Hfind Hres) in Hrun.
      cbv zeta in Hrun.
      assert (Hw : w' = log (EvOpenRead absolute)
                          (log (EvSql (SelectFile name) (w_db w)) w)).
      { destruct (selectDecipher (encryptionKey env) r) as [d|e]; [|congruence].
        destruct (w_fs w !! absolute) as [ct|]; [|congruence].
        destruct (decipher_run d ct); congruence. }
      rewrite Hw, !reads_log. cbn. by rewrite app_nil_r.
    + left. revert Hrun. unfold streamHandler, try_catch, bind, selectFile.
      rewrite Hfind. unfold lift. rewrite Hres.
      intros [= _ <-]. rewrite reads_log. apply app_nil_r.
  - left. revert Hrun. unfold streamHandler, try_catch, bind, selectFile.
    rewrite Hfind. intros [= _ <-]. rewrite reads_log. apply app_nil_r.
Qed.

(** C1, as the code has it: an unknown stored name (a crafted one with
    traversal sequences included, since the name is only a catalog key) is
    answered with 404 [File not found]; a record whose stored path fails
    the containment check is answered through the error middleware with the
    generic 500 [Internal server error], without any path detail; in both
    cases nothing is opened, and whatever the route opens lies in the
    storage root. *)
Theorem stream_failures_fail_closed env name w :
  let found := List.find (fun r => String.eqb (f_filename r) name) (files (w_db w)) in
  let w_looked := log (EvSql (SelectFile name) (w_db w)) w in
  (found = None →
     streamHandler env name w = (Ok (Respond not_found_response), w_looked)
     ∧ reads w_looked = reads w)
  ∧ (∀ r e, found = Some r → resolveStoragePath env (f_path r) = Throw e →
       streamHandler env name w = (Ok (Next (Error "Invalid file path")), w_looked)
       ∧ answer (streamHandler env name w)
         = json 500 (JsonError "Internal server error")
       ∧ reads w_looked = reads w)
  ∧ (∀ o w' p, streamHandler env name w = (o, w') →
       p ∈ reads w' → p ∈ reads w ∨ inside_root env p).
Proof.
  intros found w_looked.
  assert (Hlooked : reads w_looked = reads w).
  { subst w_looked. rewrite reads_log. apply app_nil_r. }
  split; [|split].
  - intros Hnone. split; [|done].
    unfold streamHandler, try_catch, bind, selectFile. fold found. by rewrite Hnone.
  - intros r e Hsome Hres.
    pose proof (resolveStoragePath_error _ _ _ Hres) as ->.
    assert (Hrun : streamHandler env name w
                   = (Ok (Next (Error "Invalid file path")), w_looked)).
    { unfold streamHandler, try_catch, bind, selectFile. fold found.
      rewrite Hsome. unfold lift. by rewrite Hres. }
    split; [done|]. split; [|done]. unfold answer. by rewrite Hrun.
  - intros o w' p Hrun Hp.
    apply streamHandler_reads in Hrun as [Hsame|(r & absolute & Hres & Hreads)].
    + left. by rewrite <- Hsame.
    + rewrite Hreads in Hp. apply elem_of_app in Hp as [Hp|Hp]; [by left|].
      right. apply list_elem_of_singleton in Hp as ->.
      by eapply resolveStoragePath_contained.
Qed.

End DownloadFacts.

Module Traversal.
Import Reference.

(** A catalog row whose stored path climbs out of the storage root. *)
Definition escaping_row : FileRecord :=
  {| f_album_id := 1; f_filename := "leak"; f_original_name := "passwd";
     f_path := "../../etc/passwd"; f_type := "text/plain"; f_size := 0;
     f_iv := EmptyString; f_tag := None |}.

Definition catalog : Db :=
  {| albums := [{| album_id := 1; album_permalink := "a" |}];
     files := [escaping_row] |}.

Definition world : World := set_db catalog (world0 ∅).

End Traversal.

Lemma stream_failures_fail_closed_witness :
  answer (streamHandler (H := Reference.platform) Reference.env0 "leak" Traversal.world)
  = json 500 (JsonError "Internal server error").
Proof.
  apply (proj1 (proj2 (stream_failures_fail_closed (H := Reference.platform)
                         Reference.env0 "leak" Traversal.world))
           Traversal.escaping_row (Error "Invalid file path"));
    vm_compute; reflexivity.
Defined.

(** The claim as the specification words it fails on a record whose stored
    path escapes the root: the containment failure is answered with status
    500 and a JSON body, an unknown name with status 404 and a text body. *)
Lemma containment_failure_is_not_404 :
  resolveStoragePath Reference.env0 (f_path Traversal.escaping_row)
  = Throw (Error "Invalid file path")
  ∧ status (answer (streamHandler (H := Reference.platform) Reference.env0
                      "leak" Traversal.world)) = 500
  ∧ status (answer (streamHandler (H := Reference.platform) Reference.env0
                      "../../etc/passwd" Traversal.world)) = 404
  ∧ answer (streamHandler (H := Reference.platform) Reference.env0 "leak" Traversal.world)
    ≠ answer (streamHandler (H := Reference.platform) Reference.env0
                "../../etc/passwd" Traversal.world).
Proof. vm_compute. repeat split; try reflexivity. discriminate. Qed.

(** ** Input validation *)

(** C7: an upload without files is answered with 400 [No files uploaded]
    and a malformed album token with 400 [Invalid album identifier], both
    leaving the world as it was: no statement is issued, no row is created,
    nothing is written; a well-formed token that no album carries is
    answered with 404 [Album not found] after the one lookup, the catalog
    unchanged. *)
Theorem validation_failures_have_no_effects `{Platform} env (w : World) :
  uploadHandler env None w
  = (Ok (Respond (json 400 (JsonError "No files uploaded"))), w)
  ∧ uploadHandler env (Some []) w
    = (Ok (Respond (json 400 (JsonError "No files uploaded"))), w)
  ∧ (∀ token, validateUuid token = false →
       albumHandler token w
       = (Ok (Respond (json 400 (JsonError "Invalid album identifier"))), w))
  ∧ (∀ token, validateUuid token = true →
       List.find (has_permalink token) (albums (w_db w)) = None →
       albumHandler token w
       = (Ok (Respond (json 404 (JsonError "Album not found"))),
          log (EvSql (SelectAlbum token) (w_db w)) w)
       ∧ w_db (log (EvSql (SelectAlbum token) (w_db w)) w) = w_db w
       ∧ w_fs (log (EvSql (SelectAlbum token) (w_db w)) w) = w_fs w).
Proof.
  split; [reflexivity|]. split; [reflexivity|]. split.
  - intros token Hbad. unfold albumHandler, try_catch. by rewrite Hbad.
  - intros token Hgood Hnone. split; [|done].
    unfold albumHandler, try_catch, bind, selectAlbum.
    rewrite Hgood. cbn [negb]. by rewrite Hnone.
Qed.

(** ** Temporary files *)

Section CleanupFacts.
Context `{Platform}.

Lemma normalize_nonempty p : Path.is_empty (Path.normalize p) = false.
Proof.
  unfold Path.normalize.
  destruct (Path.is_empty p); [done|].
  destruct (Path.is_empty (Path.normalizeString p _)) eqn:Hn.
  - destruct (Path.isAbsolute p); [done|]. by destruct (Path.endsWithSlash p).
  - destruct (Path.isAbsolute p); [done|].
    destruct (Path.endsWithSlash p); [|done].
    by destruct (Path.normalizeString p _).
Qed.

Lemma join_nonempty args : Path.is_empty (Path.join args) = false.
Proof.
  unfold Path.join. destruct (List.filter _ args); [done|apply normalize_nonempty].
Qed.

(** The path a successful conversion returns is not the empty string. *)
Lemma convert_output_nonempty env input w out w' :
  convertToMp4 env input w = (Ok out, w') → Path.is_empty out = false.
Proof.
  intros (bytes & output & _ & _ & _ & ->)%convert_inv. apply join_nonempty.
Qed.

Lemma try_finally_inv {A} (m : M A) fin w r w' :
  try_finally m fin w = (r, w') →
  ∃ r1 w1 rf, m w = (r1, w1) ∧ fin w1 = (rf, w').
Proof.
  unfold try_finally. destruct (m w) as [r1 w1].
  destruct (fin w1) as [[[]|e] w2] eqn:Hfin; intros [= _ <-]; eauto.
Qed.

(** However [persistUploadedFile] ends, the output of a conversion that
    succeeded is gone when it returns, unless the file system refused. *)
Lemma persist_removes_converted env file albumId w out w1 r w' :
  shouldConvertToMp4 file = true →
  convertToMp4 env (up_path file) w = (Ok out, w1) →
  persistUploadedFile env file albumId w = (r, w') →
  unlink_denied out = false →
  w_fs w' !! out = None.
Proof.
  intros Hconv Hout Hrun Hden.
  pose proof (convert_output_nonempty _ _ _ _ _ Hout) as Hne.
  unfold persistUploadedFile in Hrun. rewrite Hconv in Hrun.
  unfold bind at 1, attempt in Hrun. rewrite Hout in Hrun.
  apply try_finally_inv in Hrun as (r1 & w2 & rf & _ & Hfin).
  destruct (safeUnlink_spec out w2) as (w3 & E & _ & _ & _ & _ & _ & Hgone & _).
  rewrite E in Hfin. injection Hfin as _ <-. by apply Hgone.
Qed.

(** The [finally] block of the upload handler. *)
Lemma unlink_all_spec (files : list UploadedFile) : ∀ w,
  ∃ w', forM_ (fun file => safeUnlink (up_path file)) files w = (Ok tt, w')
        ∧ w_db w' = w_db w
        ∧ (∀ q, w_fs w !! q = None → w_fs w' !! q = None)
        ∧ (∀ file, file ∈ files →
             Path.is_empty (up_path file) = false →
             unlink_denied (up_path file) = false →
             w_fs w' !! up_path file = None).
Proof.
  induction files as [|f files IH]; intros w; cbn [forM_].
  - exists w. repeat split; [done|]. intros file Hin. by apply elem_of_nil in Hin.
  - destruct (safeUnlink_spec (up_path f) w)
      as (w1 & E1 & Hdb1 & _ & _ & _ & Habs1 & Hgone1 & _).
    destruct (IH w1) as (w2 & E2 & Hdb2 & Habs2 & Hgone2).
    exists w2. unfold bind. rewrite E1, E2.
    split; [done|]. split; [congruence|]. split; [by auto|].
    intros file [->|Hin]%elem_of_cons Hne Hden; [|by auto].
    apply Habs2. by apply Hgone1.
Qed.

(** The handler never throws. *)
Lemma try_catch_next_total (m : M Outcome) w :
  ∃ o w', try_catch m (fun error => ret (Next error)) w = (Ok o, w').
Proof. unfold try_catch, ret. destruct (m w) as [[o|e] w1]; eauto. Qed.

(** The upload handler always ends with an answer or a call of [next],
    and then none of the uploaded temporary files is left. *)
Lemma upload_exit_spec env req_files w :
  ∃ o w', uploadHandler env req_files w = (Ok o, w')
          ∧ ∀ file, file ∈ default [] req_files →
              Path.is_empty (up_path file) = false →
              unlink_denied (up_path file) = false →
              w_fs w' !! up_path file = None.
Proof.
  unfold uploadHandler.
  set (files := default [] req_files).
  destruct (Nat.eqb_spec (length files) 0) as [Hlen|Hlen].
  - exists (Respond (json 400 (JsonError "No files uploaded"))), w.
    split; [done|]. intros file Hin.
    destruct files; [by apply elem_of_nil in Hin|discriminate].
  - unfold bind at 1. destruct (uuidv4 w) as [[permalink|e] w1] eqn:Hid;
      [|by unfold uuidv4, Uuid.uuidv4, randomBytes in Hid].
    unfold try_finally.
    match goal with
    | |- context [try_catch ?m ?h w1] =>
        destruct (try_catch_next_total m w1) as (o & w2 & ->)
    end.
    destruct (unlink_all_spec files w2) as (w3 & -> & _ & _ & Hgone).
    by exists o, w3.
Qed.

(** The other exit of a conversion: FFmpeg has created its output file
    and then fails.  [convertToMp4] throws, [workingPath] is still the
    uploaded file, so the [finally] block removes that one; the output
    stays. *)
Lemma persist_leaves_failed_output env file albumId w input partial :
  ffmpegStatic env = true →
  shouldConvertToMp4 file = true →
  w_fs w !! up_path file = Some input →
  ffmpeg_run input = None →
  ffmpeg_leftover input = Some partial →
  let outputPath := Path.join [tmpdir env; fst (Uuid.uuidv4 (w_rng w)) ^^ ".mp4"] in
  outputPath ≠ up_path file →
  ∃ w', persistUploadedFile env file albumId w
        = (Throw (Error "ffmpeg exited with code 1"), w')
        ∧ w_fs w' !! outputPath = Some partial.
Proof.
  intros Hff Hconv Hin Hrun Hleft outputPath Hne.
  assert (Hid : uuidv4 w = (Ok (fst (Uuid.uuidv4 (w_rng w))),
                            set_rng (snd (Uuid.uuidv4 (w_rng w))) w)).
  { unfold uuidv4. by destruct (Uuid.uuidv4 (w_rng w)). }
  set (w1 := set_rng (snd (Uuid.uuidv4 (w_rng w))) w) in *.
  set (w2 := log (EvWrite outputPath) (set_fs (<[outputPath := partial]> (w_fs w1)) w1)).
  assert (Hconvert : convertToMp4 env (up_path file) w
                     = (Throw (Error "ffmpeg exited with code 1"), w2)).
  { unfold convertToMp4. rewrite Hff. cbn [negb].
    unfold bind at 1. rewrite Hid. fold outputPath.
    unfold bind at 1. unfold try_catch, readAll.
    change (w_fs w1) with (w_fs w). rewrite Hin, Hrun, Hleft.
    reflexivity. }
  unfold persistUploadedFile. rewrite Hconv.
  unfold bind, attempt. rewrite Hconvert.
  unfold try_finally, throw.
  destruct (safeUnlink_spec (up_path file) w2) as (w' & E & _).
  rewrite E. exists w'. split; [reflexivity|].
  rewrite (safeUnlink_others _ _ _ _ outputPath E Hne).
  apply lookup_insert_eq.
Qed.

(** What the cleanup does achieve.  The removal routine never throws: it
    returns normally whatever the file system answers, and for a file that
    is already gone it does nothing beyond the attempt (no warning, the file
    system as it was); the upload handler always ends with an answer or a
    call of [next], and when it has ended none of the uploaded temporary
    files exists any more; when [persistUploadedFile] returns, normally or
    with an exception, the output of a conversion that succeeded does not
    exist any more.  Of these files one stays only when the file system
    refuses the removal, which is logged and swallowed. *)
Theorem temporaries_removed_on_every_exit env :
  (∀ p w, ∃ w', safeUnlink p w = (Ok tt, w'))
  ∧ (∀ p w, w_fs w !! p = None →
       ∃ w', safeUnlink p w = (Ok tt, w') ∧ w_fs w' = w_fs w
             ∧ w_trace w' = w_trace w ++ (if Path.is_empty p then [] else [EvUnlink p]))
  ∧ (∀ req_files w,
       ∃ o w', uploadHandler env req_files w = (Ok o, w')
               ∧ ∀ file, file ∈ default [] req_files →
                   Path.is_empty (up_path file) = false →
                   unlink_denied (up_path file) = false →
                   w_fs w' !! up_path file = None)
  ∧ (∀ file albumId w out w1 r w',
       shouldConvertToMp4 file = true →
       convertToMp4 env (up_path file) w = (Ok out, w1) →
       persistUploadedFile env file albumId w = (r, w') →
       unlink_denied out = false →
       w_fs w' !! out = None).
Proof.
  split; [|split; [|split]].
  - intros p w. destruct (safeUnlink_spec p w) as (w' & E & _). eauto.
  - intros p w Hgone.
    destruct (safeUnlink_spec p w) as (w' & E & _ & _ & _ & _ & _ & _ & Hsame).
    destruct (Hsame Hgone) as [Hfs Htr]. eauto.
  - apply upload_exit_spec.
  - apply persist_removes_converted.
Qed.

End CleanupFacts.

(** A QuickTime upload on which FFmpeg breaks off after it has opened its
    output. *)
Module Leftover.
Import Reference.

Definition broken_clip : UploadedFile :=
  {| up_path := "/tmp/1700000000002-c.mov"; up_originalname := "holiday.mov";
     up_mimetype := "video/quicktime" |}.

Definition tmp_files : gmap string (list byte) :=
  <[up_path broken_clip := [xff; x00; x01]]> ∅.

Definition finished : Result Outcome * World :=
  uploadHandler env0 (Some [broken_clip]) (world0 tmp_files).

Definition output : string := "/tmp/5b80a5ca-ef14-495e-83a8-cdf2173c6186.mp4".

Definition unlink_of (e : Effect) : option string :=
  match e with
  | EvUnlink p => Some p
  | _ => None
  end.

End Leftover.

(** C8: the claim fails on the exit through a failed conversion.  The
    upload of one QuickTime file whose conversion breaks off ends with the
    error handed to [next]; the uploaded temporary file is gone, but the
    output FFmpeg had started in the temporary directory is still there when
    the handler has returned: the only removals attempted were aimed at the
    uploaded file (once by [persistUploadedFile], once by the handler), none
    at the output. *)
Theorem failed_conversion_output_is_left :
  shouldConvertToMp4 Leftover.broken_clip = true
  ∧ fst Leftover.finished = Ok (Next (Error "ffmpeg exited with code 1"))
  ∧ w_fs (snd Leftover.finished) !! up_path Leftover.broken_clip = None
  ∧ w_fs (snd Leftover.finished) !! Leftover.output = Some [x01]
  ∧ Leftover.output = Path.join [tmpdir Reference.env0;
                                 "5b80a5ca-ef14-495e-83a8-cdf2173c6186" ^^ ".mp4"]
  ∧ omap Leftover.unlink_of (w_trace (snd Leftover.finished))
    = [up_path Leftover.broken_clip; up_path Leftover.broken_clip].
Proof. vm_compute. repeat split; reflexivity. Qed.

(** ** Album visibility *)

(** The catalog after [INSERT INTO albums] of a new permalink. *)
Definition new_album (token : string) (d : Db) : Db :=
  {| albums := albums d ++ [{| album_id := S (max_album_id (albums d));
                               album_permalink := token |}];
     files := files d |}.

Definition with_files (d : Db) (rows : list FileRecord) : Db :=
  {| albums := albums d; files := files d ++ rows |}.

(** Every file row refers to an album row (the foreign key of [files]). *)
Definition catalog_ok (d : Db) : Prop :=
  ∀ r, r ∈ files d → ∃ a, a ∈ albums d ∧ album_id a = f_album_id r.

(** What [GET /album/:permalink] answers when the catalog is [d]. *)
Definition album_view (d : Db) (token : string) : Response :=
  if negb (validateUuid token) then json 400 (JsonError "Invalid album identifier")
  else match List.find (has_permalink token) (albums d) with
       | None => json 404 (JsonError "Album not found")
       | Some a => json 200 (JsonFiles (files_of_album (album_id a) d))
       end.

Section AlbumFacts.
Context `{Platform}.

Lemma albumHandler_answer token w :
  answer (albumHandler token w) = album_view (w_db w) token.
Proof.
  unfold answer, albumHandler, album_view, try_catch, bind, selectAlbum.
  destruct (validateUuid token); cbn [negb]; [|done].
  by destruct (List.find _ _).
Qed.

Lemma album_id_le_max l a : a ∈ l → album_id a ≤ max_album_id l.
Proof.
  induction l as [|b l IH]; [by intros ?%elem_of_nil|].
  cbn [max_album_id foldr]. intros [->|Hin]%elem_of_cons; [lia|].
  specialize (IH Hin). unfold max_album_id in IH. lia.
Qed.

Lemma find_new_album token l a :
  existsb (has_permalink token) l = false →
  has_permalink token a = true →
  List.find (has_permalink token) (l ++ [a]) = Some a.
Proof.
  intros Hold Ha. induction l as [|b l IH]; cbn [app List.find].
  - by rewrite Ha.
  - cbn [existsb] in Hold. apply orb_false_elim in Hold as [-> Hold]. by apply IH.
Qed.

Lemma find_none_of_existsb token l :
  existsb (has_permalink token) l = false → List.find (has_permalink token) l = None.
Proof.
  induction l as [|b l IH]; [done|]. cbn [existsb List.find].
  intros [-> Hold]%orb_false_elim. by apply IH.
Qed.

(** The rows of a brand-new album are exactly the ones appended for it. *)
Lemma files_of_new_album token d rows :
  catalog_ok d →
  Forall (fun r => f_album_id r = S (max_album_id (albums d))) rows →
  files_of_album (S (max_album_id (albums d))) (with_files (new_album token d) rows)
  = map file_info rows.
Proof.
  intros Hok Hrows. unfold files_of_album, with_files, new_album. cbn [files].
  rewrite List.filter_app, List.map_app.
  assert (Hold : List.filter (fun r => f_album_id r =? S (max_album_id (albums d))) (files d) = []).
  { assert (Hall : ∀ r, r ∈ files d → f_album_id r ≤ max_album_id (albums d)).
    { intros r (a & Ha & <-)%Hok. by apply album_id_le_max. }
    induction (files d) as [|r l IH]; [done|]. cbn [List.filter].
    destruct (Nat.eqb_spec (f_album_id r) (S (max_album_id (albums d)))) as [E|_].
    - specialize (Hall r ltac:(left)). lia.
    - apply IH. intros r' Hr'. apply Hall. by right. }
  rewrite Hold. cbn [app map].
  induction Hrows as [|r rows Hr Hrows IH]; [done|].
  cbn [List.filter]. rewrite Hr, Nat.eqb_refl. cbn [map]. by rewrite IH.
Qed.

Lemma album_view_new token d rows :
  catalog_ok d → validateUuid token = true →
  existsb (has_permalink token) (albums d) = false →
  Forall (fun r => f_album_id r = S (max_album_id (albums d))) rows →
  album_view (with_files (new_album token d) rows) token
  = json 200 (JsonFiles (map file_info rows)).
Proof.
  intros Hok Hvalid Hfresh Hrows. unfold album_view. rewrite Hvalid. cbn [negb].
  cbn [with_files new_album albums].
  rewrite (find_new_album token (albums d) _ Hfresh)
    by (unfold has_permalink; cbn; apply String.eqb_refl).
  cbn [album_id]. by rewrite <- (files_of_new_album token d rows).
Qed.

Lemma insertAlbum_fresh token w :
  existsb (has_permalink token) (albums (w_db w)) = false →
  insertAlbum token w
  = (Ok (S (max_album_id (albums (w_db w)))),
     log (EvSql (InsertAlbum token) (new_album token (w_db w)))
       (set_db (new_album token (w_db w)) w)).
Proof. intros Hfresh. unfold insertAlbum. by rewrite Hfresh. Qed.

(** Inserting the rows one by one: the catalog passes through every
    prefix. *)
Lemma insert_rows_spec rows : ∀ w,
  ∃ w', forM_ insertFile rows w = (Ok tt, w')
        ∧ w_db w' = with_files (w_db w) rows
        ∧ snapshots w'
          = snapshots w ++ map (fun k => with_files (w_db w) (take k rows))
                             (seq 1 (length rows)).
Proof.
  induction rows as [|r rows IH]; intros w; cbn [forM_].
  - exists w. unfold ret, with_files. rewrite !app_nil_r. by destruct (w_db w).
  - set (w1 := log (EvSql (InsertFile r) (with_files (w_db w) [r]))
                  (set_db (with_files (w_db w) [r]) w)).
    assert (Hins : insertFile r w = (Ok tt, w1)) by reflexivity.
    unfold bind. rewrite Hins.
    destruct (IH w1) as (w' & -> & Hdb & Hsnap). exists w'.
    split; [done|].
    assert (Hdb1 : w_db w1 = with_files (w_db w) [r]) by reflexivity.
    assert (Hshift : ∀ l, with_files (w_db w1) l = with_files (w_db w) (r :: l)).
    { intros l. rewrite Hdb1. unfold with_files. cbn. by rewrite <- app_assoc. }
    split; [by rewrite Hdb, Hshift|].
    rewrite Hsnap. unfold w1. rewrite snapshots_log.
    assert (Hs : snapshots (set_db (with_files (w_db w) [r]) w) = snapshots w) by reflexivity.
    change (snapshots (set_db _ w)) with (snapshots w).
    cbn [snapshot_of option_list length seq map take]. rewrite <- app_assoc. cbn [app].
    f_equal. f_equal. rewrite <- (List.seq_shift (length rows) 1), List.map_map.
    apply List.map_ext. intros k. cbn [take]. apply Hshift.
Qed.

Lemma mapM_ok_Forall2 {A B} (f : A → M B) (P : A → B → Prop) :
  (∀ a w b w', f a w = (Ok b, w') → P a b) →
  ∀ l w bs w', mapM f l w = (Ok bs, w') → Forall2 P l bs.
Proof.
  intros Hf. induction l as [|a l IH]; intros w bs w'; cbn [mapM].
  - intros [= <- _]. constructor.
  - intros (b & w1 & Hb & Hrest)%bind_ok_inv.
    apply bind_ok_inv in Hrest as (bs' & w2 & Hbs & Hret).
    injection Hret as <- _. constructor; [by eapply Hf|by eapply IH].
Qed.

(** What a record owes to the file it was made from. *)
Definition record_of (albumId : nat) (file : UploadedFile) (r : FileRecord) : Prop :=
  f_album_id r = albumId ∧ f_original_name r = up_originalname file
  ∧ ∃ t, f_tag r = Some t.

Lemma persist_record_of env file albumId w r w' :
  persistUploadedFile env file albumId w = (Ok r, w') → record_of albumId file r.
Proof.
  intros (wp & mime & ext & w0 & w1 & Hstore & _)%persist_inv.
  apply written_record_decipher in Hstore
    as (_ & _ & tag & _ & _ & _ & _ & Htag & _ & Hname & Hid & _).
  split; [done|]. split; [done|]. by eexists.
Qed.


Lemma uuidv4_run w :
  uuidv4 w = (Ok (fst (Uuid.uuidv4 (w_rng w))), set_rng (snd (Uuid.uuidv4 (w_rng w))) w).
Proof. unfold uuidv4. by destruct (Uuid.uuidv4 (w_rng w)). Qed.

Lemma uuidv4_valid g : validateUuid (fst (Uuid.uuidv4 g)) = true.
Proof.
  unfold Uuid.uuidv4. destruct (randomBytes 16 g) as [rnds g'] eqn:E. cbn [fst].
  apply v4_valid. by rewrite <- (randomBytes_length 16 g), E.
Qed.

(** The run of an upload with a fresh token: the rows it appends, the
    catalog states it passes through and how it ends. *)
Lemma upload_run_fresh env files w o w' :
  files ≠ [] →
  let token := fst (Uuid.uuidv4 (w_rng w)) in
  existsb (has_permalink token) (albums (w_db w)) = false →
  uploadHandler env (Some files) w = (Ok o, w') →
  let d1 := new_album token (w_db w) in
  let albumId := S (max_album_id (albums (w_db w))) in
  ∃ records,
    snapshots w'
    = snapshots w ++ d1 :: map (fun k => with_files d1 (take k records))
                             (seq 1 (length records))
    ∧ w_db w' = with_files d1 records
    ∧ Forall (fun r => f_album_id r = albumId) records
    ∧ ((o = Respond (json 200 (JsonPermalink token))
        ∧ Forall2 (record_of albumId) files records)
       ∨ (∃ e, o = Next e ∧ records = [])).
Proof.
  intros Hne token Hfresh Hrun d1 albumId.
  unfold uploadHandler in Hrun. cbn [from_option] in Hrun. unfold id in Hrun.
  destruct (Nat.eqb_spec (length files) 0) as [Hlen|_];
    [by destruct files|].
  unfold bind at 1 in Hrun. rewrite uuidv4_run in Hrun. fold token in Hrun.
  set (w1 := set_rng _ w) in Hrun.
  apply try_finally_ok_inv in Hrun as (w4 & Hbody & Hfin).
  assert (Hquiet : quiet w4 w').
  { eapply (preserves_forM_ quiet); [|exact Hfin]. intros file. apply safeUnlink_quiet. }
  destruct Hquiet as [Hdb' Hsnap'].
  unfold try_catch, bind at 1 in Hbody.
  rewrite (insertAlbum_fresh token w1 Hfresh) in Hbody.
  change (w_db w1) with (w_db w) in Hbody. fold d1 albumId in Hbody.
  set (w2 := log _ (set_db d1 w1)) in Hbody.
  assert (Hdb2 : w_db w2 = d1) by reflexivity.
  assert (Hsnap2 : snapshots w2 = snapshots w ++ [d1]).
  { unfold w2. by rewrite snapshots_log. }
  unfold bind at 1 in Hbody.
  destruct (mapM (fun file => persistUploadedFile env file albumId) files w2)
    as [[records|e] w3] eqn:Hmap.
  - assert (Hq : quiet w2 w3).
    { eapply (preserves_mapM quiet); [|exact Hmap]. intros file. apply persist_quiet. }
    destruct Hq as [Hdb3 Hsnap3].
    assert (Hrecs : Forall2 (record_of albumId) files records).
    { eapply (mapM_ok_Forall2 _ (record_of albumId)); [|exact Hmap].
      intros file wa r wb. apply persist_record_of. }
    assert (Hids : Forall (fun r => f_album_id r = albumId) records).
    { clear -Hrecs. induction Hrecs as [|file r fs rs [Hid _] _ IH]; by constructor. }
    destruct (insert_rows_spec records w3) as (w5 & Hins & Hdb5 & Hsnap5).
    unfold bind in Hbody. rewrite Hins in Hbody. injection Hbody as <- <-.
    rewrite Hdb3, Hdb2 in Hdb5, Hsnap5.
    exists records. split; [|split; [|split]].
    + rewrite Hsnap', Hsnap5, Hsnap3, Hsnap2, <- app_assoc. done.
    + by rewrite Hdb', Hdb5.
    + done.
    + by left.
  - assert (Hq : quiet w2 w3).
    { eapply (preserves_mapM quiet); [|exact Hmap]. intros file. apply persist_quiet. }
    destruct Hq as [Hdb3 Hsnap3].
    unfold ret in Hbody. injection Hbody as <- <-.
    exists []. split; [|split; [|split]].
    + rewrite Hsnap', Hsnap3, Hsnap2. done.
    + rewrite Hdb', Hdb3, Hdb2. unfold with_files. rewrite app_nil_r. by destruct d1.
    + constructor.
    + right. by exists e.
Qed.

Lemma insertAlbum_taken token w :
  existsb (has_permalink token) (albums (w_db w)) = true →
  ∃ e, insertAlbum token w = (Throw e, log (EvSql (InsertAlbum token) (w_db w)) w).
Proof. intros Htaken. unfold insertAlbum. rewrite Htaken. eauto. Qed.

Lemma catalog_ok_empty : catalog_ok {| albums := []; files := [] |}.
Proof. intros r Hr. by apply elem_of_nil in Hr. Qed.

Lemma catalog_ok_new_album token d rows :
  catalog_ok d →
  Forall (fun r => f_album_id r = S (max_album_id (albums d))) rows →
  catalog_ok (with_files (new_album token d) rows).
Proof.
  intros Hok Hrows r. unfold with_files, new_album. cbn [files albums].
  intros [Hold|Hnew]%elem_of_app.
  - destruct (Hok r Hold) as (a & Ha & Hid). exists a. split; [|done].
    apply elem_of_app. by left.
  - rewrite Forall_forall in Hrows. eexists. split.
    + apply elem_of_app. right. apply list_elem_of_singleton. reflexivity.
    + cbn [album_id]. symmetry. by apply Hrows.
Qed.

(** The foreign key is an invariant: it holds of the empty catalog and
    every run of the upload handler keeps it. *)
Lemma upload_preserves_catalog_ok env req_files w r w' :
  catalog_ok (w_db w) →
  uploadHandler env req_files w = (r, w') →
  catalog_ok (w_db w').
Proof.
  intros Hok Hrun.
  destruct (decide (default [] req_files = [])) as [Hnil|Hne].
  { unfold uploadHandler in Hrun. rewrite Hnil in Hrun. by injection Hrun as _ <-. }
  assert (Hsome : ∃ files, uploadHandler env req_files w = uploadHandler env (Some files) w
                           ∧ files ≠ []).
  { destruct req_files as [files|]; [by exists files|done]. }
  destruct Hsome as (files & Heq & Hfiles). rewrite Heq in Hrun. clear Heq Hne.
  set (token := fst (Uuid.uuidv4 (w_rng w))).
  destruct (existsb (has_permalink token) (albums (w_db w))) eqn:Hfresh.
  - unfold uploadHandler in Hrun. cbn [from_option] in Hrun. unfold id in Hrun.
    destruct (Nat.eqb_spec (length files) 0) as [Hlen|_]; [by destruct files|].
    unfold bind at 1 in Hrun. rewrite uuidv4_run in Hrun. fold token in Hrun.
    set (w1 := set_rng _ w) in Hrun.
    apply try_finally_inv in Hrun as (r1 & w4 & rf & Hbody & Hfin).
    assert (Hquiet : quiet w4 w').
    { eapply (preserves_forM_ quiet); [|exact Hfin]. intros file. apply safeUnlink_quiet. }
    destruct Hquiet as [Hdb' _]. rewrite Hdb'.
    unfold try_catch, bind at 1 in Hbody.
    destruct (insertAlbum_taken token w1 Hfresh) as (e & Hins).
    rewrite Hins in Hbody. unfold ret in Hbody. by injection Hbody as _ <-.
  - assert (Hok' : ∃ o, r = Ok o).
    { destruct (upload_exit_spec env (Some files) w) as (o & w'' & Ho & _).
      rewrite Ho in Hrun. injection Hrun as <- _. by exists o. }
    destruct Hok' as (o & ->).
    destruct (upload_run_fresh env files w o w' Hfiles Hfresh Hrun)
      as (records & _ & -> & Hids & _).
    by apply catalog_ok_new_album.
Qed.

(** C2, as the code has it: the album row is inserted first, the files are
    processed next and their rows are inserted last, one statement each and
    no transaction around them.  For an upload with a fresh token, starting
    from a catalog that respects the foreign key: before the upload the
    token is unknown (404); every catalog state from the insertion of the
    album row on shows the album with the rows inserted so far, none while
    the files are processed, then one more per statement; when the handler
    answers with the permalink the album lists one row for every uploaded
    file in upload order, and when it ends with an error the album stays,
    with no file. *)
Theorem album_visibility env files w o w' :
  catalog_ok (w_db w) →
  files ≠ [] →
  let token := fst (Uuid.uuidv4 (w_rng w)) in
  existsb (has_permalink token) (albums (w_db w)) = false →
  uploadHandler env (Some files) w = (Ok o, w') →
  let d1 := new_album token (w_db w) in
  ∃ records,
    album_view (w_db w) token = json 404 (JsonError "Album not found")
    ∧ snapshots w'
      = snapshots w ++ d1 :: map (fun k => with_files d1 (take k records))
                               (seq 1 (length records))
    ∧ w_db w' = with_files d1 records
    ∧ (∀ k, album_view (with_files d1 (take k records)) token
            = json 200 (JsonFiles (map file_info (take k records))))
    ∧ ((o = Respond (json 200 (JsonPermalink token))
        ∧ Forall2 (record_of (S (max_album_id (albums (w_db w))))) files records)
       ∨ (∃ e, o = Next e ∧ records = []))
    ∧ answer (albumHandler token w') = json 200 (JsonFiles (map file_info records)).
Proof.
  intros Hok Hne token Hfresh Hrun d1.
  pose proof (uuidv4_valid (w_rng w)) as Hvalid. fold token in Hvalid.
  destruct (upload_run_fresh env files w o w' Hne Hfresh Hrun)
    as (records & Hsnap & Hdb & Hids & Hend).
  fold token d1 in Hsnap, Hdb, Hend.
  assert (Hview : ∀ k, album_view (with_files d1 (take k records)) token
                       = json 200 (JsonFiles (map file_info (take k records)))).
  { intros k. apply album_view_new; try done. by apply Forall_take. }
  exists records.
  split; [|split; [|split; [|split; [|split]]]].
  - unfold album_view. rewrite Hvalid. cbn [negb].
    by rewrite find_none_of_existsb.
  - exact Hsnap.
  - exact Hdb.
  - exact Hview.
  - exact Hend.
  - rewrite albumHandler_answer, Hdb.
    rewrite <- (firstn_all records) at 1 2. apply Hview.
Qed.

End AlbumFacts.

Lemma album_visibility_witness :
  ∃ o w',
    uploadHandler (H := Reference.platform) Reference.env0
      (Some [Examples.photo; Examples.clip]) (Reference.world0 Examples.disk)
    = (Ok o, w')
    ∧ ∃ records,
        w_db w' = with_files
                    (new_album (fst (Uuid.uuidv4 Reference.rng0)) Reference.empty_db)
                    records
        ∧ answer (albumHandler (fst (Uuid.uuidv4 Reference.rng0)) w')
          = json 200 (JsonFiles (map file_info records)).
Proof.
  assert (Hrun : ∃ o w',
            uploadHandler (H := Reference.platform) Reference.env0
              (Some [Examples.photo; Examples.clip]) (Reference.world0 Examples.disk)
            = (Ok o, w'))
    by (eexists _, _; vm_compute; reflexivity).
  destruct Hrun as (o & w' & Hrun). exists o, w'. split; [exact Hrun|].
  assert (Hfresh : existsb (has_permalink (fst (Uuid.uuidv4 Reference.rng0)))
                     (albums Reference.empty_db) = false) by reflexivity.
  assert (Hok : catalog_ok (w_db (Reference.world0 Examples.disk)))
    by exact catalog_ok_empty.
  assert (Hne : [Examples.photo; Examples.clip] ≠ []) by (intros E; inversion E).
  destruct (album_visibility (H := Reference.platform) Reference.env0
              [Examples.photo; Examples.clip] (Reference.world0 Examples.disk) o w'
              Hok Hne Hfresh Hrun)
    as (records & _ & _ & Hdb & _ & _ & Hview).
  exists records. split; [exact Hdb|exact Hview].
Defined.

Module NoTranscoder.
Import Reference.

(** The reference environment without an FFmpeg binary. *)
Definition env : Env :=
  {| app_dir := app_dir env0; cwd := cwd env0; tmpdir := tmpdir env0;
     encryptionKey := key0; ffmpegStatic := false |}.

Definition token : string := fst (Uuid.uuidv4 rng0).

Definition failed : Result Outcome * World :=
  uploadHandler env (Some [Examples.clip]) (world0 Examples.disk).

Definition succeeded : Result Outcome * World :=
  uploadHandler env0 (Some [Examples.photo]) (world0 Examples.disk).

End NoTranscoder.

(** The claim as the specification words it fails twice.  An upload whose
    conversion fails ends with an error and yet leaves its album in the
    catalog, answered with 200 and an empty list; and the first catalog
    state a successful upload passes through already shows the album, with
    no file. *)
Lemma failed_upload_leaves_empty_album :
  fst NoTranscoder.failed
  = Ok (Next (Error "MOV conversion requires FFmpeg. Install ffmpeg-static to enable this feature."))
  ∧ answer (albumHandler NoTranscoder.token (snd NoTranscoder.failed))
    = json 200 (JsonFiles [])
  ∧ fst NoTranscoder.succeeded
    = Ok (Respond (json 200 (JsonPermalink NoTranscoder.token)))
  ∧ ∃ d, head (snapshots (snd NoTranscoder.succeeded)) = Some d
         ∧ album_view d NoTranscoder.token = json 200 (JsonFiles []).
Proof.
  split; [vm_compute; reflexivity|]. split; [vm_compute; reflexivity|].
  split; [vm_compute; reflexivity|].
  eexists. split; vm_compute; reflexivity.
Qed.

(** ** Worked examples

    The definitions run; these are the values Node prints for the same
    calls, and the end-to-end scenarios on the reference platform. *)

Module Scenarios.
Import Reference.

Example extname_html : Path.extname "index.html" = ".html".
Proof. vm_compute. reflexivity. Qed.

Example extname_two_dots : Path.extname "index.coffee.md" = ".md".
Proof. vm_compute. reflexivity. Qed.

Example extname_trailing_dot : Path.extname "index." = String JS.dot EmptyString.
Proof. vm_compute. reflexivity. Qed.

Example extname_hidden : Path.extname ".index" = EmptyString.
Proof. vm_compute. reflexivity. Qed.

Example extname_of_directory : Path.extname "photos.d/readme" = EmptyString.
Proof. vm_compute. reflexivity. Qed.

Example join_normalizes : Path.join ["/foo"; "bar"; "baz/asdf"; "quux"; ".."] = "/foo/bar/baz/asdf".
Proof. vm_compute. reflexivity. Qed.

Example resolve_climbs :
  Path.resolve "/srv" ["/app/backend"; "uploads/../../etc/passwd"] = "/app/etc/passwd".
Proof. vm_compute. reflexivity. Qed.

Example relative_climbs :
  Path.relative "/srv" "/data/orandea/test/aaa" "/data/orandea/impl/bbb" = "../../impl/bbb".
Proof. vm_compute. reflexivity. Qed.

Example traversal_rejected :
  resolveStoragePath env0 "uploads/../../../etc/passwd" = Throw (Error "Invalid file path").
Proof. vm_compute. reflexivity. Qed.

Example absolute_outside_rejected :
  resolveStoragePath env0 "/etc/passwd" = Throw (Error "Invalid file path").
Proof. vm_compute. reflexivity. Qed.

Example absolute_inside_accepted :
  resolveStoragePath env0 "/app/backend/uploads/a.bin" = Ok "/app/backend/uploads/a.bin".
Proof. vm_compute. reflexivity. Qed.

Example uuid_accepted : validateUuid "123e4567-e89b-42d3-A456-426614174000" = true.
Proof. vm_compute. reflexivity. Qed.

Example uuid_wrong_version : validateUuid "123e4567-e89b-62d3-a456-426614174000" = false.
Proof. vm_compute. reflexivity. Qed.

Example uuid_trailing_newline :
  validateUuid ("123e4567-e89b-42d3-a456-426614174000" ^^ String JS.newline EmptyString) = false.
Proof. vm_compute. reflexivity. Qed.

Example sanitize_quote :
  sanitizeFilename ("a" ^^ String JS.dquote "b.png") = "a_b.png".
Proof. vm_compute. reflexivity. Qed.

Example key_from_hex :
  loadEncryptionKey
    (Some "2a2a2a2a2a2a2a2a2a2a2a2a2a2a2a2a2a2a2a2a2a2a2a2a2a2a2a2a2a2a2a2a")
  = Ok key0.
Proof. vm_compute. reflexivity. Qed.

Example key_from_base64 :
  loadEncryptionKey (Some "KioqKioqKioqKioqKioqKioqKioqKioqKioqKioqKio=") = Ok key0.
Proof. vm_compute. reflexivity. Qed.

Example key_too_short :
  startup (Some "c2VjcmV0")
  = Crashed (Error "ENCRYPTION_KEY must be a 32-byte key in hex or base64 form").
Proof. vm_compute. reflexivity. Qed.

Example mov_by_extension : shouldConvertToMp4 Examples.clip = true.
Proof. vm_compute. reflexivity. Qed.

Example jpeg_not_converted : shouldConvertToMp4 Examples.photo = false.
Proof. vm_compute. reflexivity. Qed.

(** One JPEG of three bytes: the album lists it and the download returns
    the three bytes. *)
Definition after_upload : Result Outcome * World :=
  uploadHandler env0 (Some [Examples.photo]) (world0 Examples.disk).

Definition photo_permalink : string := "0b30557a-9fc4-490e-b358-7da2c7ec1136".
Definition photo_stored : string := "173c6186-abd0-451a-bf64-89aed3f81d42.jpg".

Example upload_photo_answer :
  fst after_upload = Ok (Respond (json 200 (JsonPermalink photo_permalink))).
Proof. vm_compute. reflexivity. Qed.

Example upload_photo_album :
  answer (albumHandler photo_permalink (snd after_upload))
  = json 200 (JsonFiles [{| i_filename := photo_stored; i_original_name := "cat.jpg";
                            i_type := "image/jpeg"; i_size := 3 |}]).
Proof. vm_compute. reflexivity. Qed.

Example upload_photo_download :
  body (answer (streamHandler env0 photo_stored (snd after_upload)))
  = Stream [x01; x02; x03].
Proof. vm_compute. reflexivity. Qed.

Example upload_photo_temporary_gone :
  w_fs (snd after_upload) !! up_path Examples.photo = None.
Proof. vm_compute. reflexivity. Qed.

(** A QuickTime clip: stored as MP4, its temporary files gone (the other
    file under [/tmp] belongs to no upload). *)
Definition after_clip : Result Outcome * World :=
  uploadHandler env0 (Some [Examples.clip]) (world0 Examples.disk).

Example upload_clip_row :
  map (fun row => (f_original_name row, f_type row, Path.extname (f_filename row),
                   Path.extname (f_path row)))
    (files (w_db (snd after_clip)))
  = [("clip.MOV", "video/mp4", ".mp4", ".mp4")].
Proof. vm_compute. reflexivity. Qed.

Example upload_clip_temporaries_gone :
  List.filter (fun p => JS.startsWith p "/tmp/")
    (map fst (map_to_list (w_fs (snd after_clip))))
  = [up_path Examples.photo].
Proof. vm_compute. reflexivity. Qed.

(** An upload without files. *)
Example upload_nothing :
  uploadHandler env0 (Some []) (world0 Examples.disk)
  = (Ok (Respond (json 400 (JsonError "No files uploaded"))), world0 Examples.disk).
Proof. reflexivity. Qed.

End Scenarios.

(** The upload of one JPEG, taken apart: the world in which the file is
    processed, the record made of it, and the world the handler leaves. *)
Module Roundtrip.
Import Reference.





End Roundtrip.


(* ===================================================================== *)
(** * Part III: the rest of the server

    The pieces of [server.js] around the three handlers (the origin list
    and the CORS callback, the paths fixed at start-up, the naming of
    multer's temporary files) and further properties of the handlers
    themselves: what they leave alone, what they touch, and how they end. *)
(* ===================================================================== *)

(** ** Album tokens *)

Section TokenFacts.
Context `{Platform}.

Lemma class_is_uuid_char k c :
  Uuid.class_matches k c = true → uuid_char c = true.
Proof.
  destruct k.
  - unfold Uuid.class_matches, uuid_char. by intros ->.
  - unfold Uuid.class_matches, uuid_char. intros ->. apply orb_true_r.
  - destruct c as [[] [] [] [] [] [] [] []]; (discriminate || reflexivity).
  - destruct c as [[] [] [] [] [] [] [] []]; (discriminate || reflexivity).
Qed.

Lemma matches_length pat : ∀ s,
  Uuid.matches pat s = true → String.length s = length pat.
Proof.
  induction pat as [|k pat IH]; intros [|c s]; cbn [Uuid.matches]; try done.
  intros [_ Hs]%andb_prop. cbn. by rewrite (IH _ Hs).
Qed.

Lemma matches_chars pat : ∀ s,
  Uuid.matches pat s = true → JS.str_forallb uuid_char s = true.
Proof.
  induction pat as [|k pat IH]; intros [|c s]; cbn [Uuid.matches]; try done.
  intros [Hc Hs]%andb_prop. cbn [JS.str_forallb].
  by rewrite (class_is_uuid_char _ _ Hc), (IH _ Hs).
Qed.

Lemma matches_get pat : ∀ s i k,
  Uuid.matches pat s = true → pat !! i = Some k →
  ∃ c, String.get i s = Some c ∧ Uuid.class_matches k c = true.
Proof.
  induction pat as [|k0 pat IH]; intros [|c s] i k; cbn [Uuid.matches]; try done.
  intros [Hc Hs]%andb_prop. destruct i as [|i]; cbn.
  - intros [= <-]. eauto.
  - intros Hi. by apply (IH s i k).
Qed.

(** X1: a token [validateUuid] accepts has 36 characters, all of them
    hexadecimal digits or dashes, with the dashes of the 8-4-4-4-12 layout;
    so it has no slash, dot, quote, blank or control character. *)
Theorem validateUuid_shape (value : string) :
  validateUuid value = true →
  String.length value = 36
  ∧ JS.str_forallb uuid_char value = true
  ∧ no_slash value = true
  ∧ (∀ i, i ∈ [8; 13; 18; 23] → String.get i value = Some "-"%char).
Proof.
  unfold validateUuid. intros Hm.
  split; [by rewrite (matches_length _ _ Hm)|].
  pose proof (matches_chars _ _ Hm) as Hchars.
  split; [done|]. split.
  { unfold no_slash. eapply str_forallb_impl; [|exact Hchars].
    apply uuid_char_no_slash. }
  intros i Hi.
  assert (Hk : Uuid.pattern !! i = Some Uuid.CDash).
  { repeat (apply elem_of_cons in Hi as [->|Hi]; [reflexivity|]).
    by apply elem_of_nil in Hi. }
  destruct (matches_get _ _ _ _ Hm Hk) as (c & Hget & Hc).
  rewrite Hget. f_equal. unfold Uuid.class_matches in Hc.
  by apply Ascii.eqb_eq in Hc.
Qed.

Lemma validateUuid_shape_witness :
  String.length "123e4567-e89b-42d3-a456-426614174000" = 36.
Proof.
  exact (proj1 (validateUuid_shape "123e4567-e89b-42d3-a456-426614174000" eq_refl)).
Defined.

(** The permalink of a successful upload is the identifier drawn first. *)
Lemma upload_permalink_inv env req_files w token w' :
  uploadHandler env req_files w
  = (Ok (Respond (json 200 (JsonPermalink token))), w') →
  token = fst (Uuid.uuidv4 (w_rng w)).
Proof.
  unfold uploadHandler.
  destruct (length (default [] req_files) =? 0); [discriminate|].
  unfold bind at 1. rewrite uuidv4_run.
  intros (w4 & Hbody & _)%try_finally_ok_inv.
  unfold try_catch in Hbody.
  match type of Hbody with
  | context [match ?m ?w0 with _ => _ end] => destruct (m w0) as [[o|e] w1] eqn:Hm
  end; [|discriminate].
  injection Hbody as -> ->.
  apply bind_ok_inv in Hm as (albumId & wa & _ & Hm).
  apply bind_ok_inv in Hm as (records & wb & _ & Hm).
  apply bind_ok_inv in Hm as ([] & wc & _ & Hm).
  by injection Hm as <- _.
Qed.

(** X2: every permalink the upload route hands out is a token the album
    route accepts: it is never answered with 400. *)
Theorem upload_permalink_is_valid env req_files w token w' :
  uploadHandler env req_files w
  = (Ok (Respond (json 200 (JsonPermalink token))), w') →
  validateUuid token = true
  ∧ ∀ w2, status (answer (albumHandler token w2)) ≠ 400.
Proof.
  intros ->%upload_permalink_inv.
  pose proof (uuidv4_valid (w_rng w)) as Hvalid. split; [done|].
  intros w2. rewrite albumHandler_answer. unfold album_view. rewrite Hvalid.
  cbn [negb]. by destruct (List.find _ _).
Qed.

End TokenFacts.

Lemma upload_permalink_is_valid_witness :
  validateUuid Scenarios.photo_permalink = true.
Proof.
  assert (Hrun : ∃ w',
            uploadHandler (H := Reference.platform) Reference.env0
              (Some [Examples.photo]) (Reference.world0 Examples.disk)
            = (Ok (Respond (json 200 (JsonPermalink Scenarios.photo_permalink))), w'))
    by (eexists; vm_compute; reflexivity).
  destruct Hrun as (w' & Hrun).
  exact (proj1 (upload_permalink_is_valid (H := Reference.platform) _ _ _ _ _ Hrun)).
Defined.

(** ** Allowed origins ([parseAllowedOrigins], server.js line 280, and the
    [origin] callback given to [cors], line 36) *)

Definition comma : ascii := ","%char.

(** [s.split(sep)] for a separator of one character. *)
Fixpoint split_on (sep : ascii) (s : string) : list string :=
  match s with
  | EmptyString => [EmptyString]
  | String c s' =>
      if Ascii.eqb c sep then EmptyString :: split_on sep s'
      else match split_on sep s' with
           | seg :: rest => String c seg :: rest
           | [] => [String c EmptyString]
           end
  end.

(** White space and line terminators among the 8-bit code units: tab, line
    feed, vertical tab, form feed, carriage return, space and the no-break
    space U+00A0. *)
Definition is_space (c : ascii) : bool :=
  bool_decide (N_of_ascii c ∈ [9; 10; 11; 12; 13; 32; 160]%N).

Fixpoint trimStart (s : string) : string :=
  match s with
  | EmptyString => EmptyString
  | String c s' => if is_space c then trimStart s' else s
  end.

Fixpoint trimEnd (s : string) : string :=
  match s with
  | EmptyString => EmptyString
  | String c s' =>
      match trimEnd s' with
      | EmptyString => if is_space c then EmptyString else String c EmptyString
      | t => String c t
      end
  end.

(** [String.prototype.trim] *)
Definition trim (s : string) : string := trimEnd (trimStart s).

Definition parseAllowedOrigins (origins : option string) : list string :=
  if negb (JS.truthy origins) then ["http://localhost:5173"]
  else
    List.filter (fun origin => negb (Path.is_empty origin))
      (map trim (split_on comma (default EmptyString origins))).

(** The [origin] callback: [Ok true] is [callback(null, true)], the
    exception is [callback(new Error(...))]. *)
Definition corsOrigin (allowedOrigins : list string) (origin : option string) : Result bool :=
  if negb (JS.truthy origin)
     || Nat.eqb (length allowedOrigins) 0
     || existsb (String.eqb (default EmptyString origin)) allowedOrigins
  then Ok true
  else Throw (Error "Not allowed by CORS").

(** An entry as [parseAllowedOrigins] leaves it: not empty, without white
    space at either end and without a comma. *)
Definition clean_origin (e : string) : Prop :=
  e ≠ EmptyString ∧ trim e = e
  ∧ JS.str_forallb (fun c => negb (Ascii.eqb c comma)) e = true.

Section OriginFacts.

Lemma trimStart_forallb p s :
  JS.str_forallb p s = true → JS.str_forallb p (trimStart s) = true.
Proof.
  induction s as [|c s IH]; [done|]. cbn [trimStart].
  destruct (is_space c); [|done].
  cbn [JS.str_forallb]. intros [_ Hs]%andb_prop. by apply IH.
Qed.

Lemma trimEnd_forallb p s :
  JS.str_forallb p s = true → JS.str_forallb p (trimEnd s) = true.
Proof.
  induction s as [|c s IH]; [done|]. cbn [trimEnd JS.str_forallb].
  intros [Hc Hs]%andb_prop. specialize (IH Hs).
  destruct (trimEnd s) as [|d t].
  - destruct (is_space c); [done|]. cbn. by rewrite Hc.
  - cbn [JS.str_forallb]. by rewrite Hc.
Qed.

Lemma trimEnd_idemp s : trimEnd (trimEnd s) = trimEnd s.
Proof.
  induction s as [|c s IH]; [done|]. cbn [trimEnd].
  destruct (trimEnd s) as [|d t] eqn:Ht.
  - destruct (is_space c) eqn:Hc; [done|]. cbn [trimEnd]. by rewrite Hc.
  - cbn [trimEnd]. cbn [trimEnd] in IH. rewrite IH. by destruct t.
Qed.

Lemma trimEnd_head c s :
  is_space c = false → ∃ t, trimEnd (String c s) = String c t.
Proof.
  intros Hc. cbn [trimEnd]. destruct (trimEnd s); rewrite ?Hc; eauto.
Qed.

Lemma trimStart_head s :
  trimStart s = EmptyString ∨ ∃ c t, trimStart s = String c t ∧ is_space c = false.
Proof.
  induction s as [|c s IH]; [by left|]. cbn [trimStart].
  destruct (is_space c) eqn:Hc; [done|]. right. eauto.
Qed.

Lemma trim_idemp s : trim (trim s) = trim s.
Proof.
  unfold trim. destruct (trimStart_head s) as [->|(c & t & -> & Hc)]; [done|].
  destruct (trimEnd_head c t Hc) as (t' & Ht). rewrite Ht.
  cbn [trimStart]. rewrite Hc, <- Ht. apply trimEnd_idemp.
Qed.

Lemma trim_forallb p s :
  JS.str_forallb p s = true → JS.str_forallb p (trim s) = true.
Proof. intros Hs. by apply trimEnd_forallb, trimStart_forallb. Qed.

Lemma trim_blank s : JS.str_forallb is_space s = true → trim s = EmptyString.
Proof.
  unfold trim. induction s as [|c s IH]; [done|].
  cbn [JS.str_forallb trimStart]. intros [-> Hs]%andb_prop. by apply IH.
Qed.

Lemma split_on_nonempty sep s : split_on sep s ≠ [].
Proof.
  destruct s as [|c s]; [done|]. cbn [split_on].
  destruct (Ascii.eqb c sep); [done|]. by destruct (split_on sep s).
Qed.

(** No piece of a split contains the separator. *)
Lemma split_on_pieces sep s :
  Forall (fun e => JS.str_forallb (fun c => negb (Ascii.eqb c sep)) e = true)
    (split_on sep s).
Proof.
  induction s as [|c s IH]; cbn [split_on]; [by repeat constructor|].
  destruct (Ascii.eqb c sep) eqn:Hc; [by constructor|].
  destruct (split_on sep s) as [|seg rest]; [by repeat constructor; cbn; rewrite Hc|].
  inversion IH as [|? ? Hseg Hrest]; subst. constructor; [|done].
  cbn [JS.str_forallb]. by rewrite Hc, Hseg.
Qed.

Lemma split_on_forallb (p : ascii → bool) sep s :
  JS.str_forallb (fun c => p c || Ascii.eqb c sep) s = true →
  Forall (fun e => JS.str_forallb p e = true) (split_on sep s).
Proof.
  induction s as [|c s IH]; cbn [split_on JS.str_forallb]; [by repeat constructor|].
  intros [Hc Hs]%andb_prop. specialize (IH Hs).
  destruct (Ascii.eqb c sep) eqn:Hsep; [by constructor|].
  rewrite orb_false_r in Hc.
  destruct (split_on sep s) as [|seg rest]; [by repeat constructor; cbn; rewrite Hc|].
  inversion IH as [|? ? Hseg Hrest]; subst. constructor; [|done].
  cbn [JS.str_forallb]. by rewrite Hc, Hseg.
Qed.

Lemma split_on_app sep e s :
  JS.str_forallb (fun c => negb (Ascii.eqb c sep)) e = true →
  split_on sep (e ^^ String sep s) = e :: split_on sep s.
Proof.
  induction e as [|c e IH]; cbn [JS.str_app split_on JS.str_forallb].
  - by rewrite Ascii.eqb_refl.
  - intros [Hc He]%andb_prop. apply negb_true_iff in Hc. rewrite Hc.
    by rewrite (IH He).
Qed.

Lemma split_on_single sep e :
  JS.str_forallb (fun c => negb (Ascii.eqb c sep)) e = true →
  split_on sep e = [e].
Proof.
  induction e as [|c e IH]; cbn [split_on JS.str_forallb]; [done|].
  intros [Hc He]%andb_prop. apply negb_true_iff in Hc. rewrite Hc.
  by rewrite (IH He).
Qed.

(** Splitting undoes joining, for pieces without the separator. *)
Lemma split_on_concat sep l :
  l ≠ [] →
  Forall (fun e => JS.str_forallb (fun c => negb (Ascii.eqb c sep)) e = true) l →
  split_on sep (JS.concat_sep (String sep EmptyString) l) = l.
Proof.
  intros Hne Hl. induction Hl as [|e l He Hl IH]; [done|].
  destruct l as [|e' l]; [by apply split_on_single|].
  change (JS.concat_sep (String sep EmptyString) (e :: e' :: l))
    with (e ^^ String sep (JS.concat_sep (String sep EmptyString) (e' :: l))).
  rewrite (split_on_app _ _ _ He). f_equal. by apply IH.
Qed.

Lemma filter_clean l :
  Forall clean_origin l →
  List.filter (fun origin => negb (Path.is_empty origin)) (map trim l) = l.
Proof.
  induction 1 as [|e l (Hne & Htrim & _) _ IH]; [done|].
  cbn [map List.filter]. rewrite Htrim, IH. by destruct e.
Qed.

Lemma truthy_concat sep e l :
  e ≠ EmptyString → JS.truthy (Some (JS.concat_sep sep (e :: l))) = true.
Proof. intros He. destruct e as [|c e]; [done|]. by destruct l. Qed.

(** X3: whatever [CLIENT_ORIGINS] holds, every entry of the list
    [parseAllowedOrigins] returns is a non-empty string without white space
    at either end and without a comma; the list is never empty when the
    variable is unset or empty. *)
Theorem parseAllowedOrigins_entries (origins : option string) :
  Forall clean_origin (parseAllowedOrigins origins)
  ∧ (JS.truthy origins = false →
     parseAllowedOrigins origins = ["http://localhost:5173"]).
Proof.
  unfold parseAllowedOrigins. destruct (JS.truthy origins) eqn:Htruthy; cbn [negb].
  2:{ split; [|done]. constructor; [|constructor].
      split; [done|]. split; reflexivity. }
  split; [|done].
  pose proof (split_on_pieces comma (default EmptyString origins)) as Hpieces.
  induction Hpieces as [|e l He _ IH]; [constructor|].
  cbn [map List.filter]. destruct (trim e) as [|c t] eqn:Ht; cbn [Path.is_empty negb].
  - exact IH.
  - constructor; [|exact IH]. rewrite <- Ht.
    split; [by rewrite Ht|]. split; [apply trim_idemp|]. by apply trim_forallb.
Qed.

(** X4: a [CLIENT_ORIGINS] value written as clean entries separated by
    commas is read back as exactly those entries, in order. *)
Theorem parseAllowedOrigins_roundtrip (l : list string) :
  l ≠ [] → Forall clean_origin l →
  parseAllowedOrigins (Some (JS.concat_sep (String comma EmptyString) l)) = l.
Proof.
  intros Hne Hl. unfold parseAllowedOrigins.
  assert (Htruthy : JS.truthy (Some (JS.concat_sep (String comma EmptyString) l)) = true).
  { destruct Hl as [|e l (He & _) _]; [done|]. by apply truthy_concat. }
  rewrite Htruthy. cbn [negb from_option]. unfold id.
  rewrite split_on_concat; [by apply filter_clean|done|].
  eapply Forall_impl; [exact Hl|]. by intros e (_ & _ & He).
Qed.

Lemma existsb_eqb_elem (o : string) l : existsb (String.eqb o) l = true ↔ o ∈ l.
Proof.
  induction l as [|e l IH]; cbn [existsb].
  - split; [done|by intros ?%elem_of_nil].
  - rewrite orb_true_iff, IH, elem_of_cons.
    by rewrite String.eqb_eq.
Qed.

(** X5: the CORS decision.  A request without an [Origin] header (or with
    an empty one) is always let through; with a non-empty list an origin is
    let through exactly when it is an entry of the list, compared as a
    whole string; with [CLIENT_ORIGINS] unset the only origin let through
    is [http://localhost:5173]; a refusal is an error that the error
    middleware turns into the generic 500. *)
Theorem corsOrigin_policy (allowedOrigins : list string) (origin : string) :
  corsOrigin allowedOrigins None = Ok true
  ∧ corsOrigin allowedOrigins (Some EmptyString) = Ok true
  ∧ (allowedOrigins ≠ [] → origin ≠ EmptyString →
     (corsOrigin allowedOrigins (Some origin) = Ok true ↔ origin ∈ allowedOrigins)
     ∧ (origin ∉ allowedOrigins →
        corsOrigin allowedOrigins (Some origin) = Throw (Error "Not allowed by CORS")))
  ∧ (origin ≠ EmptyString →
     (corsOrigin (parseAllowedOrigins None) (Some origin) = Ok true
      ↔ origin = "http://localhost:5173"))
  ∧ (∀ e, corsOrigin allowedOrigins (Some origin) = Throw e →
       errorMiddleware e = json 500 (JsonError "Internal server error")).
Proof.
  split; [done|]. split; [done|]. split; [|split].
  3:{ intros e. unfold corsOrigin. destruct (_ || _); [discriminate|].
      by intros [= <-]. }
  - intros Hne Ho. unfold corsOrigin.
    assert (Ht : JS.truthy (Some origin) = true) by (by destruct origin).
    rewrite Ht. cbn [negb orb from_option]. unfold id.
    assert (Hlen : Nat.eqb (length allowedOrigins) 0 = false) by (by destruct allowedOrigins).
    rewrite Hlen. cbn [orb].
    destruct (existsb (String.eqb origin) allowedOrigins) eqn:Hex.
    + apply existsb_eqb_elem in Hex. split; [done|]. by intros [].
    + assert (Hnot : origin ∉ allowedOrigins).
      { intros Hin%existsb_eqb_elem. congruence. }
      split; [|done]. split; [discriminate|done].
  - intros Ho. unfold corsOrigin.
    assert (Ht : JS.truthy (Some origin) = true) by (by destruct origin).
    rewrite Ht. change (parseAllowedOrigins None) with ["http://localhost:5173"].
    cbn [negb orb from_option existsb length Nat.eqb]. unfold id.
    rewrite orb_false_r.
    destruct (String.eqb_spec origin "http://localhost:5173") as [->|Hneq]; [done|].
    split; [discriminate|done].
Qed.

Lemma corsOrigin_policy_witness :
  corsOrigin ["https://a.example"; "https://b.example"] (Some "https://b.example")
  = Ok true.
Proof.
  apply (proj1 (proj1 (proj2 (proj2 (corsOrigin_policy
           ["https://a.example"; "https://b.example"] "https://b.example")))
           ltac:(discriminate) ltac:(discriminate))).
  set_solver.
Defined.

(** X6: a [CLIENT_ORIGINS] value that is not empty but holds only commas
    and white space leaves an empty list, and with an empty list the
    callback lets every origin through. *)
Theorem blank_origins_allow_all (raw : string) (origin : option string) :
  raw ≠ EmptyString →
  JS.str_forallb (fun c => is_space c || Ascii.eqb c comma) raw = true →
  parseAllowedOrigins (Some raw) = []
  ∧ corsOrigin (parseAllowedOrigins (Some raw)) origin = Ok true.
Proof.
  intros Hne Hblank.
  assert (Hnil : parseAllowedOrigins (Some raw) = []).
  { unfold parseAllowedOrigins.
    assert (Ht : JS.truthy (Some raw) = true) by (by destruct raw).
    rewrite Ht. cbn [negb from_option]. unfold id.
    pose proof (split_on_forallb is_space comma raw Hblank) as Hpieces.
    induction Hpieces as [|e l He _ IH]; [done|].
    cbn [map List.filter]. by rewrite (trim_blank e He). }
  split; [done|]. rewrite Hnil. unfold corsOrigin. cbn [length Nat.eqb].
  by rewrite orb_true_r.
Qed.

End OriginFacts.

Lemma parseAllowedOrigins_roundtrip_witness :
  parseAllowedOrigins (Some "https://a.example,https://b.example")
  = ["https://a.example"; "https://b.example"].
Proof.
  assert (Hclean : Forall clean_origin ["https://a.example"; "https://b.example"]).
  { repeat constructor; discriminate. }
  exact (parseAllowedOrigins_roundtrip ["https://a.example"; "https://b.example"]
           ltac:(discriminate) Hclean).
Defined.

Lemma blank_origins_allow_all_witness :
  corsOrigin (parseAllowedOrigins (Some " , ")) (Some "https://evil.example") = Ok true.
Proof.
  exact (proj2 (blank_origins_allow_all " , " (Some "https://evil.example")
                  ltac:(discriminate) eq_refl)).
Defined.

(** ** Paths fixed at start-up *)

(** [path.dirname]: the loop runs from the last character down to the
    second one and stops at the first slash that has a character other than
    a slash to its right.  [dirname_scan s] gives the index of that slash in
    [s] and whether [s] holds a character other than a slash. *)
Fixpoint dirname_scan (s : string) : option nat * bool :=
  match s with
  | EmptyString => (None, false)
  | String c s' =>
      match dirname_scan s' with
      | (Some e, _) => (Some (S e), true)
      | (None, seen) =>
          if Ascii.eqb c JS.slash
          then (if seen then (Some 0, true) else (None, false))
          else (None, true)
      end
  end.

Definition dirname (p : string) : string :=
  match p with
  | EmptyString => Path.onedot
  | String c rest =>
      let hasRoot := Ascii.eqb c JS.slash in
      match fst (dirname_scan rest) with
      | None => if hasRoot then Path.sep else Path.onedot
      | Some e =>
          if hasRoot && Nat.eqb (S e) 1 then Path.sep ^^ Path.sep
          else String.substring 0 (S e) p
      end
  end.

(** [resolveDatabasePath] (server.js, line 409): the path of the database
    file and the directory handed to [fs.mkdirSync]. *)
Record DatabaseLocation := {
  db_directory : string;
  db_file : string;
}.

Definition resolveDatabasePath (env : Env) (rawPath : option string) : DatabaseLocation :=
  if negb (JS.truthy rawPath) then
    let fallback := Path.join [__dirname env; "database.db"] in
    {| db_directory := dirname fallback; db_file := fallback |}
  else
    let raw := default EmptyString rawPath in
    let resolved :=
      if Path.isAbsolute raw then raw
      else Path.resolve (cwd env) [__dirname env; raw] in
    {| db_directory := dirname resolved; db_file := resolved |}.

(** The server started from another working directory. *)
Definition with_cwd (dir : string) (env : Env) : Env :=
  {| app_dir := app_dir env; cwd := dir; tmpdir := tmpdir env;
     encryptionKey := encryptionKey env; ffmpegStatic := ffmpegStatic env |}.

(** ** The temporary file of an upload (multer's [diskStorage], line 49) *)

(** [Date.now()] in a template string: the decimal digits of a count of
    milliseconds. *)
Definition decimal (n : N) : string := NilZero.string_of_uint (N.to_uint n).

(** The [filename] callback. *)
Definition diskFilename (now : N) (originalname : string) : M string :=
  do id <- uuidv4;
  ret (decimal now ^^ "-" ^^ id ^^ Path.extname originalname).

(** Where the disk storage puts the file: [filename] joined to
    [destination], which is [os.tmpdir()]. *)
Definition diskPath (env : Env) (now : N) (originalname : string) : M string :=
  do filename <- diskFilename now originalname;
  ret (Path.join [tmpdir env; filename]).

Section StartupPathFacts.

Lemma resolve_go_two a x c :
  Path.isAbsolute a = true →
  Path.resolve_go [x; a; c] EmptyString
  = if Path.is_empty x then (a ^^ Path.sep ^^ EmptyString, true)
    else if Path.isAbsolute x then (x ^^ Path.sep ^^ EmptyString, true)
         else (a ^^ Path.sep ^^ x ^^ Path.sep ^^ EmptyString, true).
Proof.
  intros Ha. cbn [Path.resolve_go].
  assert (Hne : Path.is_empty a = false) by (by destruct a).
  rewrite Hne, Ha. by destruct (Path.is_empty x), (Path.isAbsolute x).
Qed.

Lemma resolve_two_cwd a x c1 c2 :
  Path.isAbsolute a = true → Path.resolve c1 [a; x] = Path.resolve c2 [a; x].
Proof.
  intros Ha. unfold Path.resolve. cbn [rev app].
  by rewrite !(resolve_go_two a x _ Ha).
Qed.

Lemma resolve_two_absolute a x c :
  Path.isAbsolute a = true → Path.isAbsolute (Path.resolve c [a; x]) = true.
Proof.
  intros Ha. unfold Path.resolve. cbn [rev app]. rewrite (resolve_go_two a x _ Ha).
  by destruct (Path.is_empty x), (Path.isAbsolute x).
Qed.

Lemma resolve_one_cwd p c1 c2 :
  Path.isAbsolute p = true → Path.resolve c1 [p] = Path.resolve c2 [p].
Proof.
  intros Hp. unfold Path.resolve. cbn [rev app Path.resolve_go].
  assert (Hne : Path.is_empty p = false) by (by destruct p).
  by rewrite Hne, Hp.
Qed.

Lemma relative_cwd c1 c2 from to :
  Path.isAbsolute from = true → Path.isAbsolute to = true →
  Path.relative c1 from to = Path.relative c2 from to.
Proof.
  intros Hf Ht. unfold Path.relative.
  by rewrite (resolve_one_cwd from c1 c2 Hf), (resolve_one_cwd to c1 c2 Ht).
Qed.

Lemma normalize_absolute p :
  Path.isAbsolute p = true → Path.isAbsolute (Path.normalize p) = true.
Proof.
  intros Hp. unfold Path.normalize.
  assert (Hne : Path.is_empty p = false) by (by destruct p).
  rewrite Hne, Hp. cbv zeta.
  destruct (Path.is_empty (Path.normalizeString _ _)); [done|].
  by destruct (Path.endsWithSlash p).
Qed.

Lemma uploadsDir_absolute env : Path.isAbsolute (uploadsDir env) = true.
Proof.
  unfold uploadsDir, Path.join.
  assert (Hparts : List.filter (fun a => negb (Path.is_empty a)) [__dirname env; "uploads"]
                   = [__dirname env; "uploads"]) by reflexivity.
  rewrite Hparts. by apply normalize_absolute.
Qed.

(** X7: the storage layout does not depend on the directory the server is
    started from: [resolveStoragePath] gives the same answer, an absolute
    path or the same refusal, under every working directory. *)
Theorem resolveStoragePath_ignores_cwd (env : Env) (dir storedPath : string) :
  resolveStoragePath (with_cwd dir env) storedPath = resolveStoragePath env storedPath
  ∧ ∀ absolute, resolveStoragePath env storedPath = Ok absolute →
      Path.isAbsolute absolute = true.
Proof.
  unfold resolveStoragePath.
  change (uploadsDir (with_cwd dir env)) with (uploadsDir env).
  change (__dirname (with_cwd dir env)) with (__dirname env).
  change (cwd (with_cwd dir env)) with dir.
  pose proof (isAbsolute_abs_of (app_dir env)) as Hd. fold (__dirname env) in Hd.
  rewrite (resolve_two_cwd _ storedPath dir (cwd env) Hd).
  set (a := if Path.isAbsolute storedPath then storedPath
            else Path.resolve (cwd env) [__dirname env; storedPath]).
  assert (Ha : Path.isAbsolute a = true).
  { subst a. destruct (Path.isAbsolute storedPath) eqn:Hs; [done|].
    by apply resolve_two_absolute. }
  rewrite (relative_cwd dir (cwd env) _ _ (uploadsDir_absolute env) Ha).
  split; [done|]. intros absolute. destruct (_ || _); [discriminate|].
  by intros [= <-].
Qed.

Lemma dirname_scan_plain f :
  no_slash f = true → f ≠ EmptyString → dirname_scan f = (None, true).
Proof.
  induction f as [|c f IH]; [done|]. intros Hf _.
  unfold no_slash in Hf. cbn [JS.str_forallb] in Hf.
  apply andb_prop in Hf as [Hc Hf]. apply negb_true_iff in Hc.
  cbn [dirname_scan]. destruct f as [|d f].
  - cbn [dirname_scan]. by rewrite Hc.
  - rewrite IH by done. by rewrite Hc.
Qed.

Lemma dirname_scan_last x f :
  no_slash f = true → f ≠ EmptyString →
  dirname_scan (x ^^ String JS.slash f) = (Some (String.length x), true).
Proof.
  intros Hf Hne. induction x as [|c x IH]; cbn [JS.str_app dirname_scan String.length].
  - by rewrite (dirname_scan_plain f Hf Hne), Ascii.eqb_refl.
  - by rewrite IH.
Qed.

Lemma substring_prefix a b : String.substring 0 (String.length a) (a ^^ b) = a.
Proof.
  induction a as [|c a IH]; cbn [String.length JS.str_app String.substring].
  - by destruct b.
  - by rewrite IH.
Qed.

Lemma concat_sep_snoc l f :
  l ≠ [] →
  JS.concat_sep Path.sep (l ++ [f]) = JS.concat_sep Path.sep l ^^ String JS.slash f.
Proof.
  induction l as [|s l IH]; [done|]. intros _. destruct l as [|s' l]; [done|].
  cbn [app] in *. rewrite (concat_sep_cons s (s' :: l ++ [f])) by done.
  rewrite IH by done. rewrite (concat_sep_cons s (s' :: l)) by done.
  rewrite str_app_assoc. reflexivity.
Qed.

(** The directory of a file directly below a directory is that directory. *)
Lemma dirname_child d f :
  Forall (fun s => seg_ok s = true) d → seg_ok f = true →
  dirname (abs_of (d ++ [f])) = abs_of d.
Proof.
  intros Hd Hf. apply seg_ok_inv in Hf as (Hne & Hns & _).
  assert (Hf' : f ≠ EmptyString) by (by destruct f).
  destruct d as [|s d].
  - unfold abs_of, Path.sep. cbn [app JS.concat_sep JS.str_app dirname].
    rewrite (dirname_scan_plain f Hns Hf'). cbn [fst]. by rewrite Ascii.eqb_refl.
  - pose proof (concat_sep_nonempty (s :: d) Hd ltac:(done)) as Hx.
    unfold abs_of. rewrite (concat_sep_snoc (s :: d) f) by done.
    remember (JS.concat_sep Path.sep (s :: d)) as x eqn:Ex. unfold Path.sep at 1. cbn [JS.str_app dirname].
    rewrite (dirname_scan_last x f Hns Hf'). cbn [fst]. rewrite Ascii.eqb_refl.
    destruct x as [|c x]; [done|]. cbn [String.length Nat.eqb andb].
    change (String JS.slash (String c x ^^ String JS.slash f))
      with (String JS.slash (String c x) ^^ String JS.slash f).
    change (S (S (String.length x))) with (String.length (String JS.slash (String c x))).
    by rewrite substring_prefix.
Qed.

(** X8: the database file.  Without [DATABASE_PATH] it is [database.db]
    next to the server, and the directory created for it is the server's
    own; a relative [DATABASE_PATH] is taken from the server's directory,
    not from the working directory; an absolute one is used as it is.  In
    every case the result is an absolute path that does not depend on the
    working directory. *)
Theorem resolveDatabasePath_location (env : Env) :
  Forall (fun s => seg_ok s = true) (app_dir env) →
  resolveDatabasePath env None
  = {| db_directory := __dirname env;
       db_file := abs_of (app_dir env ++ ["database.db"]) |}
  ∧ resolveDatabasePath env (Some EmptyString) = resolveDatabasePath env None
  ∧ (∀ l, Forall (fun s => seg_ok s = true) l → l ≠ [] →
       db_file (resolveDatabasePath env (Some (JS.concat_sep Path.sep l)))
       = abs_of (app_dir env ++ l))
  ∧ (∀ raw, Path.isAbsolute raw = true →
       db_file (resolveDatabasePath env (Some raw)) = raw)
  ∧ (∀ rawPath dir,
       Path.isAbsolute (db_file (resolveDatabasePath env rawPath)) = true
       ∧ resolveDatabasePath (with_cwd dir env) rawPath = resolveDatabasePath env rawPath).
Proof.
  intros Hd.
  assert (Hdb : seg_ok "database.db" = true) by reflexivity.
  assert (Hfallback : Path.join [__dirname env; "database.db"]
                      = abs_of (app_dir env ++ ["database.db"])).
  { apply (join_abs (app_dir env) ["database.db"]); [done| |done].
    by repeat constructor. }
  assert (Hnone : resolveDatabasePath env None
                  = {| db_directory := __dirname env;
                       db_file := abs_of (app_dir env ++ ["database.db"]) |}).
  { unfold resolveDatabasePath. cbn [JS.truthy negb]. rewrite Hfallback.
    by rewrite dirname_child. }
  split; [done|]. split; [done|]. split; [|split].
  - intros l Hl Hne. unfold resolveDatabasePath.
    assert (Ht : JS.truthy (Some (JS.concat_sep Path.sep l)) = true).
    { pose proof (concat_sep_nonempty l Hl Hne) as Hx.
      by destruct (JS.concat_sep Path.sep l). }
    rewrite Ht. cbn [negb from_option db_file]. unfold id.
    rewrite (isAbsolute_concat l Hl). by apply resolve_abs_rel.
  - intros raw Habs. unfold resolveDatabasePath.
    assert (Ht : JS.truthy (Some raw) = true) by (by destruct raw).
    rewrite Ht. cbn [negb from_option db_file]. unfold id. by rewrite Habs.
  - intros rawPath dir. unfold resolveDatabasePath.
    change (__dirname (with_cwd dir env)) with (__dirname env).
    change (cwd (with_cwd dir env)) with dir.
    pose proof (isAbsolute_abs_of (app_dir env)) as Habs. fold (__dirname env) in Habs.
    destruct (JS.truthy rawPath); cbn [negb db_file].
    + rewrite (resolve_two_cwd _ (default EmptyString rawPath) dir (cwd env) Habs).
      split; [|done].
      destruct (Path.isAbsolute (default EmptyString rawPath)) eqn:Hraw; [done|].
      by apply resolve_two_absolute.
    + split; [|done]. by rewrite Hfallback.
Qed.

Lemma digit_chars d :
  JS.str_forallb (JS.char_between "0"%char "9"%char) (NilEmpty.string_of_uint d) = true.
Proof. induction d; cbn [NilEmpty.string_of_uint JS.str_forallb]; by rewrite ?IHd. Qed.

Lemma decimal_chars n :
  JS.str_forallb (JS.char_between "0"%char "9"%char) (decimal n) = true.
Proof.
  unfold decimal, NilZero.string_of_uint.
  destruct (N.to_uint n); try apply digit_chars. reflexivity.
Qed.

Lemma decimal_head n :
  ∃ c rest, decimal n = String c rest ∧ JS.char_between "0"%char "9"%char c = true.
Proof.
  pose proof (decimal_chars n) as Hchars. unfold decimal, NilZero.string_of_uint in *.
  destruct (N.to_uint n); cbn [NilEmpty.string_of_uint JS.str_forallb] in *;
    try (eexists _, _; split; [reflexivity|reflexivity]).
Qed.

Lemma digit_seg_char c :
  JS.char_between "0"%char "9"%char c = true →
  negb (Ascii.eqb c JS.slash) = true ∧ Ascii.eqb c JS.dot = false.
Proof.
  destruct c as [[] [] [] [] [] [] [] []]; (discriminate || by split).
Qed.

Lemma diskFilename_run now originalname w :
  diskFilename now originalname w
  = (Ok (decimal now ^^ "-" ^^ fst (Uuid.uuidv4 (w_rng w)) ^^ Path.extname originalname),
     set_rng (snd (Uuid.uuidv4 (w_rng w))) w).
Proof. unfold diskFilename, bind. by rewrite uuidv4_run. Qed.

(** The name the disk storage gives a file is one good path segment. *)
Lemma diskFilename_seg_ok now originalname w name w' :
  diskFilename now originalname w = (Ok name, w') →
  seg_ok name = true.
Proof.
  rewrite diskFilename_run. intros Hrun.
  assert (Hname : name = decimal now ^^ "-" ^^ fst (Uuid.uuidv4 (w_rng w))
                         ^^ Path.extname originalname) by congruence.
  clear Hrun. subst name.
  destruct (decimal_head now) as (c & rest & Hdec & Hc).
  destruct (digit_seg_char c Hc) as [Hsl Hdot].
  assert (Hns : no_slash (decimal now ^^ "-" ^^ fst (Uuid.uuidv4 (w_rng w))
                          ^^ Path.extname originalname) = true).
  { unfold no_slash. rewrite !str_forallb_app.
    rewrite (str_forallb_impl _ _ _ (fun c Hc => proj1 (digit_seg_char c Hc)) (decimal_chars now)).
    pose proof (extname_no_slash originalname) as Hext. unfold no_slash in Hext.
    rewrite Hext. unfold Uuid.uuidv4.
    destruct (randomBytes 16 (w_rng w)) as [rnds g]. cbn [fst].
    pose proof (v4_no_slash rnds) as Hv. unfold no_slash in Hv. by rewrite Hv. }
  unfold seg_ok. rewrite Hns, Hdec. cbn [JS.str_app Path.is_empty negb andb].
  unfold Path.onedot, Path.dotdot. cbn [String.eqb].
  by rewrite Hdot.
Qed.

(** X9: the temporary file of an upload is a direct child of the
    temporary directory, whatever the client sent as file name: the name is
    a time stamp, a dash, an identifier and the extension of the original
    name, which holds no slash; the path is never empty. *)
Theorem diskPath_in_tmpdir (env : Env) (t : list string) now originalname w p w' :
  tmpdir env = abs_of t → Forall (fun s => seg_ok s = true) t →
  diskPath env now originalname w = (Ok p, w') →
  ∃ name, p = abs_of (t ++ [name]) ∧ seg_ok name = true
          ∧ name = decimal now ^^ "-" ^^ fst (Uuid.uuidv4 (w_rng w))
                   ^^ Path.extname originalname
          ∧ dirname p = tmpdir env
          ∧ Path.is_empty p = false.
Proof.
  intros Ht Hsegs. unfold diskPath.
  intros (name & w1 & Hname & Hret)%bind_ok_inv. injection Hret as <- _.
  pose proof (diskFilename_seg_ok _ _ _ _ _ Hname) as Hok.
  exists name. rewrite Ht.
  assert (Hjoin : Path.join [abs_of t; name] = abs_of (t ++ [name])).
  { apply (join_abs t [name]); [done| |done]. by repeat constructor. }
  rewrite Hjoin. split; [done|]. split; [done|]. split.
  - rewrite diskFilename_run in Hname. congruence.
  - split; [by apply dirname_child|reflexivity].
Qed.

End StartupPathFacts.

Lemma resolveDatabasePath_location_witness :
  resolveDatabasePath Reference.env0 None
  = {| db_directory := "/app/backend"; db_file := "/app/backend/database.db" |}.
Proof.
  exact (proj1 (resolveDatabasePath_location Reference.env0 Examples.app_dir_ok)).
Defined.

Lemma diskPath_in_tmpdir_witness :
  ∃ name, seg_ok name = true
          ∧ fst (diskPath Reference.env0 1700000000000 "../../etc/cron.d/job.sh"
                   (Reference.world0 ∅))
            = Ok (abs_of ["tmp"; name]).
Proof.
  assert (Hrun : ∃ p w', diskPath Reference.env0 1700000000000 "../../etc/cron.d/job.sh"
                           (Reference.world0 ∅) = (Ok p, w'))
    by (eexists _, _; vm_compute; reflexivity).
  destruct Hrun as (p & w' & Hrun).
  assert (Htmp : tmpdir Reference.env0 = abs_of ["tmp"]) by reflexivity.
  assert (Hsegs : Forall (fun s => seg_ok s = true) ["tmp"]) by (by repeat constructor).
  destruct (diskPath_in_tmpdir Reference.env0 ["tmp"] _ _ _ _ _ Htmp Hsegs Hrun)
    as (name & Hp & Hok & _).
  exists name. split; [exact Hok|]. rewrite Hrun. cbn [fst]. by rewrite Hp.
Defined.

(** ** What the routes leave alone *)

(** An observation that changes nothing: a [SELECT], or the opening of a
    file for reading. *)
Definition passive (e : Effect) : bool :=
  match e with
  | EvSql (SelectAlbum _) _ | EvSql (SelectFiles _) _ | EvSql (SelectFile _) _ => true
  | EvOpenRead _ => true
  | _ => false
  end.

Definition read_only (w w' : World) : Prop :=
  w_db w' = w_db w ∧ w_fs w' = w_fs w ∧ w_rng w' = w_rng w
  ∧ ∃ t, w_trace w' = w_trace w ++ t ∧ forallb passive t = true.

#[global] Instance read_only_preorder : PreOrder read_only.
Proof.
  split.
  - intros w. repeat split. exists []. by rewrite app_nil_r.
  - intros w1 w2 w3 (Hd1 & Hf1 & Hr1 & t1 & Ht1 & Hp1) (Hd2 & Hf2 & Hr2 & t2 & Ht2 & Hp2).
    split; [congruence|]. split; [congruence|]. split; [congruence|].
    exists (t1 ++ t2). split; [by rewrite Ht2, Ht1, app_assoc|].
    by rewrite forallb_app, Hp1, Hp2.
Qed.

(** The catalog invariants: the foreign key of [files], the uniqueness of
    permalinks ([UNIQUE]) and of album ids ([PRIMARY KEY]). *)
Definition catalog_wf (d : Db) : Prop :=
  catalog_ok d
  ∧ NoDup (map album_permalink (albums d))
  ∧ NoDup (map album_id (albums d)).

Ltac preserves_steps tac :=
  repeat first
    [ tac
    | apply preserves_bind; [apply _| |intros ?]
    | apply preserves_try_catch; [apply _| |intros ?]
    | apply preserves_try_finally; [apply _| |]
    | apply preserves_attempt
    | apply preserves_ret, _ | apply preserves_throw, _ | apply preserves_lift, _
    | apply readAll_preserves, _
    | match goal with
      | |- Preserves _ (if ?x then _ else _) => destruct x
      | |- Preserves _ (match ?x with _ => _ end) => destruct x
      end ].

Section RouteFacts.
Context `{Platform}.

Lemma passive_step_read_only e (w : World) :
  passive e = true → read_only w (log e w).
Proof.
  intros He. repeat split. exists [e]. split; [done|]. cbn. by rewrite He.
Qed.

Lemma selectAlbum_read_only token : Preserves read_only (selectAlbum token).
Proof. intros w r w' [= <- <-]. by apply passive_step_read_only. Qed.

Lemma selectFiles_read_only albumId : Preserves read_only (selectFiles albumId).
Proof. intros w r w' [= <- <-]. by apply passive_step_read_only. Qed.

Lemma selectFile_read_only name : Preserves read_only (selectFile name).
Proof. intros w r w' [= <- <-]. by apply passive_step_read_only. Qed.

Lemma openRead_read_only p : Preserves read_only (openRead p).
Proof.
  intros w r w' [= <- <-]. by apply (passive_step_read_only (EvOpenRead p)).
Qed.

Lemma albumHandler_read_only token : Preserves read_only (albumHandler token).
Proof.
  unfold albumHandler.
  preserves_steps ltac:(first [ apply selectAlbum_read_only
                              | apply selectFiles_read_only ]).
Qed.

Lemma preserves_pipeline (R : relation World) hdrs (m : M (list byte)) :
  Preserves R m → Preserves R (pipeline hdrs m).
Proof.
  intros Hm w r w' Hrun. unfold pipeline in Hrun.
  destruct (m w) as [[content|e] w1] eqn:E; injection Hrun as <- <-; by eapply Hm.
Qed.

Lemma streamHandler_read_only env name : Preserves read_only (streamHandler env name).
Proof.
  unfold streamHandler.
  preserves_steps ltac:(first [ apply selectFile_read_only
                              | apply openRead_read_only
                              | apply preserves_pipeline ]).
Qed.

(** X10: the two [GET] routes only look.  Each run ends with an answer or
    a call of [next], leaves the catalog, the files and the random
    generator as they were, and adds nothing to the trace but [SELECT]
    statements and openings for reading: no row is inserted, nothing is
    written and nothing is removed. *)
Theorem get_routes_read_only env (token name : string) (w : World) :
  (∃ o w', albumHandler token w = (Ok o, w') ∧ read_only w w')
  ∧ (∃ o w', streamHandler env name w = (Ok o, w') ∧ read_only w w').
Proof.
  split.
  - unfold albumHandler at 1.
    match goal with
    | |- context [try_catch ?m ?h w] =>
        destruct (try_catch_next_total m w) as (o & w' & Hrun)
    end.
    exists o, w'. split; [exact Hrun|].
    by eapply albumHandler_read_only.
  - unfold streamHandler at 1.
    match goal with
    | |- context [try_catch ?m ?h w] =>
        destruct (try_catch_next_total m w) as (o & w' & Hrun)
    end.
    exists o, w'. split; [exact Hrun|].
    by eapply streamHandler_read_only.
Qed.

(** The two ways a run of the upload handler can leave the catalog: as it
    was, or with one new album and rows for that album only. *)
Lemma upload_db_cases env req_files w r w' :
  uploadHandler env req_files w = (r, w') →
  let token := fst (Uuid.uuidv4 (w_rng w)) in
  w_db w' = w_db w
  ∨ (existsb (has_permalink token) (albums (w_db w)) = false
     ∧ ∃ records,
         w_db w' = with_files (new_album token (w_db w)) records
         ∧ Forall (fun r => f_album_id r = S (max_album_id (albums (w_db w)))) records).
Proof.
  intros Hrun token.
  destruct (decide (default [] req_files = [])) as [Hnil|Hne].
  { left. unfold uploadHandler in Hrun. rewrite Hnil in Hrun. by injection Hrun as _ <-. }
  assert (Hsome : ∃ files, uploadHandler env req_files w = uploadHandler env (Some files) w
                           ∧ files ≠ []).
  { destruct req_files as [files|]; [by exists files|done]. }
  destruct Hsome as (files & Heq & Hfiles). rewrite Heq in Hrun. clear Heq Hne.
  destruct (existsb (has_permalink token) (albums (w_db w))) eqn:Hfresh.
  - left. unfold uploadHandler in Hrun. cbn [from_option] in Hrun. unfold id in Hrun.
    destruct (Nat.eqb_spec (length files) 0) as [Hlen|_]; [by destruct files|].
    unfold bind at 1 in Hrun. rewrite uuidv4_run in Hrun. fold token in Hrun.
    set (w1 := set_rng _ w) in Hrun.
    apply try_finally_inv in Hrun as (r1 & w4 & rf & Hbody & Hfin).
    assert (Hquiet : quiet w4 w').
    { eapply (preserves_forM_ quiet); [|exact Hfin]. intros file. apply safeUnlink_quiet. }
    destruct Hquiet as [Hdb' _]. rewrite Hdb'.
    unfold try_catch, bind at 1 in Hbody.
    destruct (insertAlbum_taken token w1 Hfresh) as (e & Hins).
    rewrite Hins in Hbody. unfold ret in Hbody. by injection Hbody as _ <-.
  - right. split; [done|].
    assert (Hok' : ∃ o, r = Ok o).
    { destruct (upload_exit_spec env (Some files) w) as (o & w'' & Ho & _).
      rewrite Ho in Hrun. injection Hrun as <- _. by exists o. }
    destruct Hok' as (o & ->).
    destruct (upload_run_fresh env files w o w' Hfiles Hfresh Hrun)
      as (records & _ & Hdb & Hids & _).
    by exists records.
Qed.

Lemma elem_of_map_1 {A B} (f : A → B) l y :
  y ∈ map f l → ∃ x, y = f x ∧ x ∈ l.
Proof.
  induction l as [|a l IH]; cbn [map]; [by intros ?%elem_of_nil|].
  intros [->|Hin]%elem_of_cons; [exists a; split; [done|by left]|].
  destruct (IH Hin) as (x & -> & Hx). exists x. split; [done|by right].
Qed.

Lemma elem_of_map_2 {A B} (f : A → B) l x : x ∈ l → f x ∈ map f l.
Proof.
  induction l as [|a l IH]; cbn [map]; [by intros ?%elem_of_nil|].
  intros [->|Hin]%elem_of_cons; [by left|right; by apply IH].
Qed.

Lemma existsb_permalink_elem token l :
  existsb (has_permalink token) l = false → token ∉ map album_permalink l.
Proof.
  induction l as [|a l IH]; cbn [existsb map]; [by intros _ ?%elem_of_nil|].
  intros [Ha Hl]%orb_false_elim [E|Hin]%elem_of_cons; [|by apply IH].
  unfold has_permalink in Ha. subst token. by rewrite String.eqb_refl in Ha.
Qed.

Lemma max_album_id_fresh l : S (max_album_id l) ∉ map album_id l.
Proof.
  intros (a & E & Hin)%elem_of_map_1.
  pose proof (album_id_le_max l a Hin). lia.
Qed.

Lemma catalog_wf_new_album token d rows :
  catalog_wf d →
  existsb (has_permalink token) (albums d) = false →
  Forall (fun r => f_album_id r = S (max_album_id (albums d))) rows →
  catalog_wf (with_files (new_album token d) rows).
Proof.
  intros (Hok & Hperm & Hids) Hfresh Hrows.
  split; [by apply catalog_ok_new_album|].
  unfold with_files, new_album. cbn [albums]. rewrite !map_app. cbn [map].
  split; apply NoDup_app; (split; [done|]); (split; [|apply NoDup_singleton]).
  - intros x Hx ->%list_elem_of_singleton.
    by apply (existsb_permalink_elem _ _ Hfresh).
  - intros x Hx ->%list_elem_of_singleton.
    by apply (max_album_id_fresh (albums d)).
Qed.

(** X11: the catalog invariants hold of the empty catalog and are kept by
    every run of every route: each file row refers to an album row, no two
    albums share a permalink, no two albums share an id. *)
Theorem routes_keep_catalog_wf env (w : World) :
  catalog_wf (w_db w) →
  (∀ req_files r w', uploadHandler env req_files w = (r, w') → catalog_wf (w_db w'))
  ∧ (∀ token r w', albumHandler token w = (r, w') → catalog_wf (w_db w'))
  ∧ (∀ name r w', streamHandler env name w = (r, w') → catalog_wf (w_db w')).
Proof.
  intros Hwf. split; [|split].
  - intros req_files r w' Hrun.
    destruct (upload_db_cases _ _ _ _ _ Hrun) as [->|(Hfresh & records & -> & Hids)];
      [done|]. by apply catalog_wf_new_album.
  - intros token r w' Hrun.
    destruct (albumHandler_read_only token _ _ _ Hrun) as (-> & _). done.
  - intros name r w' Hrun.
    destruct (streamHandler_read_only env name _ _ _ Hrun) as (-> & _). done.
Qed.

Lemma catalog_wf_empty : catalog_wf {| albums := []; files := [] |}.
Proof. split; [apply catalog_ok_empty|]. split; constructor. Qed.

Lemma NoDup_fmap_inj {A B} (f : A → B) (l : list A) x y :
  NoDup (map f l) → x ∈ l → y ∈ l → f x = f y → x = y.
Proof.
  induction l as [|a l IH]; [by intros _ ?%elem_of_nil|].
  cbn [map]. intros [Hnot Hnd]%NoDup_cons [->|Hx]%elem_of_cons [->|Hy]%elem_of_cons E.
  - done.
  - exfalso. apply Hnot. rewrite E. by apply elem_of_map_2.
  - exfalso. apply Hnot. rewrite <- E. by apply elem_of_map_2.
  - by apply IH.
Qed.

Lemma find_permalink_spec token l a :
  List.find (has_permalink token) l = Some a → a ∈ l ∧ album_permalink a = token.
Proof.
  intros [Hin Hp]%List.find_some. split; [by apply list_elem_of_In|].
  unfold has_permalink in Hp. by apply String.eqb_eq in Hp.
Qed.

Lemma find_permalink_elem l a :
  a ∈ l → ∃ a', List.find (has_permalink (album_permalink a)) l = Some a'.
Proof.
  intros Hin. destruct (List.find _ l) as [a'|] eqn:Hfind; [eauto|].
  exfalso. apply list_elem_of_In in Hin.
  pose proof (List.find_none _ _ Hfind a Hin) as Hno.
  unfold has_permalink in Hno. by rewrite String.eqb_refl in Hno.
Qed.

(** X12: under the catalog invariants every file row is listed by exactly
    one permalink: there is a token whose album lookup finds the album the
    row refers to, and no other token's lookup does. *)
Theorem file_row_has_one_permalink (d : Db) (r : FileRecord) :
  catalog_wf d → r ∈ files d →
  ∃ token,
    (∃ a, List.find (has_permalink token) (albums d) = Some a
          ∧ album_id a = f_album_id r)
    ∧ ∀ token' a', List.find (has_permalink token') (albums d) = Some a' →
        album_id a' = f_album_id r → token' = token.
Proof.
  intros (Hok & Hperm & Hids) Hr.
  destruct (Hok r Hr) as (a & Ha & Hid).
  exists (album_permalink a). split.
  - destruct (find_permalink_elem _ a Ha) as (a' & Hfind).
    exists a'. split; [done|].
    destruct (find_permalink_spec _ _ _ Hfind) as [Ha' Hp].
    by rewrite (NoDup_fmap_inj album_permalink _ a' a Hperm Ha' Ha Hp).
  - intros token' a' Hfind Hid'.
    destruct (find_permalink_spec _ _ _ Hfind) as [Ha' <-].
    f_equal. apply (NoDup_fmap_inj album_id (albums d)); [done..|congruence].
Qed.

Lemma find_app_other token l a :
  has_permalink token a = false →
  List.find (has_permalink token) (l ++ [a]) = List.find (has_permalink token) l.
Proof.
  intros Ha. induction l as [|b l IH]; cbn [app List.find]; [by rewrite Ha|].
  by destruct (has_permalink token b).
Qed.

Lemma filter_other_album albumId (rows : list FileRecord) n :
  Forall (fun r => f_album_id r = n) rows → albumId ≠ n →
  List.filter (fun r => Nat.eqb (f_album_id r) albumId) rows = [].
Proof.
  intros Hrows Hne. induction Hrows as [|r rows Hr _ IH]; [done|].
  cbn [List.filter]. destruct (Nat.eqb_spec (f_album_id r) albumId); [congruence|done].
Qed.

(** X13: an upload does not touch the other albums.  Rows are only ever
    appended to the two tables, and for every token other than the one
    drawn for this upload the album route answers after the upload what it
    answered before, whether the upload succeeded or not. *)
Theorem upload_leaves_other_albums env req_files w r w' :
  uploadHandler env req_files w = (r, w') →
  albums (w_db w) `prefix_of` albums (w_db w')
  ∧ files (w_db w) `prefix_of` files (w_db w')
  ∧ ∀ token, token ≠ fst (Uuid.uuidv4 (w_rng w)) →
      album_view (w_db w') token = album_view (w_db w) token.
Proof.
  intros Hrun.
  destruct (upload_db_cases _ _ _ _ _ Hrun) as [->|(Hfresh & records & -> & Hids)];
    [done|].
  split; [by apply prefix_app_r|]. split; [by apply prefix_app_r|].
  intros token Hne. unfold album_view.
  destruct (validateUuid token); cbn [negb]; [|done].
  cbn [with_files new_album albums].
  rewrite find_app_other.
  2:{ unfold has_permalink. cbn [album_permalink].
      by apply String.eqb_neq. }
  destruct (List.find (has_permalink token) (albums (w_db w))) as [a|] eqn:Hfind; [|done].
  do 2 f_equal. unfold files_of_album, with_files, new_album. cbn [files].
  rewrite List.filter_app.
  rewrite (filter_other_album (album_id a) records _ Hids), app_nil_r; [done|].
  destruct (find_permalink_spec _ _ _ Hfind) as [Ha _].
  pose proof (album_id_le_max _ _ Ha). lia.
Qed.

Lemma insertAlbum_taken_run token w :
  existsb (has_permalink token) (albums (w_db w)) = true →
  insertAlbum token w
  = (Throw (SqliteError "SQLITE_CONSTRAINT: UNIQUE constraint failed: albums.permalink"),
     log (EvSql (InsertAlbum token) (w_db w)) w).
Proof. intros Htaken. unfold insertAlbum. by rewrite Htaken. Qed.

(** X14: when the token drawn for an upload is already taken, the
    [UNIQUE] constraint makes the first statement fail: the handler calls
    [next] with the SQLite error (surfaced as the generic 500), the
    catalog stays as it was, no file is created, and the uploaded
    temporary files are removed all the same. *)
Theorem upload_token_collision env (files : list UploadedFile) w :
  files ≠ [] →
  existsb (has_permalink (fst (Uuid.uuidv4 (w_rng w)))) (albums (w_db w)) = true →
  ∃ message w',
    uploadHandler env (Some files) w = (Ok (Next (SqliteError message)), w')
    ∧ answer (uploadHandler env (Some files) w)
      = json 500 (JsonError "Internal server error")
    ∧ w_db w' = w_db w
    ∧ (∀ q, w_fs w !! q = None → w_fs w' !! q = None)
    ∧ (∀ file, file ∈ files →
         Path.is_empty (up_path file) = false →
         unlink_denied (up_path file) = false →
         w_fs w' !! up_path file = None).
Proof.
  intros Hne Htaken.
  set (token := fst (Uuid.uuidv4 (w_rng w))) in *.
  set (w1 := set_rng (snd (Uuid.uuidv4 (w_rng w))) w).
  set (w2 := log (EvSql (InsertAlbum token) (w_db w)) w1).
  destruct (unlink_all_spec files w2) as (w3 & Hfin & Hdb & Habs & Hgone).
  assert (Hrun : ∃ message,
            uploadHandler env (Some files) w = (Ok (Next (SqliteError message)), w3)).
  { unfold uploadHandler. cbn [from_option]. unfold id.
    destruct (Nat.eqb_spec (length files) 0) as [Hlen|_]; [by destruct files|].
    unfold bind at 1. rewrite uuidv4_run. fold token w1.
    unfold try_finally, try_catch. unfold bind at 1.
    rewrite (insertAlbum_taken_run token w1 Htaken).
    change (log (EvSql (InsertAlbum token) (w_db w1)) w1) with w2.
    unfold ret. rewrite Hfin. by eexists. }
  destruct Hrun as (message & Hrun). exists message, w3.
  split; [exact Hrun|]. split; [unfold answer; by rewrite Hrun|].
  split; [by rewrite Hdb|]. split; [|done].
  intros q Hq. by apply Habs.
Qed.

End RouteFacts.

Lemma routes_keep_catalog_wf_witness :
  catalog_wf (w_db (snd (uploadHandler (H := Reference.platform) Reference.env0
                           (Some [Examples.photo]) (Reference.world0 Examples.disk)))).
Proof.
  exact (proj1 (routes_keep_catalog_wf (H := Reference.platform)
                  Reference.env0 (Reference.world0 Examples.disk) catalog_wf_empty)
           (Some [Examples.photo]) _ _ (surjective_pairing _)).
Defined.

(** ** The footprint of an upload *)

(** The output file of a conversion: an identifier with the extension
    [.mp4], joined to the temporary directory. *)
Definition conversion_output (env : Env) (p : string) : Prop :=
  ∃ rnds, length rnds = 16
          ∧ p = Path.join [tmpdir env; Uuid.v4_of_bytes rnds ^^ ".mp4"].

(** The file of a stored object: an identifier and an extension without a
    slash, joined to [uploads] and to the server's directory. *)
Definition object_path (env : Env) (p : string) : Prop :=
  ∃ rnds ext, length rnds = 16 ∧ no_slash ext = true
              ∧ p = Path.join [__dirname env;
                               Path.join ["uploads"; Uuid.v4_of_bytes rnds ^^ ext]].

(** What a run of the upload handler may do, [temps] being the temporary
    files of the request. *)
Definition upload_effect (env : Env) (temps : list string) (e : Effect) : Prop :=
  match e with
  | EvSql (InsertAlbum _) _ | EvSql (InsertFile _) _ => True
  | EvSql _ _ => False
  | EvOpenRead p => p ∈ temps ∨ conversion_output env p
  | EvWrite p => object_path env p ∨ conversion_output env p
  | EvUnlink p => p ∈ temps ∨ conversion_output env p
  | EvWarn _ => True
  end.

(** Every effect of the step satisfies [P]. *)
Definition within (P : Effect → Prop) (w w' : World) : Prop :=
  ∃ t, w_trace w' = w_trace w ++ t ∧ Forall P t.

(** A file disappears only through an [unlink] aimed at it. *)
Definition kept (w w' : World) : Prop :=
  ∃ t, w_trace w' = w_trace w ++ t
       ∧ ∀ p, EvUnlink p ∉ t → is_Some (w_fs w !! p) → is_Some (w_fs w' !! p).

#[global] Instance within_preorder P : PreOrder (within P).
Proof.
  split.
  - intros w. exists []. by rewrite app_nil_r.
  - intros w1 w2 w3 (t1 & Ht1 & Hp1) (t2 & Ht2 & Hp2).
    exists (t1 ++ t2). split; [by rewrite Ht2, Ht1, app_assoc|].
    by apply Forall_app.
Qed.

#[global] Instance kept_preorder : PreOrder kept.
Proof.
  split.
  - intros w. exists []. by rewrite app_nil_r.
  - intros w1 w2 w3 (t1 & Ht1 & Hp1) (t2 & Ht2 & Hp2).
    exists (t1 ++ t2). split; [by rewrite Ht2, Ht1, app_assoc|].
    intros p Hp Hin. apply Hp2; [|apply Hp1; [|done]];
      intros Hin'; apply Hp, elem_of_app; auto.
Qed.

Section FootprintFacts.
Context `{Platform}.

Lemma preserves_bind_post {A B} (R : relation World) `{!PreOrder R}
    (Q : A → Prop) (m : M A) (k : A → M B) :
  Preserves R m → (∀ w a w', m w = (Ok a, w') → Q a) →
  (∀ a, Q a → Preserves R (k a)) → Preserves R (bind m k).
Proof.
  intros Hm HQ Hk w r w' Hrun. unfold bind in Hrun.
  destruct (m w) as [[a|e] w1] eqn:E.
  - etrans; [by eapply Hm|]. eapply Hk; [|exact Hrun]. by eapply HQ.
  - injection Hrun as <- <-. by eapply Hm.
Qed.

Lemma preserves_mapM_in {A B} (R : relation World) `{!PreOrder R}
    (f : A → M B) (l : list A) :
  (∀ a, a ∈ l → Preserves R (f a)) → Preserves R (mapM f l).
Proof.
  induction l as [|a l IH]; intros Hf; cbn [mapM].
  - apply preserves_ret, _.
  - apply preserves_bind; [apply _|apply Hf; by left|]. intros b.
    apply preserves_bind; [apply _|apply IH; intros; apply Hf; by right|].
    intros bs. apply preserves_ret, _.
Qed.

Lemma preserves_forM_in {A} (R : relation World) `{!PreOrder R}
    (f : A → M unit) (l : list A) :
  (∀ a, a ∈ l → Preserves R (f a)) → Preserves R (forM_ f l).
Proof.
  induction l as [|a l IH]; intros Hf; cbn [forM_].
  - apply preserves_ret, _.
  - apply preserves_bind; [apply _|apply Hf; by left|]. intros _.
    apply IH. intros; apply Hf; by right.
Qed.

(** *** Steps of [within] *)

Lemma within_log P e w : P e → within P w (log e w).
Proof. intros He. exists [e]. split; [done|]. by constructor. Qed.

Lemma within_same_trace P w w' : w_trace w' = w_trace w → within P w w'.
Proof. intros E. exists []. by rewrite E, app_nil_r. Qed.

Lemma emit_within P e : P e → Preserves (within P) (emit e).
Proof. intros He w r w' [= <- <-]. by apply (within_log P e w). Qed.

Lemma uuidv4_within P : Preserves (within P) uuidv4.
Proof. intros w r w' Hrun. rewrite uuidv4_run in Hrun. injection Hrun as <- <-.
       by apply within_same_trace. Qed.

Lemma randomBytesM_within P n : Preserves (within P) (randomBytesM n).
Proof. unfold randomBytesM, randomBytes. intros w r w' [= <- <-].
       by apply within_same_trace. Qed.

Lemma writeFile_within P p c : P (EvWrite p) → Preserves (within P) (writeFile p c).
Proof. intros Hp w r w' [= <- <-]. exists [EvWrite p]. split; [done|]. by constructor. Qed.

Lemma insertAlbum_within P token :
  (∀ d, P (EvSql (InsertAlbum token) d)) → Preserves (within P) (insertAlbum token).
Proof.
  intros Hp w r w' Hrun. unfold insertAlbum in Hrun.
  destruct (existsb _ _); injection Hrun as <- <-;
    (eexists [_]; split; [reflexivity|]; by constructor).
Qed.

Lemma insertFile_within P row :
  (∀ d, P (EvSql (InsertFile row) d)) → Preserves (within P) (insertFile row).
Proof.
  intros Hp w r w' [= <- <-]. eexists [_]. split; [reflexivity|]. by constructor.
Qed.

Lemma unlink_within P p : P (EvUnlink p) → Preserves (within P) (unlink p).
Proof.
  intros Hp w r w' Hrun. unfold unlink in Hrun. cbn in Hrun.
  destruct (w_fs w !! p); [destruct (unlink_denied p)|]; injection Hrun as <- <-;
    (exists [EvUnlink p]; split; [reflexivity|]; by constructor).
Qed.

Lemma safeUnlink_within P p :
  P (EvUnlink p) → (∀ m, P (EvWarn m)) → Preserves (within P) (safeUnlink p).
Proof.
  intros Hp Hwarn. unfold safeUnlink.
  destruct (Path.is_empty p); [apply preserves_ret, _|].
  apply preserves_try_catch; [apply _|by apply unlink_within|].
  intros e. destruct (bool_decide _); [apply preserves_ret, _|by apply emit_within].
Qed.

Lemma uuidv4_shape w id w' :
  uuidv4 w = (Ok id, w') → ∃ rnds, length rnds = 16 ∧ id = Uuid.v4_of_bytes rnds.
Proof.
  rewrite uuidv4_run. intros Hrun.
  assert (id = fst (Uuid.uuidv4 (w_rng w))) as -> by congruence.
  exists (fst (randomBytes 16 (w_rng w))). split; [apply randomBytes_length|].
  unfold Uuid.uuidv4. by destruct (randomBytes 16 (w_rng w)).
Qed.

Section UploadSteps.
Context (env : Env) (temps : list string).

Lemma encrypt_within input ext :
  input ∈ temps ∨ conversion_output env input → no_slash ext = true →
  Preserves (within (upload_effect env temps)) (encryptAndStoreFromDisk env input ext).
Proof.
  intros Hin Hext. unfold encryptAndStoreFromDisk.
  apply preserves_bind; [apply _|apply randomBytesM_within|]. intros iv.
  apply preserves_bind; [apply _|apply preserves_lift, _|]. intros cipher.
  eapply (preserves_bind_post _ (fun id => ∃ rnds, length rnds = 16
                                            ∧ id = Uuid.v4_of_bytes rnds));
    [apply uuidv4_within|apply uuidv4_shape|].
  intros id (rnds & Hlen & ->).
  assert (Hobj : upload_effect env temps (EvWrite (Path.join [__dirname env;
                    Path.join ["uploads"; Uuid.v4_of_bytes rnds ^^ ext]]))).
  { left. by exists rnds, ext. }
  apply preserves_bind; [apply _|by apply emit_within|]. intros _.
  apply preserves_bind; [apply _| |].
  - apply preserves_try_catch; [apply _|apply readAll_preserves, _|]. intros e.
    apply preserves_bind; [apply _|by apply writeFile_within|]. intros _.
    apply preserves_throw, _.
  - intros plain. apply preserves_bind; [apply _|by apply writeFile_within|].
    intros _. apply preserves_ret, _.
Qed.

Lemma convert_output_shape input w out w' :
  convertToMp4 env input w = (Ok out, w') → conversion_output env out.
Proof.
  intros (bytes & output & _ & _ & _ & ->)%convert_inv.
  exists (fst (randomBytes 16 (w_rng w))). split; [apply randomBytes_length|].
  unfold Uuid.uuidv4. by destruct (randomBytes 16 (w_rng w)).
Qed.

Lemma convert_within input : Preserves (within (upload_effect env temps)) (convertToMp4 env input).
Proof.
  unfold convertToMp4. destruct (ffmpegStatic env); cbn [negb];
    [|apply preserves_throw, _].
  eapply (preserves_bind_post _ (fun id => ∃ rnds, length rnds = 16
                                            ∧ id = Uuid.v4_of_bytes rnds));
    [apply uuidv4_within|apply uuidv4_shape|].
  intros id (rnds & Hlen & ->).
  apply preserves_bind; [apply _| |].
  - apply preserves_try_catch; [apply _|apply readAll_preserves, _|]. intros e.
    apply preserves_throw, _.
  - intros input_bytes.
    assert (Hout : upload_effect env temps
                     (EvWrite (Path.join [tmpdir env; Uuid.v4_of_bytes rnds ^^ ".mp4"])))
      by (right; by exists rnds).
    destruct (ffmpeg_run input_bytes).
    + apply preserves_bind; [apply _| |intros _; apply preserves_ret, _].
      by apply writeFile_within.
    + destruct (ffmpeg_leftover input_bytes); [|apply preserves_throw, _].
      apply preserves_bind; [apply _| |intros _; apply preserves_throw, _].
      by apply writeFile_within.
Qed.

Lemma storeRecord_within file albumId wp mime ext :
  wp ∈ temps ∨ conversion_output env wp → no_slash ext = true →
  Preserves (within (upload_effect env temps)) (storeRecord env file albumId wp mime ext).
Proof.
  intros Hwp Hext. unfold storeRecord.
  apply preserves_bind; [apply _| |intros ?; apply preserves_ret, _].
  apply encrypt_within; [done|]. by apply targetExtension_no_slash.
Qed.

Lemma safeUnlink_allowed p :
  p ∈ temps ∨ conversion_output env p → Preserves (within (upload_effect env temps)) (safeUnlink p).
Proof. intros Hp. by apply safeUnlink_within. Qed.

Lemma persist_within file albumId :
  up_path file ∈ temps →
  Preserves (within (upload_effect env temps)) (persistUploadedFile env file albumId).
Proof.
  intros Hin. unfold persistUploadedFile.
  destruct (shouldConvertToMp4 file).
  - eapply (preserves_bind_post _
              (fun converted => ∀ out, converted = Ok out → conversion_output env out)).
    + apply preserves_attempt. apply convert_within.
    + intros w converted w' Hrun out ->.
      apply attempt_ok_inv in Hrun. by eapply convert_output_shape.
    + intros [out|e] Hout.
      * specialize (Hout out eq_refl).
        apply preserves_try_finally; [apply _| |apply safeUnlink_allowed; by right].
        apply preserves_bind; [apply _|apply safeUnlink_allowed; by left|].
        intros _. apply storeRecord_within; [by right|reflexivity].
      * apply preserves_try_finally; [apply _|apply preserves_throw, _|].
        apply safeUnlink_allowed. by left.
  - apply preserves_try_finally; [apply _| |apply safeUnlink_allowed; by left].
    apply storeRecord_within; [by left|apply extname_no_slash].
Qed.

End UploadSteps.

Lemma upload_within env req_files :
  Preserves (within (upload_effect env (map up_path (default [] req_files))))
    (uploadHandler env req_files).
Proof.
  unfold uploadHandler. set (files := default [] req_files).
  destruct (Nat.eqb (length files) 0); [apply preserves_ret, _|].
  apply preserves_bind; [apply _|apply uuidv4_within|]. intros token.
  apply preserves_try_finally; [apply _| |].
  - apply preserves_try_catch; [apply _| |intros e; apply preserves_ret, _].
    apply preserves_bind; [apply _|by apply insertAlbum_within|]. intros albumId.
    apply preserves_bind; [apply _| |].
    + apply preserves_mapM_in; [apply _|]. intros file Hfile.
      apply persist_within. by apply elem_of_map_2.
    + intros records. apply preserves_bind; [apply _| |intros _; apply preserves_ret, _].
      apply preserves_forM_; [apply _|]. intros row. by apply insertFile_within.
  - apply preserves_forM_in; [apply _|]. intros file Hfile.
    apply safeUnlink_allowed. left. by apply elem_of_map_2.
Qed.

(** An object of the store is a direct child of the storage root. *)
Lemma object_path_child env p :
  Forall (fun s => seg_ok s = true) (app_dir env) → object_path env p →
  ∃ name, seg_ok name = true ∧ p = abs_of (app_dir env ++ ["uploads"; name]).
Proof.
  intros Hd (rnds & ext & Hlen & Hext & ->).
  destruct (stored_name_ok rnds ext Hlen Hext) as (Hok & _).
  exists (Uuid.v4_of_bytes rnds ^^ ext). split; [done|].
  rewrite (join_rel "uploads" _ seg_ok_uploads Hok).
  change ("uploads" ^^ String JS.slash (Uuid.v4_of_bytes rnds ^^ ext))
    with (JS.concat_sep Path.sep ["uploads"; Uuid.v4_of_bytes rnds ^^ ext]).
  apply join_abs; [done| |done].
  constructor; [apply seg_ok_uploads|]. constructor; [done|constructor].
Qed.

(** The output of a conversion is a direct child of the temporary
    directory. *)
Lemma conversion_output_child env t p :
  tmpdir env = abs_of t → Forall (fun s => seg_ok s = true) t →
  conversion_output env p →
  ∃ name, seg_ok name = true ∧ p = abs_of (t ++ [name]).
Proof.
  intros Ht Hsegs (rnds & Hlen & ->).
  destruct (stored_name_ok rnds ".mp4" Hlen eq_refl) as (Hok & _).
  exists (Uuid.v4_of_bytes rnds ^^ ".mp4"). split; [done|]. rewrite Ht.
  apply (join_abs t [Uuid.v4_of_bytes rnds ^^ ".mp4"]); [done| |done].
  by repeat constructor.
Qed.

(** X15: the footprint of an upload.  Whatever the request and however
    the run ends, the only statements issued are the two [INSERT]s; the
    only files opened for reading or removed are the temporary files of the
    request and outputs of conversions in the temporary directory; the only
    files written are objects of the store and such outputs.  With
    [__dirname] and [os.tmpdir()] normalized absolute paths, an object is a
    direct child of the storage root and an output a direct child of the
    temporary directory. *)
Theorem upload_footprint env req_files w r w' :
  uploadHandler env req_files w = (r, w') →
  within (upload_effect env (map up_path (default [] req_files))) w w'
  ∧ (Forall (fun s => seg_ok s = true) (app_dir env) →
     ∀ p, object_path env p →
       ∃ name, seg_ok name = true ∧ p = abs_of (app_dir env ++ ["uploads"; name]))
  ∧ (∀ t, tmpdir env = abs_of t → Forall (fun s => seg_ok s = true) t →
     ∀ p, conversion_output env p →
       ∃ name, seg_ok name = true ∧ p = abs_of (t ++ [name])).
Proof.
  intros Hrun. split; [by eapply upload_within|]. split.
  - intros Hd p. by apply object_path_child.
  - intros t Ht Hsegs p. by apply conversion_output_child.
Qed.

(** *** Steps of [kept] *)

Lemma kept_same w w' :
  w_trace w' = w_trace w → w_fs w' = w_fs w → kept w w'.
Proof.
  intros Ht Hf. exists []. split; [by rewrite Ht, app_nil_r|].
  intros p _. by rewrite Hf.
Qed.

Lemma kept_log e w : kept w (log e w).
Proof. exists [e]. split; [done|]. by intros p _. Qed.

Lemma emit_kept e : Preserves kept (emit e).
Proof. intros w r w' [= <- <-]. apply (kept_log e w). Qed.

Lemma uuidv4_kept : Preserves kept uuidv4.
Proof. intros w r w' Hrun. rewrite uuidv4_run in Hrun. injection Hrun as <- <-.
       by apply kept_same. Qed.

Lemma randomBytesM_kept n : Preserves kept (randomBytesM n).
Proof. unfold randomBytesM, randomBytes. intros w r w' [= <- <-]. by apply kept_same. Qed.

Lemma writeFile_kept p c : Preserves kept (writeFile p c).
Proof.
  intros w r w' [= <- <-]. exists [EvWrite p]. split; [done|].
  intros q _ Hq. cbn. destruct (decide (p = q)) as [->|Hne].
  - rewrite lookup_insert_eq. eauto.
  - by rewrite lookup_insert_ne.
Qed.

Lemma insertAlbum_kept token : Preserves kept (insertAlbum token).
Proof.
  intros w r w' Hrun. unfold insertAlbum in Hrun.
  destruct (existsb _ _); injection Hrun as <- <-;
    (eexists [_]; split; [reflexivity|]; by intros p _).
Qed.

Lemma insertFile_kept row : Preserves kept (insertFile row).
Proof. intros w r w' [= <- <-]. eexists [_]. split; [reflexivity|]. by intros p _. Qed.

Lemma unlink_kept p : Preserves kept (unlink p).
Proof.
  intros w r w' Hrun. unfold unlink in Hrun. cbn in Hrun.
  destruct (w_fs w !! p) eqn:Hp; [destruct (unlink_denied p)|];
    injection Hrun as <- <-; (exists [EvUnlink p]; split; [done|]);
    intros q Hq Hin; cbn; try done.
  rewrite lookup_delete_ne; [done|]. intros ->. apply Hq. by left.
Qed.

Lemma safeUnlink_kept p : Preserves kept (safeUnlink p).
Proof.
  unfold safeUnlink. destruct (Path.is_empty p); [apply preserves_ret, _|].
  apply preserves_try_catch; [apply _|apply unlink_kept|].
  intros e. destruct (bool_decide _); [apply preserves_ret, _|apply emit_kept].
Qed.

Lemma upload_kept env req_files : Preserves kept (uploadHandler env req_files).
Proof.
  unfold uploadHandler, persistUploadedFile, storeRecord, convertToMp4,
    encryptAndStoreFromDisk, openRead.
  preserves_steps ltac:(first
    [ apply uuidv4_kept | apply randomBytesM_kept | apply writeFile_kept
    | apply insertAlbum_kept | apply safeUnlink_kept | apply emit_kept
    | apply preserves_mapM; [apply _|intros ?]
    | apply preserves_forM_; [apply _|intros ?]
    | apply insertFile_kept ]).
Qed.

(** X16: an upload removes nothing but temporary files.  A file that
    exists before the run still exists after it unless it is one of the
    temporary files of the request or the output of a conversion; in
    particular no upload, failed or not, deletes an object of the store
    that lies outside the temporary directory. *)
Theorem upload_removes_only_temporaries env req_files w r w' (p : string) :
  uploadHandler env req_files w = (r, w') →
  is_Some (w_fs w !! p) →
  p ∉ map up_path (default [] req_files) →
  ¬ conversion_output env p →
  is_Some (w_fs w' !! p).
Proof.
  intros Hrun Hp Htemp Hconv.
  destruct (upload_within _ _ _ _ _ Hrun) as (t & Ht & Hall).
  destruct (upload_kept _ _ _ _ _ Hrun) as (t' & Ht' & Hkept).
  assert (t' = t) as -> by (rewrite Ht in Ht'; by apply app_inv_head in Ht').
  apply Hkept; [|done]. intros Hin.
  rewrite Forall_forall in Hall. destruct (Hall _ Hin) as [?|?]; done.
Qed.

End FootprintFacts.

(** ** The download route on old and on damaged records *)

Section StreamFacts.
Context `{Platform}.



Lemma ctr_xor_length ks data : ∀ i, length (ctr_xor ks i data) = length data.
Proof.
  induction data as [|b data IH]; intros i; cbn [ctr_xor length]; [done|].
  by rewrite IH.
Qed.

(** X19: the [size] column.  For a file stored without conversion the
    size recorded, and listed by the album route, is the number of bytes of
    the uploaded file: the object on disk is the cipher text, which is as
    long as the plain text (the tag is kept in the catalog, not in the
    object). *)
Theorem recorded_size_is_plain_size env file albumId w r w' :
  shouldConvertToMp4 file = false →
  persistUploadedFile env file albumId w = (Ok r, w') →
  ∃ plain, w_fs w !! up_path file = Some plain
           ∧ f_size r = length plain
           ∧ i_size (file_info r) = length plain.
Proof.
  intros Hconv Hrun.
  apply persist_inv in Hrun as (wp & mime & ext & w0 & w1 & Hstore & _ & Hcase).
  destruct Hcase as [(Hc & _)|(_ & -> & _ & _ & ->)]; [congruence|].
  apply storeRecord_inv in Hstore as (plain & Hin & _ & Hr & _).
  cbv zeta in Hr. exists plain. split; [done|].
  rewrite Hr. cbn [f_size file_info i_size].
  unfold gcm_encrypt. by rewrite ctr_xor_length.
Qed.

End StreamFacts.

(** ** Uploads that succeed *)

Section UploadSuccess.
Context `{Platform}.

Lemma startup_key_length rawKey key :
  startup rawKey = Listening key → length key = 32.
Proof.
  unfold startup, loadEncryptionKey.
  destruct (negb (JS.truthy rawKey)); [discriminate|].
  destruct (is_hex64 _) eqn:Hhex.
  - intros [= <-]. by apply is_hex64_key_length.
  - destruct (Nat.eqb_spec (length (base64_decode (default EmptyString rawKey))) 32)
      as [Hlen|_]; [|discriminate].
    by intros [= <-].
Qed.

(** With a 32-byte key, storing a file that is there cannot fail. *)
Lemma storeRecord_total env file albumId wp mime ext w plain :
  length (encryptionKey env) = 32 →
  w_fs w !! wp = Some plain →
  ∃ r w' absolute ct,
    storeRecord env file albumId wp mime ext w = (Ok r, w')
    ∧ w_fs w' = <[absolute := ct]> (w_fs w)
    ∧ w_db w' = w_db w.
Proof.
  intros Hkey Hin. unfold storeRecord, encryptAndStoreFromDisk.
  unfold bind at 1 2. unfold randomBytesM.
  destruct (randomBytes 12 (w_rng w)) as [iv g] eqn:Hiv.
  assert (Hlen : length iv = 12).
  { by rewrite <- (randomBytes_length 12 (w_rng w)), Hiv. }
  unfold bind at 1. unfold lift, createCipheriv. rewrite Hkey, Hlen. cbn [Nat.eqb negb].
  unfold bind at 1. rewrite uuidv4_run.
  unfold bind at 1. unfold openRead, emit.
  unfold bind at 1. unfold try_catch, readAll. cbn [w_fs set_rng].
  rewrite Hin. unfold bind at 1. unfold writeFile, ret. cbn [c_key c_iv].
  eexists _, _, _, _. split; [reflexivity|]. by split.
Qed.

Lemma safeUnlink_total p w : ∃ w', safeUnlink p w = (Ok tt, w') ∧ w_db w' = w_db w.
Proof. destruct (safeUnlink_spec p w) as (w' & E & Hdb & _). eauto. Qed.

(** A file that needs no conversion and is there is stored; the files at
    other paths are still there afterwards. *)
Lemma persist_total env file albumId w :
  length (encryptionKey env) = 32 →
  shouldConvertToMp4 file = false →
  is_Some (w_fs w !! up_path file) →
  ∃ r w', persistUploadedFile env file albumId w = (Ok r, w')
          ∧ w_db w' = w_db w
          ∧ ∀ q, q ≠ up_path file → is_Some (w_fs w !! q) → is_Some (w_fs w' !! q).
Proof.
  intros Hkey Hconv [plain Hin]. unfold persistUploadedFile. rewrite Hconv.
  destruct (storeRecord_total env file albumId (up_path file) (up_mimetype file)
              (Path.extname (up_originalname file)) w plain Hkey Hin)
    as (r & w1 & absolute & ct & Hstore & Hfs & Hdb).
  unfold try_finally. rewrite Hstore.
  destruct (safeUnlink_total (up_path file) w1) as (w2 & Hfin & Hdb2).
  rewrite Hfin. exists r, w2. split; [done|]. split; [congruence|].
  intros q Hne Hq. rewrite (safeUnlink_others _ _ _ _ q Hfin Hne), Hfs.
  destruct (decide (absolute = q)) as [->|Hne'].
  - rewrite lookup_insert_eq. eauto.
  - by rewrite lookup_insert_ne.
Qed.

Lemma mapM_persist_total env albumId files : ∀ w,
  length (encryptionKey env) = 32 →
  NoDup (map up_path files) →
  Forall (fun file => shouldConvertToMp4 file = false
                      ∧ is_Some (w_fs w !! up_path file)) files →
  ∃ records w',
    mapM (fun file => persistUploadedFile env file albumId) files w = (Ok records, w')
    ∧ w_db w' = w_db w.
Proof.
  induction files as [|file files IH]; intros w Hkey Hnd Hall; cbn [mapM].
  - by exists [], w.
  - cbn [map] in Hnd. apply NoDup_cons in Hnd as [Hnot Hnd].
    inversion Hall as [|? ? [Hconv Hin] Hrest]; subst.
    destruct (persist_total env file albumId w Hkey Hconv Hin)
      as (r & w1 & Hrun & Hdb1 & Hkeep).
    destruct (IH w1 Hkey Hnd) as (records & w2 & Hmap & Hdb2).
    { rewrite Forall_forall in Hrest. apply Forall_forall.
      intros f Hf. destruct (Hrest f Hf) as [Hc Hi]. split; [done|].
      apply Hkeep; [|done]. intros E. apply Hnot. rewrite <- E.
      by apply elem_of_map_2. }
    unfold bind. rewrite Hrun, Hmap. exists (r :: records), w2.
    split; [done|]. congruence.
Qed.

(** X20: uploads that must succeed.  When the process has started with an
    accepted key, the token drawn is not taken yet, none of the files needs
    a conversion and every temporary file is there under a path of its own,
    the upload is answered with 200 and the token, the catalog holds the
    new album with one row per file in upload order, and the album route
    lists them under that token. *)
Theorem upload_succeeds env rawKey (files : list UploadedFile) w :
  startup rawKey = Listening (encryptionKey env) →
  catalog_ok (w_db w) →
  files ≠ [] →
  existsb (has_permalink (fst (Uuid.uuidv4 (w_rng w)))) (albums (w_db w)) = false →
  NoDup (map up_path files) →
  Forall (fun file => shouldConvertToMp4 file = false
                      ∧ is_Some (w_fs w !! up_path file)) files →
  let token := fst (Uuid.uuidv4 (w_rng w)) in
  ∃ w' records,
    uploadHandler env (Some files) w
    = (Ok (Respond (json 200 (JsonPermalink token))), w')
    ∧ w_db w' = with_files (new_album token (w_db w)) records
    ∧ Forall2 (record_of (S (max_album_id (albums (w_db w))))) files records
    ∧ answer (albumHandler token w') = json 200 (JsonFiles (map file_info records)).
Proof.
  intros Hstart Hok Hne Hfresh Hnd Hall token.
  pose proof (startup_key_length _ _ Hstart) as Hkey.
  set (w1 := set_rng (snd (Uuid.uuidv4 (w_rng w))) w).
  set (d1 := new_album token (w_db w)).
  set (w2 := log (EvSql (InsertAlbum token) d1) (set_db d1 w1)).
  set (albumId := S (max_album_id (albums (w_db w)))).
  destruct (mapM_persist_total env albumId files w2 Hkey Hnd Hall)
    as (records & w3 & Hmap & Hdb3).
  destruct (insert_rows_spec records w3) as (w4 & Hins & _).
  destruct (unlink_all_spec files w4) as (w5 & Hfin & _).
  assert (Hrun : uploadHandler env (Some files) w
                 = (Ok (Respond (json 200 (JsonPermalink token))), w5)).
  { unfold uploadHandler. cbn [from_option]. unfold id.
    destruct (Nat.eqb_spec (length files) 0) as [Hlen|_]; [by destruct files|].
    unfold bind at 1. rewrite uuidv4_run. fold token w1.
    unfold try_finally, try_catch. unfold bind at 1.
    rewrite (insertAlbum_fresh token w1 Hfresh).
    change (log (EvSql (InsertAlbum token) (new_album token (w_db w1)))
              (set_db (new_album token (w_db w1)) w1)) with w2.
    change (S (max_album_id (albums (w_db w1)))) with albumId.
    unfold bind at 1. rewrite Hmap. unfold bind at 1. rewrite Hins.
    unfold ret. by rewrite Hfin. }
  destruct (upload_run_fresh env files w _ w5 Hne Hfresh Hrun)
    as (records' & _ & Hdb & Hids & [[_ Hrecs]|(e & [=] & _)]).
  exists w5, records'. split; [exact Hrun|]. split; [exact Hdb|]. split; [exact Hrecs|].
  rewrite albumHandler_answer, Hdb.
  apply album_view_new; [done|apply uuidv4_valid|done|done].
Qed.

End UploadSuccess.

(** ** Names, keys and the missing transcoder *)

Section NameFacts.
Context `{Platform}.

Lemma sanitize_char_idemp c :
  (fun c => if header_unsafe c then "_"%char else c)
    ((fun c => if header_unsafe c then "_"%char else c) c)
  = (fun c => if header_unsafe c then "_"%char else c) c.
Proof. cbv beta. destruct (header_unsafe c) eqn:Hc; [reflexivity|by rewrite Hc]. Qed.

Lemma str_map_map f g s : JS.str_map f (JS.str_map g s) = JS.str_map (fun c => f (g c)) s.
Proof. induction s as [|c s IH]; cbn [JS.str_map]; [done|by rewrite IH]. Qed.

Lemma str_map_ext f g s :
  (∀ c, f c = g c) → JS.str_map f s = JS.str_map g s.
Proof. intros Hfg. induction s as [|c s IH]; cbn [JS.str_map]; [done|by rewrite Hfg, IH]. Qed.

Lemma str_map_id_on f s :
  JS.str_forallb (fun c => Ascii.eqb (f c) c) s = true → JS.str_map f s = s.
Proof.
  induction s as [|c s IH]; cbn [JS.str_map JS.str_forallb]; [done|].
  intros [Hc Hs]%andb_prop. apply Ascii.eqb_eq in Hc. by rewrite Hc, IH.
Qed.

(** X21: sanitizing a file name twice is sanitizing it once, a name
    without any of the four characters is left as it is, and sanitizing
    goes through concatenation, so a name is cleaned character by character
    with no regard to what surrounds it. *)
Theorem sanitizeFilename_idempotent (filename other : string) :
  sanitizeFilename (sanitizeFilename filename) = sanitizeFilename filename
  ∧ (JS.str_existsb header_unsafe filename = false →
     sanitizeFilename filename = filename)
  ∧ sanitizeFilename (filename ^^ other)
    = sanitizeFilename filename ^^ sanitizeFilename other.
Proof.
  unfold sanitizeFilename. split; [|split].
  - rewrite str_map_map. apply str_map_ext. intros c.
    destruct (header_unsafe c) eqn:Hc; [reflexivity|by rewrite Hc].
  - intros Hsafe. induction filename as [|c s IH]; [done|].
    cbn [JS.str_existsb] in Hsafe. apply orb_false_elim in Hsafe as [Hc Hs].
    cbn [JS.str_map]. by rewrite Hc, IH.
  - induction filename as [|c s IH]; [done|].
    cbn [JS.str_app JS.str_map]. by rewrite IH.
Qed.

Lemma last_dot_head s : ∀ i e,
  Path.last_dot s = Some (i, e) → ∃ rest, e = String JS.dot rest.
Proof.
  induction s as [|c s IH]; intros i e; cbn [Path.last_dot]; [discriminate|].
  destruct (Path.last_dot s) as [[j e']|].
  - intros [= <- <-]. by eapply IH.
  - destruct (Ascii.eqb_spec c JS.dot) as [->|]; [|discriminate].
    intros [= <- <-]. by eexists.
Qed.

(** An extension is empty or starts with a dot. *)
Lemma extname_head p :
  Path.extname p = EmptyString ∨ ∃ rest, Path.extname p = String JS.dot rest.
Proof.
  unfold Path.extname. destruct (Path.basename_segment p) as [base|]; [|by left].
  destruct (Path.last_dot base) as [[[|i] e]|] eqn:Hdot; [by left| |by left].
  destruct (String.eqb base Path.dotdot); [by left|].
  right. by eapply last_dot_head.
Qed.

Lemma targetExtension_extname p :
  targetExtension (Path.extname p) = Path.extname p.
Proof.
  unfold targetExtension. destruct (extname_head p) as [->|(rest & ->)]; [done|].
  cbn [Path.is_empty]. unfold Path.onedot. cbn [JS.startsWith].
  by rewrite Ascii.eqb_refl.
Qed.

(** X22: the stored name of every record the write path returns is a
    fresh version-4 identifier, one the album route would accept as a
    token, followed by the extension of the original name exactly as
    [path.extname] gives it, or by [.mp4] after a conversion: the
    normalization of the extension at line 308 never changes anything.
    The name holds no slash, so it is one path segment of the download
    URL. *)
Theorem stored_name_shape env file albumId w r w' :
  persistUploadedFile env file albumId w = (Ok r, w') →
  ∃ uid,
    validateUuid uid = true
    ∧ f_filename r
      = uid ^^ (if shouldConvertToMp4 file then ".mp4"
                else Path.extname (up_originalname file))
    ∧ no_slash (f_filename r) = true.
Proof.
  intros Hrun.
  apply persist_inv in Hrun as (wp & mime & ext & w0 & w1 & Hstore & _ & Hcase).
  apply storeRecord_inv in Hstore as (plain & _ & _ & Hr & _). cbv zeta in Hr.
  set (rnds := fst (randomBytes 16 (snd (randomBytes 12 (w_rng w0))))) in *.
  assert (Hlen : length rnds = 16) by apply randomBytes_length.
  assert (Hname : f_filename r = Uuid.v4_of_bytes rnds ^^ targetExtension ext)
    by (by rewrite Hr).
  assert (Hext : targetExtension ext
                 = (if shouldConvertToMp4 file then ".mp4"
                    else Path.extname (up_originalname file))
                 ∧ no_slash ext = true).
  { destruct Hcase as [(-> & _ & ->)|(-> & _ & _ & -> & _)].
    - by split.
    - split; [apply targetExtension_extname|apply extname_no_slash]. }
  destruct Hext as [Htarget Hns].
  exists (Uuid.v4_of_bytes rnds). split; [by apply v4_valid|].
  split; [by rewrite Hname, Htarget|].
  rewrite Hname. unfold no_slash. rewrite str_forallb_app.
  pose proof (v4_no_slash rnds) as Hv. unfold no_slash in Hv. rewrite Hv.
  by apply targetExtension_no_slash.
Qed.

Lemma hexval_lower c :
  Buf.is_hex c = true → Buf.hexval (JS.lower_char c) = Buf.hexval c.
Proof.
  destruct c as [[] [] [] [] [] [] [] []]; (discriminate || reflexivity).
Qed.

Lemma is_hex_lower c : Buf.is_hex c = true → Buf.is_hex (JS.lower_char c) = true.
Proof.
  destruct c as [[] [] [] [] [] [] [] []]; (discriminate || reflexivity).
Qed.

Lemma fromHex_lower s :
  JS.str_forallb Buf.is_hex s = true →
  Buf.fromHex (JS.toLowerCase s) = Buf.fromHex s.
Proof.
  unfold JS.toLowerCase. revert s.
  fix IH 1. intros [|a [|b rest]]; [done|done|].
  cbn [JS.str_forallb JS.str_map Buf.fromHex].
  intros [Ha [Hb Hrest]%andb_prop]%andb_prop.
  rewrite (hexval_lower a Ha), (hexval_lower b Hb).
  destruct (Buf.hexval a), (Buf.hexval b); try done.
  by rewrite (IH rest Hrest).
Qed.

(** X23: the hexadecimal form of the key is read without regard to the
    case of the digits: a key of 64 hexadecimal characters and the same
    text in lower case start the server with the same 32 bytes. *)
Theorem hex_key_ignores_case (rawKey : string) :
  is_hex64 rawKey = true →
  ∃ key, loadEncryptionKey (Some rawKey) = Ok key
         ∧ loadEncryptionKey (Some (JS.toLowerCase rawKey)) = Ok key
         ∧ length key = 32.
Proof.
  intros Hhex. pose proof Hhex as Hhex'.
  unfold is_hex64 in Hhex'. apply andb_prop in Hhex' as [Hlen Hchars].
  assert (Hlower : is_hex64 (JS.toLowerCase rawKey) = true).
  { unfold is_hex64, JS.toLowerCase. rewrite str_length_map, Hlen. cbn [andb].
    clear Hlen Hhex. induction rawKey as [|c s IH]; [done|].
    cbn [JS.str_forallb JS.str_map] in *. apply andb_prop in Hchars as [Hc Hs].
    by rewrite (is_hex_lower c Hc), IH. }
  exists (Buf.fromHex rawKey).
  assert (Hne : ∀ s, is_hex64 s = true → JS.truthy (Some s) = true).
  { intros [|c s]; [discriminate|done]. }
  unfold loadEncryptionKey.
  rewrite (Hne _ Hhex), (Hne _ Hlower). cbn [negb from_option]. unfold id.
  rewrite Hhex, Hlower. split; [done|].
  split; [by rewrite fromHex_lower|by apply is_hex64_key_length].
Qed.

(** X24: without an FFmpeg binary a file that needs a conversion cannot be
    stored: [persistUploadedFile] throws the error of line 359 before
    anything is drawn, read or written, its [finally] block still removes
    the uploaded file, and an upload that starts with such a file ends with
    that error handed to [next], which the client sees as the generic 500:
    the message about FFmpeg is not disclosed. *)
Theorem conversion_needs_transcoder env file albumId w :
  ffmpegStatic env = false →
  shouldConvertToMp4 file = true →
  let e := Error "MOV conversion requires FFmpeg. Install ffmpeg-static to enable this feature." in
  (∃ w', persistUploadedFile env file albumId w = (Throw e, w')
         ∧ w_db w' = w_db w ∧ w_rng w' = w_rng w
         ∧ (∀ q, w_fs w !! q = None → w_fs w' !! q = None)
         ∧ (Path.is_empty (up_path file) = false →
            unlink_denied (up_path file) = false →
            w_fs w' !! up_path file = None))
  ∧ (∀ rest,
       existsb (has_permalink (fst (Uuid.uuidv4 (w_rng w)))) (albums (w_db w)) = false →
       ∃ w', uploadHandler env (Some (file :: rest)) w = (Ok (Next e), w')
             ∧ answer (uploadHandler env (Some (file :: rest)) w)
               = json 500 (JsonError "Internal server error")
             ∧ files (w_db w') = files (w_db w)).
Proof.
  intros Hff Hconv e.
  assert (Hpersist : ∀ w0, ∃ w',
            persistUploadedFile env file albumId w0 = (Throw e, w')
            ∧ w_db w' = w_db w0 ∧ w_rng w' = w_rng w0
            ∧ (∀ q, w_fs w0 !! q = None → w_fs w' !! q = None)
            ∧ (Path.is_empty (up_path file) = false →
               unlink_denied (up_path file) = false →
               w_fs w' !! up_path file = None)).
  { intros w0. unfold persistUploadedFile. rewrite Hconv.
    unfold bind, attempt, convertToMp4. rewrite Hff. cbn [negb].
    unfold throw, try_finally.
    destruct (safeUnlink_spec (up_path file) w0)
      as (w1 & E & Hdb & Hrng & _ & _ & Habs & Hgone & _).
    rewrite E. exists w1. by repeat split. }
  split; [apply Hpersist|].
  intros rest Hfresh.
  assert (Hpersist' : ∀ albumId' w0, ∃ w',
            persistUploadedFile env file albumId' w0 = (Throw e, w')).
  { intros albumId' w0. unfold persistUploadedFile. rewrite Hconv.
    unfold bind, attempt, convertToMp4. rewrite Hff. cbn [negb].
    unfold throw, try_finally.
    destruct (safeUnlink_spec (up_path file) w0) as (w1 & E & _).
    rewrite E. by exists w1. }
  set (token := fst (Uuid.uuidv4 (w_rng w))) in *.
  set (w1 := set_rng (snd (Uuid.uuidv4 (w_rng w))) w).
  set (d1 := new_album token (w_db w)).
  set (w2 := log (EvSql (InsertAlbum token) d1) (set_db d1 w1)).
  destruct (Hpersist' (S (max_album_id (albums (w_db w)))) w2) as (w3 & Hp).
  destruct (unlink_all_spec (file :: rest) w3) as (w4 & Hfin & _).
  assert (Hrun : uploadHandler env (Some (file :: rest)) w = (Ok (Next e), w4)).
  { unfold uploadHandler. cbn [from_option]. unfold id.
    destruct (Nat.eqb_spec (length (file :: rest)) 0) as [Hlen|_]; [discriminate|].
    unfold bind at 1. rewrite uuidv4_run. fold token w1.
    unfold try_finally, try_catch. unfold bind at 1.
    rewrite (insertAlbum_fresh token w1 Hfresh).
    change (log (EvSql (InsertAlbum token) (new_album token (w_db w1)))
              (set_db (new_album token (w_db w1)) w1)) with w2.
    change (w_db w1) with (w_db w).
    unfold bind at 1. cbn [mapM]. unfold bind at 1. rewrite Hp.
    unfold ret. by rewrite Hfin. }
  exists w4. split; [exact Hrun|]. split; [unfold answer; by rewrite Hrun|].
  destruct (upload_run_fresh env (file :: rest) w _ w4 ltac:(done) Hfresh Hrun)
    as (records & _ & Hdb & _ & [[[=] _]|(e' & _ & ->)]).
  rewrite Hdb. unfold with_files, d1, new_album. cbn [files]. apply app_nil_r.
Qed.

End NameFacts.

(** ** Converted uploads *)

Section ConversionFacts.
Context `{Platform}.

(** X25: what is kept of a QuickTime upload.  A record returned after a
    conversion describes the transcoder's output, not the uploaded bytes:
    its type is [video/mp4], its size is the size of the output, its tag
    authenticates the encryption of the output under the record's IV, and
    the decipher the download route builds for the record turns that cipher
    text back into the output. *)
Theorem converted_record_holds_output env file albumId w r w' :
  shouldConvertToMp4 file = true →
  persistUploadedFile env file albumId w = (Ok r, w') →
  ∃ input output iv decipher,
    w_fs w !! up_path file = Some input
    ∧ ffmpeg_run input = Some output
    ∧ f_type r = "video/mp4"
    ∧ f_size r = length output
    ∧ f_iv r = Buf.toHex iv
    ∧ f_tag r = Some (Buf.toHex (gcm_tag (encryptionKey env) iv
                                   (gcm_encrypt (encryptionKey env) iv output)))
    ∧ selectDecipher (encryptionKey env) r = Ok decipher
    ∧ decipher_run decipher (gcm_encrypt (encryptionKey env) iv output) = Ok output.
Proof.
  intros Hconv Hrun. unfold persistUploadedFile in Hrun. rewrite Hconv in Hrun.
  apply bind_ok_inv in Hrun as (converted & wa & Hatt & Hrun).
  destruct converted as [convertedPath|e].
  2:{ unfold try_finally, throw in Hrun.
      by destruct (safeUnlink (up_path file) wa) as [[[]|e'] wb]. }
  apply attempt_ok_inv in Hatt.
  apply convert_inv in Hatt as (input & output & Hin & Hff & Hout & _).
  apply try_finally_ok_inv in Hrun as (wb & Hrun & _).
  apply bind_ok_inv in Hrun as ([] & wc & Hunlink & Hstore).
  pose proof (written_record_decipher _ _ _ _ _ _ _ _ _ Hstore)
    as (plain & iv & tag & Hplain & Hiv & Htag & Hriv & Hrtag & Htype & _ & _ & Hsel).
  apply storeRecord_inv in Hstore as (plain' & Hplain' & _ & Hr & _). cbv zeta in Hr.
  assert (plain' = plain) as -> by congruence.
  assert (plain = output) as ->.
  { pose proof (safeUnlink_subset _ _ _ _ _ _ Hunlink Hplain) as Hsame. congruence. }
  exists input, output, iv,
    {| c_algorithm := aes_256_gcm; c_key := encryptionKey env;
       c_iv := iv; c_tag := Some tag |}.
  split; [done|]. split; [done|]. split; [done|]. split.
  { rewrite Hr. cbn [f_size]. unfold gcm_encrypt. by rewrite ctr_xor_length. }
  split; [done|]. split; [by rewrite Hrtag, Htag|]. split; [exact Hsel|].
  unfold decipher_run. cbn [c_algorithm c_tag c_key c_iv].
  assert (Htaglen : length tag = 16) by (rewrite Htag; apply gcm_tag_length).
  rewrite <- Htag, firstn_all.
  rewrite bool_decide_eq_true_2 by done.
  unfold gcm_encrypt. by rewrite ctr_xor_involutive.
Qed.

End ConversionFacts.

(** ** Worked instances *)

(** A catalog from before the migration: one row without a tag, with a
    16-byte IV, and its object in the store. *)
Module Legacy.
Import Reference.

Definition row : FileRecord :=
  {| f_album_id := 1; f_filename := "old.bin"; f_original_name := "old.jpg";
     f_path := "uploads/old.bin"; f_type := "image/jpeg"; f_size := 1;
     f_iv := "000102030405060708090a0b0c0d0e0f"; f_tag := None |}.

Definition db : Db :=
  {| albums := [{| album_id := 1; album_permalink := fst (Uuid.uuidv4 rng0) |}];
     files := [row] |}.

Definition object : string := "/app/backend/uploads/old.bin".

Definition store : gmap string (list byte) := <[object := [x07]]> Examples.disk.

Definition intact : World := set_db db (world0 store).


Lemma db_wf : catalog_wf db.
Proof.
  split; [|split].
  - intros r Hr. apply list_elem_of_singleton in Hr as ->.
    eexists. split; [apply list_elem_of_singleton; reflexivity|reflexivity].
  - apply NoDup_singleton.
  - apply NoDup_singleton.
Qed.

End Legacy.

Lemma file_row_has_one_permalink_witness :
  ∃ token a,
    List.find (has_permalink token) (albums Legacy.db) = Some a
    ∧ album_id a = 1.
Proof.
  assert (Hin : Legacy.row ∈ files Legacy.db)
    by (apply list_elem_of_singleton; reflexivity).
  destruct (file_row_has_one_permalink Legacy.db Legacy.row
              Legacy.db_wf Hin) as (token & (a & Hfind & Hid) & _).
  exists token, a. by split.
Defined.

Lemma upload_leaves_other_albums_witness :
  albums Reference.empty_db
    `prefix_of` albums (w_db (snd (uploadHandler (H := Reference.platform) Reference.env0
                                     (Some [Examples.photo])
                                     (Reference.world0 Examples.disk)))).
Proof.
  exact (proj1 (upload_leaves_other_albums (H := Reference.platform) Reference.env0
                  (Some [Examples.photo]) (Reference.world0 Examples.disk) _ _
                  (surjective_pairing _))).
Defined.

Lemma upload_token_collision_witness :
  ∃ message w',
    uploadHandler (H := Reference.platform) Reference.env0 (Some [Examples.photo])
      Legacy.intact
    = (Ok (Next (SqliteError message)), w').
Proof.
  assert (Hne : [Examples.photo] ≠ []) by (intros E; inversion E).
  assert (Htaken : existsb (has_permalink (fst (Uuid.uuidv4 (w_rng Legacy.intact))))
                     (albums (w_db Legacy.intact)) = true)
    by (vm_compute; reflexivity).
  destruct (upload_token_collision (H := Reference.platform) Reference.env0
              [Examples.photo] Legacy.intact Hne Htaken)
    as (message & w' & Hrun & _).
  by exists message, w'.
Defined.

Lemma upload_footprint_witness :
  within (upload_effect Reference.env0 [up_path Examples.clip])
    (Reference.world0 Examples.disk)
    (snd (uploadHandler (H := Reference.platform) Reference.env0
            (Some [Examples.clip]) (Reference.world0 Examples.disk))).
Proof.
  exact (proj1 (upload_footprint (H := Reference.platform) Reference.env0
                  (Some [Examples.clip]) (Reference.world0 Examples.disk) _ _
                  (surjective_pairing _))).
Defined.

Lemma upload_removes_only_temporaries_witness :
  is_Some (w_fs (snd (uploadHandler (H := Reference.platform) Reference.env0
                        (Some [Examples.clip]) (Reference.world0 Legacy.store)))
           !! Legacy.object).
Proof.
  assert (Hin : is_Some (w_fs (Reference.world0 Legacy.store) !! Legacy.object))
    by (eexists; vm_compute; reflexivity).
  assert (Htemp : Legacy.object ∉ map up_path (default [] (Some [Examples.clip]))).
  { intros Hin'. apply list_elem_of_singleton in Hin'. inversion Hin'. }
  assert (Hconv : ¬ conversion_output Reference.env0 Legacy.object).
  { intros Hc.
    assert (Hsegs : Forall (fun s => seg_ok s = true) ["tmp"])
      by (constructor; [reflexivity|constructor]).
    destruct (conversion_output_child Reference.env0 ["tmp"] _ eq_refl Hsegs Hc)
      as (name & Hok & E).
    change Legacy.object with (abs_of ["app"; "backend"; "uploads"; "old.bin"]) in E.
    apply abs_of_inj in E; [inversion E| |].
    - repeat (constructor; [reflexivity|]). constructor.
    - constructor; [reflexivity|]. constructor; [exact Hok|constructor]. }
  exact (upload_removes_only_temporaries (H := Reference.platform) Reference.env0
           (Some [Examples.clip]) (Reference.world0 Legacy.store) _ _ Legacy.object
           (surjective_pairing _) Hin Htemp Hconv).
Defined.



Lemma recorded_size_is_plain_size_witness :
  ∃ r w' (plain : list byte),
    persistUploadedFile (H := Reference.platform) Reference.env0 Examples.photo 1
      (Reference.world0 Examples.disk) = (Ok r, w')
    ∧ f_size r = length plain.
Proof.
  assert (Hrun : ∃ r w',
            persistUploadedFile (H := Reference.platform) Reference.env0 Examples.photo 1
              (Reference.world0 Examples.disk) = (Ok r, w'))
    by (eexists _, _; vm_compute; reflexivity).
  destruct Hrun as (r & w' & Hrun).
  assert (Hconv : shouldConvertToMp4 Examples.photo = false) by (vm_compute; reflexivity).
  destruct (recorded_size_is_plain_size (H := Reference.platform) Reference.env0
              Examples.photo 1 (Reference.world0 Examples.disk) r w' Hconv Hrun)
    as (plain & _ & Hsize & _).
  exists r, w', plain. split; [exact Hrun|exact Hsize].
Defined.

Lemma upload_succeeds_witness :
  ∃ w',
    uploadHandler (H := Reference.platform) Reference.env0 (Some [Examples.photo])
      (Reference.world0 Examples.disk)
    = (Ok (Respond (json 200 (JsonPermalink (fst (Uuid.uuidv4 Reference.rng0))))), w').
Proof.
  assert (Hstart : startup (H := Reference.platform)
                     (Some "2a2a2a2a2a2a2a2a2a2a2a2a2a2a2a2a2a2a2a2a2a2a2a2a2a2a2a2a2a2a2a2a")
                   = Listening (encryptionKey Reference.env0))
    by (vm_compute; reflexivity).
  assert (Hne : [Examples.photo] ≠ []) by (intros E; inversion E).
  assert (Hfresh : existsb (has_permalink
                              (fst (Uuid.uuidv4 (w_rng (Reference.world0 Examples.disk)))))
                     (albums (w_db (Reference.world0 Examples.disk))) = false)
    by reflexivity.
  assert (Hnd : NoDup (map up_path [Examples.photo])) by apply NoDup_singleton.
  assert (Hall : Forall (fun file => shouldConvertToMp4 file = false
                           ∧ is_Some (w_fs (Reference.world0 Examples.disk)
                                        !! up_path file)) [Examples.photo]).
  { constructor; [|constructor]. split; [vm_compute; reflexivity|].
    eexists. vm_compute. reflexivity. }
  destruct (upload_succeeds (H := Reference.platform) Reference.env0 _
              [Examples.photo] (Reference.world0 Examples.disk)
              Hstart catalog_ok_empty Hne Hfresh Hnd Hall)
    as (w' & records & Hrun & _).
  by exists w'.
Defined.

Lemma stored_name_shape_witness :
  ∃ r w' uid,
    persistUploadedFile (H := Reference.platform) Reference.env0 Examples.clip 1
      (Reference.world0 Examples.disk) = (Ok r, w')
    ∧ validateUuid uid = true
    ∧ f_filename r = uid ^^ ".mp4".
Proof.
  assert (Hrun : ∃ r w',
            persistUploadedFile (H := Reference.platform) Reference.env0 Examples.clip 1
              (Reference.world0 Examples.disk) = (Ok r, w'))
    by (eexists _, _; vm_compute; reflexivity).
  destruct Hrun as (r & w' & Hrun).
  destruct (stored_name_shape (H := Reference.platform) Reference.env0
              Examples.clip 1 (Reference.world0 Examples.disk) r w' Hrun)
    as (uid & Hvalid & Hname & _).
  exists r, w', uid. split; [exact Hrun|]. split; [exact Hvalid|exact Hname].
Defined.

Lemma hex_key_ignores_case_witness :
  ∃ key,
    loadEncryptionKey (H := Reference.platform)
      (Some "2A2A2A2A2A2A2A2A2A2A2A2A2A2A2A2A2A2A2A2A2A2A2A2A2A2A2A2A2A2A2A2A")
    = Ok key
    ∧ length key = 32.
Proof.
  destruct (hex_key_ignores_case (H := Reference.platform)
              "2A2A2A2A2A2A2A2A2A2A2A2A2A2A2A2A2A2A2A2A2A2A2A2A2A2A2A2A2A2A2A2A" eq_refl)
    as (key & Hkey & _ & Hlen).
  by exists key.
Defined.

Lemma conversion_needs_transcoder_witness :
  ∃ w',
    persistUploadedFile (H := Reference.platform) NoTranscoder.env Examples.clip 1
      (Reference.world0 Examples.disk)
    = (Throw (Error "MOV conversion requires FFmpeg. Install ffmpeg-static to enable this feature."),
       w').
Proof.
  assert (Hconv : shouldConvertToMp4 Examples.clip = true) by (vm_compute; reflexivity).
  destruct (proj1 (conversion_needs_transcoder (H := Reference.platform)
                     NoTranscoder.env Examples.clip 1 (Reference.world0 Examples.disk)
                     eq_refl Hconv))
    as (w' & Hrun & _).
  by exists w'.
Defined.

Lemma converted_record_holds_output_witness :
  ∃ r w' (output : list byte),
    persistUploadedFile (H := Reference.platform) Reference.env0 Examples.clip 1
      (Reference.world0 Examples.disk) = (Ok r, w')
    ∧ f_type r = "video/mp4" ∧ f_size r = length output.
Proof.
  assert (Hrun : ∃ r w',
            persistUploadedFile (H := Reference.platform) Reference.env0 Examples.clip 1
              (Reference.world0 Examples.disk) = (Ok r, w'))
    by (eexists _, _; vm_compute; reflexivity).
  destruct Hrun as (r & w' & Hrun).
  assert (Hconv : shouldConvertToMp4 Examples.clip = true) by (vm_compute; reflexivity).
  destruct (converted_record_holds_output (H := Reference.platform) Reference.env0
              Examples.clip 1 (Reference.world0 Examples.disk) r w' Hconv Hrun)
    as (input & output & iv & decipher & _ & _ & Htype & Hsize & _).
  exists r, w', output. split; [exact Hrun|]. split; [exact Htype|exact Hsize].
Defined.
